(** * update_phabricator_repositories.py: a shallow embedding

    The script synchronises the repositories registered in phabricator
    with the ones that exist on github and kiln.  This file embeds the
    callsign allocator, the add/delete computation and the driver loop
    of [main], and proves the properties claimed about them.

    Python [str] values are modelled as Rocq [string]s (byte strings),
    Python sets of strings as [gset string], the url-to-callsign [dict]
    as [gmap string string].  Exceptions are an inductive type and the
    effectful code lives in a small state-and-exception monad whose
    state is the shared dict together with the trace of observable
    events (prints, registry calls). *)

From Stdlib Require Import Ascii String.
From stdpp Require Import base gmap strings list fin_maps sorting.



(** ** Python strings *)

Module PyStr.

Definition code (c : ascii) : nat := nat_of_ascii c.

(** The character classes of the three regular expressions and of
    [str.upper] (C locale: only [a-z] is changed). *)
Definition is_lower (c : ascii) : bool :=
  (97 <=? code c)%nat && (code c <=? 122)%nat.
Definition is_AZ (c : ascii) : bool :=
  (65 <=? code c)%nat && (code c <=? 90)%nat.
Definition is_digit (c : ascii) : bool :=
  (48 <=? code c)%nat && (code c <=? 57)%nat.

Definition upper_char (c : ascii) : ascii :=
  if is_lower c then ascii_of_nat (code c - 32) else c.

(** [s.upper()] *)
Fixpoint upper (s : string) : string :=
  match s with
  | EmptyString => EmptyString
  | String c s' => String (upper_char c) (upper s')
  end.

(** [re.sub(r'[0-9]', '', s)] *)
Fixpoint strip_digits (s : string) : string :=
  match s with
  | EmptyString => EmptyString
  | String c s' =>
      if is_digit c then strip_digits s' else String c (strip_digits s')
  end.

(** [re.split(r'[^A-Z]+', s)]: the pieces between the maximal runs of
    characters outside [A-Z].  [cur] is the piece being read and
    [in_sep] tells that the previous character belonged to a
    separator run.  As in Python, a separator at the very start or
    the very end of [s] gives an empty first or last piece, and the
    result always has at least one piece. *)
Fixpoint split_go (in_sep : bool) (cur : string) (s : string)
  : list string :=
  match s with
  | EmptyString => [cur]
  | String c s' =>
      if is_AZ c then split_go false (cur +:+ String c EmptyString) s'
      else if in_sep then split_go true cur s'
      else cur :: split_go true EmptyString s'
  end.

Definition split_non_AZ (s : string) : list string :=
  split_go false EmptyString s.

(** [w[:n]] *)
Fixpoint take (n : nat) (s : string) : string :=
  match n, s with
  | O, _ => EmptyString
  | S _, EmptyString => EmptyString
  | S n', String c s' => String c (take n' s')
  end.

(** [s[n:]] *)
Fixpoint drop (n : nat) (s : string) : string :=
  match n, s with
  | O, _ => s
  | S _, EmptyString => EmptyString
  | S n', String _ s' => drop n' s'
  end.

(** [''.join(ws)] *)
Fixpoint join (ws : list string) : string :=
  match ws with
  | [] => EmptyString
  | w :: ws' => w +:+ join ws'
  end.

(** [s.startswith(p)] *)
Definition startswith (s p : string) : bool := String.prefix p s.

(** [s.endswith(p)] *)
Definition endswith (s p : string) : bool :=
  (String.length p <=? String.length s)%nat
  && String.eqb (drop (String.length s - String.length p) s) p.

(** [s[:-n]] for [0 < n] *)
Definition drop_last (n : nat) (s : string) : string :=
  take (String.length s - n) s.

(** every character of [s] satisfies [p] *)
Fixpoint all_chars (p : ascii -> bool) (s : string) : bool :=
  match s with
  | EmptyString => true
  | String c s' => p c && all_chars p s'
  end.

End PyStr.

(** ** Exceptions and results *)

Inductive exn : Type :=
| NameError          (* raised by the allocator and by add_repository *)
| ValueError         (* max() of an empty sequence *)
| KeyError           (* missing dict key, missing token or certificate *)
| TypeError          (* iterating over None *)
| APIError           (* phabricator.APIError *)
| SocketTimeout      (* socket.timeout *)
| IOError.           (* any other failure of a network call *)

Global Instance exn_eq_dec : EqDecision exn.
Proof. solve_decision. Defined.

Inductive result (A : Type) : Type :=
| Ok (a : A)
| Raise (e : exn).
Arguments Ok {A} a.
Arguments Raise {A} e.

(** ** The callsign allocator *)

(** [l.remove(x)] where [x in l] is known: drops the first occurrence. *)
Fixpoint remove_first (x : string) (l : list string) : list string :=
  match l with
  | [] => []
  | y :: l' => if decide (x = y) then l' else y :: remove_first x l'
  end.

(** [max(ns)] of a possibly empty sequence; [None] is the ValueError. *)
Definition py_max (ns : list nat) : option nat :=
  match ns with
  | [] => None
  | n :: ns' => Some (foldr Nat.max n ns')
  end.

(** Lines 75-81: the words of the name. *)
Definition raw_name_parts (repo_name : string) : list string :=
  let repo_name := PyStr.upper repo_name in
  let repo_name := PyStr.strip_digits repo_name in
  PyStr.split_non_AZ repo_name.

(** Lines 84-87: the list [name_parts] once GROUP and WEBSITE have been
    handled. *)
Definition name_parts_of (repo_name : string) : list string :=
  let name_parts := raw_name_parts repo_name in
  let name_parts :=
    if decide ("GROUP" ∈ name_parts)
    then remove_first "GROUP" name_parts else name_parts in
  let name_parts :=
    if decide ("WEBSITE" ∈ name_parts)
    then remove_first "WEBSITE" name_parts else name_parts in
  name_parts.

(** Line 92: [''.join(w[:prefix_len + 1] for w in name_parts)] *)
Definition candidate_callsign (name_parts : list string) (prefix_len : nat)
  : string :=
  PyStr.join (PyStr.take (prefix_len + 1) <$> name_parts).

(** Lines 91-94, for the values [prefix_lens] still to be visited by the
    [for] loop; [None] when the loop runs to its end. *)
Fixpoint callsign_loop (name_parts : list string)
    (existing_callsigns : gset string) (prefix_lens : list nat)
  : option string :=
  match prefix_lens with
  | [] => None
  | prefix_len :: rest =>
      let c := candidate_callsign name_parts prefix_len in
      if decide (c ∈ existing_callsigns)
      then callsign_loop name_parts existing_callsigns rest
      else Some c
  end.

Definition _create_new_phabricator_callsign
    (repo_name : string) (existing_callsigns : gset string)
  : result string :=
  let name_parts := name_parts_of repo_name in
  match py_max (String.length <$> name_parts) with
  | None => Raise ValueError
  | Some longest =>
      match callsign_loop name_parts existing_callsigns (seq 0 longest) with
      | Some c => Ok c
      | None => Raise NameError
      end
  end.

(** A callsign is made of capital letters only. *)
Definition capitals (w : string) : Prop :=
  PyStr.all_chars PyStr.is_AZ w = true.

(** A word list without the two words that kiln puts into names. *)
Definition noise_free (words : list string) : Prop :=
  ("GROUP" ∉ words) ∧ ("WEBSITE" ∉ words).

Definition is_noise (w : string) : Prop := w = "GROUP" ∨ w = "WEBSITE".

Global Instance is_noise_dec w : Decision (is_noise w).
Proof. unfold is_noise. apply _. Defined.

Definition occurrences (x : string) (l : list string) : nat :=
  length (filter (x =.) l).

(** [l'] is [l] without its first [x]: the words before the first [x]
    and the words after it, in their places; or [l] itself when it
    holds no [x]. *)
Definition without_first (x : string) (l l' : list string) : Prop :=
  ((x ∉ l) ∧ l' = l)
  ∨ ∃ before after,
      l = before ++ x :: after ∧ (x ∉ before) ∧ l' = before ++ after.

(** *** The allocation rule in the words of the specification

    [prefixLen] runs from 1 to the length of the longest word; the
    candidate joins the first [prefixLen] characters of each word; the
    first candidate that is not in use is the callsign. *)
Definition spec_maxLen (words : list string) : nat :=
  foldr Nat.max 0 (String.length <$> words).

Definition spec_candidate (words : list string) (prefixLen : nat) : string :=
  String.concat "" ((fun w => substring 0 prefixLen w) <$> words).

Definition spec_allocates (words : list string) (usedCallsigns : gset string)
    (c : string) : Prop :=
  ∃ prefixLen : nat,
    1 ≤ prefixLen ≤ spec_maxLen words
    ∧ c = spec_candidate words prefixLen
    ∧ (c ∉ usedCallsigns)
    ∧ ∀ j : nat, 1 ≤ j < prefixLen → spec_candidate words j ∈ usedCallsigns.

(** ** The outside world and the observable events *)

(** One record of [phabctl.repository.query()]: the two fields read. *)
Record phab_repo : Type := PhabRepo {
  remoteURI : string;
  callsign : string
}.

(** The keyword arguments of [phabctl.repository.create]. *)
Record create_args : Type := CreateArgs {
  arg_name : string;
  arg_vcs : string;
  arg_callsign : string;
  arg_uri : string;
  arg_tracking : bool;
  arg_pullFrequency : nat;
  arg_localPath : string
}.

(** What a run does that can be seen from outside, in the order in which
    it happens: every [print], every line sent to stderr and every call
    of the phabricator API. *)
Inductive event : Type :=
| PrintBlank                                   (* print *)
| PrintStart                                   (* 'START: %s' *)
| PrintFetchingUrl (git_api_url : string)      (* 'Fetching url %s' *)
| PrintFetching                                (* 'Fetching list of ...' *)
| PrintRetrying (why : exn)                    (* 'Error running ...' *)
| PrintExisting (kind : string) (lst : list string)
| PrintAddingCount (n : nat)                   (* 'Adding %d new ...' *)
| PrintAdding (name url cs vcs destdir : string)
| ErrUnableToAdd (repo : string) (why : exn)   (* stderr *)
| PrintRemovingCount (n : nat)                 (* 'Removing %d ...' *)
| PrintDeleted (url cs : string)               (* 'Repository %s has ...' *)
| PrintDone                                    (* 'DONE: %s' *)
| CallQuery                                    (* repository.query() *)
| CallCreate (args : create_args).             (* repository.create(..) *)

(** What github answers to the fetches of lines 118-121, one page after
    the other: a fetch fails ([urlopen] or [json.loads] raises), or it
    gives the clone_url's of a page, with or without a [rel="next"] url
    in its Link header; after a page with such a url come the answers to
    the fetches from that url on. *)
Inductive github_pages : Type :=
| page_fails (e : exn)
| last_page (clone_urls : list string)
| next_page (clone_urls : list string) (next : string) (rest : github_pages).

(** The collaborators the script talks to.  [kilnauth_token] is the
    outcome of [_find_kilnauth_token]; [kiln_get_repos hg_token verbose
    debug] is the outcome of [kiln_local_backup.get_repos] with these
    arguments after ['https'] and the domain, and what that module
    prints is not part of the trace; [github] holds the answers of
    github.  [repository_query i] is the outcome of the call of
    [repository.query] that comes after [i] earlier ones;
    [repository_create] may depend on all that happened before the
    call. *)
Record World : Type := {
  kilnauth_token : result string;
  kiln_get_repos : string -> bool -> bool -> result (list string);
                                                     (* the cloneUrl's *)
  github : github_pages;
  certificate : option string;
  repository_query : nat -> result (list phab_repo);
  repository_create : list event -> create_args -> option exn
}.

Record Options : Type := { verbose : bool; dry_run : bool }.

(** ** The state-and-exception monad *)

(** The dict that [_get_repos_to_add_and_delete] builds is one object,
    handed by reference to every call of [add_repository] and
    [delete_repository]; it is kept in the state, next to the trace. *)
Record state : Type := State {
  url_to_callsign_map : gmap string string;
  trace : list event
}.

Definition M (A : Type) : Type := state -> result A * state.

Global Instance M_ret : MRet M := fun A a s => (Ok a, s).
Global Instance M_bind : MBind M := fun A B f m s =>
  match m s with
  | (Ok a, s') => f a s'
  | (Raise e, s') => (Raise e, s')
  end.

Definition raise {A} (e : exn) : M A := fun s => (Raise e, s).

Definition lift {A} (r : result A) : M A := fun s => (r, s).

Definition emit (ev : event) : M unit := fun s =>
  (Ok tt, State (url_to_callsign_map s) (trace s ++ [ev])).

Definition when (b : bool) (m : M unit) : M unit :=
  if b then m else mret tt.

Definition get_map : M (gmap string string) := fun s =>
  (Ok (url_to_callsign_map s), s).

Definition set_map (m : gmap string string) : M unit := fun s =>
  (Ok tt, State m (trace s)).

(** [try: body  except <classes>, why: handler(why)] *)
Definition try_except {A} (body : M A) (classes : exn -> bool)
    (handler : exn -> M A) : M A := fun s =>
  match body s with
  | (Ok a, s') => (Ok a, s')
  | (Raise e, s') => if classes e then handler e s' else (Raise e, s')
  end.

(** [sorted(xs)] for a set of strings *)
Definition sorted (xs : gset string) : list string :=
  merge_sort String.le (elements xs).

(** ** _retry *)

Section Retry.
Context {A : Type} (cmd : M A) (times : nat) (verbose : bool)
        (exceptions : exn -> bool).

(** The [for i in xrange(times)] loop for the values of [i] still to
    come; running off its end returns Python's [None]. *)
Fixpoint retry_loop (idxs : list nat) : M (option A) :=
  match idxs with
  | [] => mret None
  | i :: rest =>
      try_except (a ← cmd; mret (Some a)) exceptions (fun why =>
        if decide (i + 1 = times) then raise why
        else when verbose (emit (PrintRetrying why)) ;; retry_loop rest)
  end.

Definition _retry : M (option A) := retry_loop (seq 0 times).
End Retry.

(** ** _get_repos_to_add_and_delete *)

(** Lines 129-132: a github clone_url loses a trailing [.git]. *)
Definition git_repo_of (clone_url : string) : string :=
  if PyStr.endswith clone_url ".git"
  then PyStr.drop_last (String.length ".git") clone_url
  else clone_url.

(** Line 142: [set(r['remoteURI'] for r in phabricator_repo_info)] *)
Definition phabricator_repos_of (info : list phab_repo) : gset string :=
  list_to_set (remoteURI <$> info).

(** Lines 146-147: [dict((r['remoteURI'], r['callsign']) for r in ...)];
    as in Python a later pair replaces an earlier one with its key. *)
Definition repo_to_callsign_map_of (info : list phab_repo)
  : gmap string string :=
  foldl (fun m r => <[remoteURI r := callsign r]> m) ∅ info.

(** Lines 156-158: the three set operations. *)
Definition repos_to_add_and_delete
    (kiln_repos git_repos phabricator_repos : gset string)
  : gset string * gset string :=
  let actual_repos := kiln_repos ∪ git_repos in
  let new_repos := actual_repos ∖ phabricator_repos in
  let deleted_repos := phabricator_repos ∖ actual_repos in
  (new_repos, deleted_repos).

Definition is_socket_timeout (e : exn) : bool :=
  bool_decide (e = SocketTimeout).

Definition is_query (ev : event) : bool :=
  match ev with CallQuery => true | _ => false end.

Definition is_create (ev : event) : bool :=
  match ev with CallCreate _ => true | _ => false end.

(** How many events of a kind a trace holds. *)
Definition count_events (p : event -> bool) (tr : list event) : nat :=
  length (filter p tr).

(** How many calls of [repository.query] a trace holds. *)
Definition queries (tr : list event) : nat := count_events is_query tr.

(** The state with the events [evs] added to the trace. *)
Definition log (evs : list event) (s : state) : state :=
  State (url_to_callsign_map s) (trace s ++ evs).

(** [m] adds at most [n] events of the kind [p] to the trace. *)
Definition adds_at_most (p : event -> bool) (n : nat) {A} (m : M A) : Prop :=
  ∀ s, count_events p (trace (m s).2) ≤ count_events p (trace s) + n.

(** Line 112: ['https://api.github.com/orgs/%s/repos' % 'Khan'] *)
Definition git_api_url : string := "https://api.github.com/orgs/Khan/repos".

(** Lines 115-125: the [while git_api_url] loop, with the answers of
    github still to come; [git_repo_info] is the list extended so far.
    An empty next url ends the loop as [None] does. *)
Fixpoint fetch_github (verbose : bool) (git_api_url : string)
    (pages : github_pages) (git_repo_info : list string) : M (list string) :=
  if bool_decide (git_api_url = "") then mret git_repo_info
  else
    when verbose (emit (PrintFetchingUrl git_api_url)) ;;
    match pages with
    | page_fails e => raise e
    | last_page clone_urls => mret (git_repo_info ++ clone_urls)
    | next_page clone_urls next rest =>
        fetch_github verbose next rest (git_repo_info ++ clone_urls)
    end.

(** The urls that the loop fetches, in order. *)
Fixpoint fetched_urls (git_api_url : string) (pages : github_pages)
  : list string :=
  if bool_decide (git_api_url = "") then []
  else git_api_url ::
       match pages with
       | next_page _ next rest => fetched_urls next rest
       | _ => []
       end.

(** What the loop ends with: the clone_url's of all the pages, or the
    exception of the fetch that fails. *)
Fixpoint git_repo_info_of (git_api_url : string) (pages : github_pages)
    (git_repo_info : list string) : result (list string) :=
  if bool_decide (git_api_url = "") then Ok git_repo_info
  else match pages with
       | page_fails e => Raise e
       | last_page clone_urls => Ok (git_repo_info ++ clone_urls)
       | next_page clone_urls next rest =>
           git_repo_info_of next rest (git_repo_info ++ clone_urls)
       end.

(** The lines that the loop prints. *)
Definition github_prints (verbose : bool) (git_api_url : string)
    (pages : github_pages) : list event :=
  if verbose then PrintFetchingUrl <$> fetched_urls git_api_url pages else [].

Section Driver.
Context (W : World).

(** [phabctl.repository.query]: one call of the API. *)
Definition query : M (list phab_repo) := fun s =>
  (repository_query W (queries (trace s)),
   State (url_to_callsign_map s) (trace s ++ [CallQuery])).

(** [phabctl.repository.create(...)]: one call of the API. *)
Definition create (args : create_args) : M unit := fun s =>
  let s' := State (url_to_callsign_map s) (trace s ++ [CallCreate args]) in
  match repository_create W (trace s) args with
  | None => (Ok tt, s')
  | Some e => (Raise e, s')
  end.

(** The two sets of clone-urls; the dict is left in the state. *)
Definition _get_repos_to_add_and_delete (verbose : bool)
  : M (gset string * gset string) :=
  hg_token ← lift (kilnauth_token W);
  kiln_repo_info ← lift (kiln_get_repos W hg_token verbose verbose);
  let kiln_repos : gset string := list_to_set kiln_repo_info in
  git_repo_info ← fetch_github verbose git_api_url (github W) [];
  let git_repos : gset string := list_to_set (git_repo_of <$> git_repo_info) in
  (if certificate W is None then raise KeyError else mret tt) ;;
  when verbose (emit PrintFetching) ;;
  queried ← _retry query 3 verbose is_socket_timeout;
  phabricator_repo_info ← (if queried is Some info then mret info
                           else raise TypeError);
  let phabricator_repos := phabricator_repos_of phabricator_repo_info in
  set_map (repo_to_callsign_map_of phabricator_repo_info) ;;
  when verbose (emit (PrintExisting "git" (sorted git_repos)) ;;
                emit (PrintExisting "hg" (sorted kiln_repos)) ;;
                emit (PrintExisting "phabricator"
                        (sorted phabricator_repos))) ;;
  mret (repos_to_add_and_delete kiln_repos git_repos phabricator_repos).

(** ** add_repository *)

(** [os.path.join(a, *p)] of posixpath *)
Definition os_path_join (a : string) (p : list string) : string :=
  foldl (fun path b =>
           if PyStr.startswith b "/" then b
           else if bool_decide (path = "") || PyStr.endswith path "/"
                then path +:+ b
                else path +:+ "/" +:+ b) a p.

Definition prefix_map : list (string * string) :=
  [("https://github.com/Khan/", "git");
   ("https://khanacademy.kilnhg.com/Code/", "hg")].

(** Lines 191-199: the [for]/[else] over [prefix_map]; the result is
    [(vcs_type, name)], or [None] when no prefix matches.  No url
    starts with both prefixes, so the order in which the dict is
    gone through does not matter. *)
Fixpoint match_prefix (prefixes : list (string * string))
    (repo_clone_url : string) : option (string * string) :=
  match prefixes with
  | [] => None
  | (prefix, vcs_type) :: rest =>
      if PyStr.startswith repo_clone_url prefix then
        let name := PyStr.drop (String.length prefix) repo_clone_url in
        let name := if PyStr.endswith name ".git"
                    then PyStr.drop_last (String.length ".git") name
                    else name in
        Some (vcs_type, name)
      else match_prefix rest repo_clone_url
  end.

Definition add_repository (repo_rootdir repo_clone_url : string)
    (options : Options) : M unit :=
  '(vcs_type, name) ← (if match_prefix prefix_map repo_clone_url is Some r
                       then mret r else raise NameError);
  url_to_callsign_map ← get_map;
  callsign ← lift (_create_new_phabricator_callsign
                     name (map_img url_to_callsign_map));
  let destdir := os_path_join repo_rootdir [vcs_type; name] in
  emit (PrintAdding name repo_clone_url callsign vcs_type destdir) ;;
  when (negb (dry_run options))
    (create (CreateArgs name vcs_type callsign repo_clone_url
               true 60 destdir)) ;;
  url_to_callsign_map ← get_map;
  set_map (<[repo_clone_url := callsign]> url_to_callsign_map).

(** ** delete_repository *)

Definition delete_repository (repo_clone_url : string) : M unit :=
  url_to_callsign_map ← get_map;
  match url_to_callsign_map !! repo_clone_url with
  | None => raise KeyError
  | Some cs => emit (PrintDeleted repo_clone_url cs)
  end.

(** ** main *)

Definition caught_in_main (e : exn) : bool :=
  bool_decide (e = APIError) || bool_decide (e = NameError).

(** Lines 256-263, for the repositories still to be visited. *)
Fixpoint add_loop (repo_rootdir : string) (options : Options)
    (repos : list string) (num_failures : nat) : M nat :=
  match repos with
  | [] => mret num_failures
  | repo :: rest =>
      failed ← try_except
                 (add_repository repo_rootdir repo options ;; mret 0)
                 caught_in_main
                 (fun why => emit (ErrUnableToAdd repo why) ;; mret 1);
      add_loop repo_rootdir options rest (num_failures + failed)
  end.

(** Lines 268-270, for the repositories still to be visited. *)
Fixpoint delete_loop (repos : list string) : M unit :=
  match repos with
  | [] => mret tt
  | repo :: rest => delete_repository repo ;; delete_loop rest
  end.

Definition main (repo_rootdir : string) (options : Options) : M nat :=
  when (verbose options) (emit PrintBlank ;; emit PrintStart) ;;
  '(new_repos, deleted_repos) ←
     _get_repos_to_add_and_delete (verbose options);
  when (verbose options) (emit (PrintAddingCount (size new_repos))) ;;
  num_failures ← add_loop repo_rootdir options (sorted new_repos) 0;
  when (verbose options)
    (emit (PrintRemovingCount (size deleted_repos))) ;;
  delete_loop (sorted deleted_repos) ;;
  when (verbose options) (emit PrintDone) ;;
  mret num_failures.

End Driver.

(** A run starts with no dict and an empty trace. *)
Definition initial_state : state := State ∅ [].

(** The events of [attempts] calls of the query with a retry between
    two of them: nothing but the calls and, with [verbose], the line
    that announces the retry. *)
Fixpoint retry_events (verbose : bool) (attempts : nat) : list event :=
  match attempts with
  | 0 => []
  | 1 => [CallQuery]
  | S n => CallQuery :: (if verbose then [PrintRetrying SocketTimeout] else [])
             ++ retry_events verbose n
  end.

(** ** Sample worlds *)

(** A world in which every fetch works at once: github lists
    [clone_urls], kiln lists nothing, phabricator tracks [tracked] and
    answers a create call with [create_outcome]. *)
Definition github_world (clone_urls : list string) (tracked : list phab_repo)
    (create_outcome : create_args -> option exn) : World := {|
  kilnauth_token := Ok "token";
  kiln_get_repos := fun _ _ _ => Ok [];
  github := last_page clone_urls;
  certificate := Some "certificate";
  repository_query := fun _ => Ok tracked;
  repository_create := fun _ => create_outcome
|}.

Definition quiet : Options := {| verbose := false; dry_run := false |}.

(** A world whose query times out twice before it answers. *)
Definition flaky_world (tracked : list phab_repo) : World := {|
  kilnauth_token := Ok "token";
  kiln_get_repos := fun _ _ _ => Ok [];
  github := last_page [];
  certificate := Some "certificate";
  repository_query := fun i =>
    if (i <? 2)%nat then Raise SocketTimeout else Ok tracked;
  repository_create := fun _ _ => None
|}.

(** A repository that phabricator tracks and that exists no more. *)
Definition old_repo : phab_repo := PhabRepo "https://github.com/Khan/old" "O".

Definition is_failure (ev : event) : bool :=
  match ev with ErrUnableToAdd _ _ => true | _ => false end.

(** Two github repositories; the name of the first is nothing but the
    word that the allocator takes out. *)
Definition group_and_zebra : World :=
  github_world ["https://github.com/Khan/Group";
                "https://github.com/Khan/zebra"] [] (fun _ => None).

(** The same with a first clone-url of an unknown host. *)
Definition unknown_and_zebra : World :=
  github_world ["https://example.org/Group";
                "https://github.com/Khan/zebra"] [] (fun _ => None).




Definition with_dry_run (verbose dry_run : bool) : Options :=
  {| verbose := verbose; dry_run := dry_run |}.

(** The clone-url that an event of the add loop is about. *)
Definition add_event_url (ev : event) : option string :=
  match ev with
  | PrintAdding _ url _ _ _ => Some url
  | CallCreate args => Some (arg_uri args)
  | ErrUnableToAdd repo _ => Some repo
  | _ => None
  end.

Definition added_urls (tr : list event) : list string :=
  omap add_event_url tr.

(** How the add loop can change the dict: it may stop anywhere; a
    repository that fails leaves the dict as it is; a repository that is
    added gets the callsign allocated against the callsigns of the dict
    of that moment. *)
Inductive dict_steps : list string -> gmap string string ->
                       gmap string string -> Prop :=
| dict_stop repos m : dict_steps repos m m
| dict_skip repo rest m m' :
    dict_steps rest m m' -> dict_steps (repo :: rest) m m'
| dict_add repo rest m m' vcs_type name cs :
    match_prefix prefix_map repo = Some (vcs_type, name) ->
    _create_new_phabricator_callsign name (map_img m) = Ok cs ->
    dict_steps rest (<[repo := cs]> m) m' ->
    dict_steps (repo :: rest) m m'.

(** The events of the add loop: those that are about a clone-url. *)
Definition has_added_url (ev : event) : bool :=
  match add_event_url ev with Some _ => true | None => false end.

(** [m] adds no event of the kind [p] to the trace. *)
Definition adds_none (p : event -> bool) {A} (m : M A) : Prop :=
  ∀ s, filter p (trace (m s).2) = filter p (trace s).

(** The state in which [main] calls [_get_repos_to_add_and_delete]:
    with [verbose], lines 243-244 have printed two lines. *)
Definition pass_start (options : Options) (s : state) : state :=
  if verbose options then log [PrintStart] (log [PrintBlank] s) else s.

(** Two github repositories whose names have the same words. *)
Definition foo_twice : World :=
  github_world ["https://github.com/Khan/foo-website.git";
                "https://github.com/Khan/foo-group"] [] (fun _ => None).

(** ** More of the script *)

(** The characters of [s] that satisfy [p], in order. *)
Fixpoint keep_chars (p : ascii -> bool) (s : string) : string :=
  match s with
  | EmptyString => EmptyString
  | String c s' => if p c then String c (keep_chars p s') else keep_chars p s'
  end.

(** The word lists that the removal of GROUP and WEBSITE empties. *)
Definition noise_only_parts : list (list string) :=
  [["GROUP"]; ["WEBSITE"]; ["GROUP"; "WEBSITE"]; ["WEBSITE"; "GROUP"]].

(** *** _find_kilnauth_token *)

(** The characters that [str.strip()] takes away: space, tab, newline,
    vertical tab, form feed and carriage return. *)
Definition is_space (c : ascii) : bool :=
  (PyStr.code c =? 32)%nat
  || ((9 <=? PyStr.code c)%nat && (PyStr.code c <=? 13)%nat).

(** [s.lstrip()] *)
Fixpoint lstrip (s : string) : string :=
  match s with
  | EmptyString => EmptyString
  | String c s' => if is_space c then lstrip s' else s
  end.

(** [s.rstrip()] *)
Fixpoint rstrip (s : string) : string :=
  match s with
  | EmptyString => EmptyString
  | String c s' =>
      match rstrip s' with
      | EmptyString => if is_space c then EmptyString
                       else String c EmptyString
      | r => String c r
      end
  end.

(** [s.strip()] *)
Definition strip (s : string) : string := lstrip (rstrip s).

Definition tab : string := String (ascii_of_nat 9) EmptyString.
Definition newline : string := String (ascii_of_nat 10) EmptyString.

(** Line 56: ['%s\tFALSE\t/\tFALSE\t\tfbToken\t' % domain] *)
Definition fbToken_prefix (domain : string) : string :=
  domain +:+ tab +:+ "FALSE" +:+ tab +:+ "/" +:+ tab +:+ "FALSE" +:+ tab
  +:+ tab +:+ "fbToken" +:+ tab.

(** Lines 60-62: the [for line in f] loop over the lines of one file. *)
Fixpoint token_in_lines (prefix : string) (lines : list string)
  : option string :=
  match lines with
  | [] => None
  | line :: rest =>
      if PyStr.startswith line prefix
      then Some (strip (PyStr.drop (String.length prefix) line))
      else token_in_lines prefix rest
  end.

(** A file under [~/.hgcookies]: the lines that can be read from it, and
    whether the reading then fails with IOError; a file that [open]
    cannot open has no line and fails. *)
Record cookie_file : Type := CookieFile {
  file_lines : list string;
  file_fails : bool
}.

(** Lines 58-63: the [for filename in filenames] loop; [Ok None] when
    the loop runs to its end. *)
Fixpoint token_in_files (prefix : string) (files : list cookie_file)
  : result (option string) :=
  match files with
  | [] => Ok None
  | f :: rest =>
      match token_in_lines prefix (file_lines f) with
      | Some token => Ok (Some token)
      | None => if file_fails f then Raise IOError
                else token_in_files prefix rest
      end
  end.

(** Lines 57-63: the loop over [os.walk]; a directory is the list of
    its files, and the directories come in the order of the walk. *)
Fixpoint token_in_walk (prefix : string) (walk : list (list cookie_file))
  : result (option string) :=
  match walk with
  | [] => Ok None
  | filenames :: rest =>
      match token_in_files prefix filenames with
      | Ok None => token_in_walk prefix rest
      | Ok (Some token) => Ok (Some token)
      | Raise e => Raise e
      end
  end.

(** [hgcookies] is what [os.walk] finds under [~/.hgcookies] (nothing
    when the directory does not exist). *)
Definition _find_kilnauth_token (hgcookies : list (list cookie_file))
    (domain : string) : result string :=
  let prefix := fbToken_prefix domain in
  match token_in_walk prefix hgcookies with
  | Ok (Some token) => Ok token
  | Ok None => Raise KeyError
  | Raise e => Raise e
  end.

(** The lines of [files] in the order in which they are read, up to the
    first failure. *)
Fixpoint lines_of_files (files : list cookie_file) : list string :=
  match files with
  | [] => []
  | f :: rest =>
      file_lines f ++ if file_fails f then [] else lines_of_files rest
  end.

(** All the lines under [~/.hgcookies], in the order in which they are
    read, up to the first failure. *)
Definition lines_of_walk (walk : list (list cookie_file)) : list string :=
  lines_of_files (concat walk).

(** Whether the reading of one of the files fails. *)
Definition walk_fails (walk : list (list cookie_file)) : bool :=
  existsb file_fails (concat walk).

(** A file that can be read to its end. *)
Definition readable (lines : list string) : cookie_file :=
  CookieFile lines false.

(** The lines that the delete loop prints for [repos] with the dict [m]. *)
Definition deleted_lines (m : gmap string string) (repos : list string)
  : list event :=
  omap (fun url => PrintDeleted url <$> m !! url) repos.

(** No two repositories of the dict have the same callsign. *)
Definition unique_callsigns (m : gmap string string) : Prop :=
  ∀ url1 url2 cs, m !! url1 = Some cs → m !! url2 = Some cs → url1 = url2.

(** The events that only [add_repository] emits. *)
Definition is_add_event (ev : event) : bool :=
  match ev with
  | PrintAdding _ _ _ _ _ | CallCreate _ => true
  | _ => false
  end.

(** What every call of create should look like, for a pass with the
    root directory [repo_rootdir]. *)
Definition well_formed_create (repo_rootdir : string) (args : create_args)
  : bool :=
  arg_tracking args
  && (arg_pullFrequency args =? 60)%nat
  && bool_decide (match_prefix prefix_map (arg_uri args)
                  = Some (arg_vcs args, arg_name args))
  && bool_decide (arg_localPath args
                  = os_path_join repo_rootdir [arg_vcs args; arg_name args])
  && PyStr.all_chars PyStr.is_AZ (arg_callsign args)
  && negb (String.eqb (arg_callsign args) "").

Definition is_bad_create (repo_rootdir : string) (ev : event) : bool :=
  match ev with
  | CallCreate args => negb (well_formed_create repo_rootdir args)
  | _ => false
  end.

(** The events that are lines on stdout or stderr. *)
Definition is_output (ev : event) : bool :=
  negb (is_query ev || is_create ev).

(** A world without certificate for phabricator. *)
Definition uncertified_world : World := {|
  kilnauth_token := Ok "token";
  kiln_get_repos := fun _ _ _ => Ok [];
  github := last_page ["https://github.com/Khan/zebra"];
  certificate := None;
  repository_query := fun _ => Ok [];
  repository_create := fun _ _ => None
|}.

(** The calls of the phabricator API in a trace. *)
Definition calls_of (tr : list event) : list event :=
  filter (fun ev => is_query ev || is_create ev) tr.

(** Two states with the same dict and the same calls so far. *)
Definition same_calls (s1 s2 : state) : Prop :=
  url_to_callsign_map s1 = url_to_callsign_map s2
  ∧ calls_of (trace s1) = calls_of (trace s2).

(** From such states, [m1] and [m2] end alike, in such states. *)
Definition agrees {A} (m1 m2 : M A) : Prop :=
  ∀ s1 s2, same_calls s1 s2 →
    (m1 s1).1 = (m2 s2).1 ∧ same_calls (m1 s1).2 (m2 s2).2.

(** The answer of the registry to a create does not depend on what the
    script has printed. *)
Definition create_ignores_prints (W : World) : Prop :=
  ∀ tr tr' args,
    calls_of tr = calls_of tr' →
    repository_create W tr args = repository_create W tr' args.

(** What [kiln_local_backup.get_repos] returns or raises does not depend
    on the two flags that [verbose] is passed for. *)
Definition kiln_ignores_verbose (W : World) : Prop :=
  ∀ hg_token,
    kiln_get_repos W hg_token true true
    = kiln_get_repos W hg_token false false.

(** * Properties *)

(** ** Strings *)

Module PyStrFacts.
Import PyStr.

Lemma append_cons c (a b : string) :
  String c a +:+ b = String c (a +:+ b).
Proof. reflexivity. Qed.

Lemma length_append (a b : string) :
  String.length (a +:+ b) = String.length a + String.length b.
Proof.
  induction a as [|c a IH]; [done|].
  rewrite append_cons. simpl. by rewrite IH.
Qed.

Lemma all_chars_append p (a b : string) :
  all_chars p (a +:+ b) = all_chars p a && all_chars p b.
Proof.
  induction a as [|c a IH]; [done|].
  rewrite append_cons. simpl. by rewrite IH, andb_assoc.
Qed.

Lemma all_chars_take p n (s : string) :
  all_chars p s = true → all_chars p (take n s) = true.
Proof.
  revert s; induction n as [|n IH]; intros [|c s]; simpl; try done.
  intros [Hc Hs]%andb_true_iff. rewrite Hc. by apply IH.
Qed.

Lemma all_chars_join p (ws : list string) :
  Forall (fun w => all_chars p w = true) ws → all_chars p (join ws) = true.
Proof.
  induction 1 as [|w ws Hw _ IH]; simpl; [done|].
  by rewrite all_chars_append, Hw, IH.
Qed.

Lemma length_take n (s : string) :
  String.length (take n s) = n `min` String.length s.
Proof.
  revert s; induction n as [|n IH]; intros [|c s]; simpl; try done.
  by rewrite IH.
Qed.

Lemma length_join (ws : list string) :
  String.length (join ws) = sum_list (String.length <$> ws).
Proof.
  induction ws as [|w ws IH]; simpl; [done|].
  by rewrite length_append, IH.
Qed.

Lemma take_substring n (s : string) : substring 0 n s = take n s.
Proof.
  revert s; induction n as [|n IH]; intros [|c s]; simpl; try done.
  by rewrite IH.
Qed.

Lemma append_empty_r (s : string) : s +:+ "" = s.
Proof. induction s as [|c s IH]; [done | by rewrite append_cons, IH]. Qed.

Lemma concat_join (ws : list string) : String.concat "" ws = join ws.
Proof.
  induction ws as [|w ws IH]; simpl; [done|].
  destruct ws as [|w' ws]; [by rewrite append_empty_r|].
  by rewrite IH.
Qed.

(** The pieces of [re.split(r'[^A-Z]+', s)] are made of capitals. *)
Lemma split_go_AZ in_sep cur (s : string) :
  all_chars is_AZ cur = true →
  Forall (fun w => all_chars is_AZ w = true) (split_go in_sep cur s).
Proof.
  revert in_sep cur; induction s as [|c s IH]; intros in_sep cur Hcur; simpl.
  - by constructor.
  - destruct (is_AZ c) eqn:Hc.
    + apply IH. rewrite all_chars_append, Hcur. simpl. by rewrite Hc.
    + destruct in_sep; [by apply IH|]. constructor; [done|]. by apply IH.
Qed.

Lemma split_non_AZ_AZ (s : string) :
  Forall (fun w => all_chars is_AZ w = true) (split_non_AZ s).
Proof. by apply split_go_AZ. Qed.

End PyStrFacts.

(** ** The allocator *)

Section Allocator.
Import PyStr PyStrFacts.

Lemma py_max_Some (ns : list nat) (m : nat) :
  py_max ns = Some m → m ∈ ns ∧ ∀ n : nat, n ∈ ns → n ≤ m.
Proof.
  destruct ns as [|n0 ns]; simpl; [done|]. intros [= <-].
  induction ns as [|n ns [IHin IHle]]; simpl.
  - split; [left|]. by intros n ->%list_elem_of_singleton.
  - split.
    + destruct (Nat.max_spec n (foldr Nat.max n0 ns)) as [[_ ->]|[_ ->]].
      * apply elem_of_cons in IHin as [->|?]; [left|do 2 right]; done.
      * right; left.
    + intros x Hx. apply elem_of_cons in Hx as [Hx|Hx].
      * specialize (IHle n0 (list_elem_of_here _ _)). lia.
      * apply elem_of_cons in Hx as [Hx|Hx]; [lia|].
        specialize (IHle x (list_elem_of_further _ _ _ Hx)). lia.
Qed.

Lemma remove_first_Forall (P : string → Prop) x l :
  Forall P l → Forall P (remove_first x l).
Proof.
  induction 1 as [|y l Hy Hl IH]; simpl; [done|].
  case_decide; [done | by constructor].
Qed.

Lemma name_parts_of_capitals repo_name :
  Forall capitals (name_parts_of repo_name).
Proof.
  unfold name_parts_of, raw_name_parts.
  repeat case_decide; repeat apply remove_first_Forall;
    apply split_non_AZ_AZ.
Qed.

Lemma candidate_callsign_capitals name_parts prefix_len :
  Forall capitals name_parts →
  capitals (candidate_callsign name_parts prefix_len).
Proof.
  intros H. apply all_chars_join, Forall_fmap.
  eapply Forall_impl; [done|]. intros w Hw. by apply all_chars_take.
Qed.

Lemma candidate_callsign_length name_parts prefix_len :
  String.length (candidate_callsign name_parts prefix_len)
  = sum_list ((fun w => (prefix_len + 1) `min` String.length w)
                <$> name_parts).
Proof.
  unfold candidate_callsign. rewrite length_join, <-list_fmap_compose.
  f_equal. apply list_fmap_ext. intros _ w _. apply length_take.
Qed.

(** Up to the length of the longest word, a longer prefix gives a
    strictly longer candidate. *)
Lemma candidate_callsign_length_lt name_parts (j k longest : nat) :
  longest ∈ String.length <$> name_parts →
  j < k < longest →
  String.length (candidate_callsign name_parts j)
  < String.length (candidate_callsign name_parts k).
Proof.
  rewrite !candidate_callsign_length.
  intros (w & -> & Hw)%list_elem_of_fmap [Hjk Hk].
  induction name_parts as [|w' ws IH]; [by apply elem_of_nil in Hw|].
  assert (∀ l : list string,
    sum_list ((fun w => (j + 1) `min` String.length w) <$> l)
    ≤ sum_list ((fun w => (k + 1) `min` String.length w) <$> l)) as Hle.
  { induction l as [|x l IHl]; csimpl; lia. }
  csimpl. apply elem_of_cons in Hw as [<-|Hw].
  - specialize (Hle ws). lia.
  - specialize (IH Hw). lia.
Qed.

Lemma candidate_callsign_nonempty name_parts (k longest : nat) :
  longest ∈ String.length <$> name_parts → k < longest →
  candidate_callsign name_parts k ≠ "".
Proof.
  intros (w & -> & Hw)%list_elem_of_fmap Hk Hempty.
  apply (f_equal String.length) in Hempty.
  rewrite candidate_callsign_length in Hempty. simpl in Hempty.
  induction name_parts as [|w' ws IH]; [by apply elem_of_nil in Hw|].
  csimpl in Hempty. apply elem_of_cons in Hw as [<-|Hw]; [lia|].
  apply IH; [done | lia].
Qed.

(** The [for] loop returns the first candidate that is not taken. *)
Lemma callsign_loop_Some name_parts existing (a n : nat) c :
  callsign_loop name_parts existing (seq a n) = Some c ↔
  ∃ k : nat, a ≤ k < a + n ∧ c = candidate_callsign name_parts k
       ∧ (c ∉ existing)
       ∧ ∀ j : nat, a ≤ j < k →
                    candidate_callsign name_parts j ∈ existing.
Proof.
  revert a; induction n as [|n IH]; intros a; simpl.
  - split; [done | intros (k & ? & _); lia].
  - case_decide as Hin.
    + rewrite IH. split.
      * intros (k & Hk & -> & Hc & Hlt). exists k.
        repeat split; [lia.. | done |].
        intros j Hj. destruct (decide (j = a)) as [->|]; [done|].
        apply Hlt. lia.
      * intros (k & Hk & -> & Hc & Hlt).
        destruct (decide (k = a)) as [->|]; [done|].
        exists k. repeat split; [lia.. | done |].
        intros j Hj. apply Hlt. lia.
    + split.
      * intros [= <-]. exists a. repeat split; [lia.. | done |].
        intros j Hj. lia.
      * intros (k & Hk & -> & Hc & Hlt).
        destruct (decide (k = a)) as [->|]; [done|].
        destruct Hin. apply Hlt. lia.
Qed.

Lemma callsign_loop_None name_parts existing (a n : nat) :
  callsign_loop name_parts existing (seq a n) = None ↔
  ∀ k : nat, a ≤ k < a + n → candidate_callsign name_parts k ∈ existing.
Proof.
  revert a; induction n as [|n IH]; intros a; simpl.
  - split; [intros _ k ?; lia | done].
  - case_decide as Hin.
    + rewrite IH. split; intros H k Hk.
      * destruct (decide (k = a)) as [->|]; [done|]. apply H. lia.
      * apply H. lia.
    + split; [done|]. intros H. destruct Hin. apply H. lia.
Qed.

(** What a successful allocation returns. *)
Lemma allocator_Ok repo_name existing c :
  _create_new_phabricator_callsign repo_name existing = Ok c ↔
  ∃ longest k : nat,
    py_max (String.length <$> name_parts_of repo_name) = Some longest
    ∧ k < longest
    ∧ c = candidate_callsign (name_parts_of repo_name) k
    ∧ (c ∉ existing)
    ∧ ∀ j : nat, j < k →
           candidate_callsign (name_parts_of repo_name) j ∈ existing.
Proof.
  unfold _create_new_phabricator_callsign.
  destruct (py_max _) as [longest|] eqn:Hmax.
  - destruct (callsign_loop _ _ _) as [c'|] eqn:Hloop.
    + apply callsign_loop_Some in Hloop as (k & Hk & -> & Hc & Hlt).
      split.
      * intros [= <-]. exists longest, k.
        repeat split; [lia | done |]. intros j Hj. apply Hlt. lia.
      * intros (? & k' & [= <-] & Hk' & -> & Hc' & Hlt').
        f_equal. destruct (Nat.lt_total k k') as [?|[->|?]]; [|done|].
        -- destruct Hc. apply Hlt'. lia.
        -- destruct Hc'. apply Hlt. lia.
    + split; [done|]. intros (? & k & [= <-] & Hk & -> & Hc & _).
      destruct Hc. eapply callsign_loop_None; [done | lia].
  - split; [done | by intros (? & ? & ? & _)].
Qed.

End Allocator.

(** ** Claims about the allocator *)

Section AllocatorClaims.
Import PyStr PyStrFacts.

Lemma spec_candidate_eq words (k : nat) :
  spec_candidate words (k + 1) = candidate_callsign words k.
Proof.
  unfold spec_candidate, candidate_callsign. rewrite concat_join.
  f_equal. apply list_fmap_ext. intros _ w _. apply take_substring.
Qed.

Lemma spec_maxLen_py_max words (longest : nat) :
  py_max (String.length <$> words) = Some longest →
  spec_maxLen words = longest.
Proof.
  unfold spec_maxLen. destruct words as [|w ws]; [done|].
  csimpl. intros [= <-].
  induction ws as [|w' ws IH]; csimpl; lia.
Qed.

Lemma spec_maxLen_nil : spec_maxLen [] = 0.
Proof. reflexivity. Qed.

Lemma allocator_spec_allocates repo_name existing c :
  _create_new_phabricator_callsign repo_name existing = Ok c ↔
  spec_allocates (name_parts_of repo_name) existing c.
Proof.
  rewrite allocator_Ok. unfold spec_allocates. split.
  - intros (longest & k & Hmax & Hk & -> & Hc & Hlt).
    exists (k + 1). rewrite (spec_maxLen_py_max _ _ Hmax), spec_candidate_eq.
    repeat split; [lia.. | done |].
    intros j Hj. replace j with (j - 1 + 1) by lia.
    rewrite spec_candidate_eq. apply Hlt. lia.
  - intros (prefixLen & Hp & -> & Hc & Hlt).
    destruct (py_max (String.length <$> name_parts_of repo_name))
      as [longest|] eqn:Hmax.
    + rewrite (spec_maxLen_py_max _ _ Hmax) in Hp.
      destruct prefixLen as [|k]; [lia|].
      replace (S k) with (k + 1) in * by lia.
      rewrite spec_candidate_eq in Hc |- *. exists longest, k.
      repeat split; [lia | done |].
      intros j Hj. rewrite <-spec_candidate_eq. apply Hlt. lia.
    + destruct (name_parts_of repo_name); [|done].
      rewrite spec_maxLen_nil in Hp. lia.
Qed.

End AllocatorClaims.

(** C2: whenever the allocator returns a callsign, it is the candidate
    of the smallest prefix length, counted from 1 up to the length of
    the longest remaining word, whose candidate (the first characters of
    each word, joined in order) is not in use, and conversely such a
    candidate is returned; the name Mobile-Apps-Group-Android with no
    callsign in use gives MAA. *)
Theorem allocator_first_unused_candidate :
  (∀ repo_name existing_callsigns c,
     _create_new_phabricator_callsign repo_name existing_callsigns = Ok c ↔
     spec_allocates (name_parts_of repo_name) existing_callsigns c)
  ∧ name_parts_of "Mobile-Apps-Group-Android" = ["MOBILE"; "APPS"; "ANDROID"]
  ∧ _create_new_phabricator_callsign "Mobile-Apps-Group-Android" ∅ = Ok "MAA".
Proof.
  split; [apply allocator_spec_allocates|].
  split; vm_compute; reflexivity.
Qed.

Lemma allocator_first_unused_candidate_witness :
  spec_allocates (name_parts_of "foo-website") {["F"]} "FO".
Proof.
  apply (proj1 allocator_first_unused_candidate "foo-website" {["F"]} "FO").
  vm_compute. reflexivity.
Defined.

(** C3: a callsign returned by the allocator is not one of the callsigns
    in use, is not the empty string and holds capital letters only. *)
Theorem allocator_fresh_capitals repo_name existing_callsigns c :
  _create_new_phabricator_callsign repo_name existing_callsigns = Ok c →
  (c ∉ existing_callsigns) ∧ c ≠ "" ∧ capitals c.
Proof.
  intros (longest & k & Hmax & Hk & -> & Hc & _)%allocator_Ok.
  split; [done|]. split.
  - eapply candidate_callsign_nonempty; [|done].
    by apply py_max_Some in Hmax as [? _].
  - apply candidate_callsign_capitals, name_parts_of_capitals.
Qed.

Lemma allocator_fresh_capitals_witness :
  ("MOAPAN" ∉ ({["MAA"]} : gset string)) ∧ "MOAPAN" ≠ "" ∧ capitals "MOAPAN".
Proof.
  apply (allocator_fresh_capitals "Mobile-Apps-Group-Android" {["MAA"]}).
  vm_compute. reflexivity.
Defined.

(** ** GROUP and WEBSITE *)

Section NoiseWords.

Lemma remove_first_absent x l : x ∉ l → remove_first x l = l.
Proof.
  induction l as [|y l IH]; simpl; [done|].
  intros [Hxy Hl]%not_elem_of_cons. case_decide; [done|]. by rewrite IH.
Qed.

Lemma occurrences_cons x y l :
  occurrences x (y :: l)
  = (if decide (x = y) then 1 else 0) + occurrences x l.
Proof.
  unfold occurrences. rewrite filter_cons. by repeat case_decide.
Qed.

Lemma occurrences_0 x l : occurrences x l = 0 ↔ x ∉ l.
Proof.
  induction l as [|y l IH].
  - split; [intros _ ?%elem_of_nil|]; done.
  - rewrite occurrences_cons, not_elem_of_cons, <-IH.
    case_decide; [split; [lia | tauto] | split; [auto | tauto]].
Qed.

(** [l.remove(x)] takes away one occurrence of [x] and nothing else. *)
Lemma occurrences_remove_first x y l :
  occurrences y (remove_first x l)
  = occurrences y l - (if decide (y = x) then 1 else 0).
Proof.
  induction l as [|z l IH]; simpl; [by case_decide|].
  destruct (decide (x = z)) as [<-|Hxz].
  - rewrite occurrences_cons. destruct (decide (y = x)); lia.
  - rewrite !occurrences_cons, IH.
    destruct (decide (y = z)), (decide (y = x)); subst; try done; lia.
Qed.

Lemma filter_remove_first (P : string → Prop) `{!∀ w, Decision (P w)} x l :
  ¬ P x → filter P (remove_first x l) = filter P l.
Proof.
  intros Hx. induction l as [|y l IH]; simpl; [done|].
  case_decide as Hxy.
  - subst. by rewrite filter_cons_False.
  - by rewrite !filter_cons, IH.
Qed.

Lemma occurrences_guarded_remove x w l :
  occurrences w (if decide (x ∈ l) then remove_first x l else l)
  = occurrences w l - (if decide (w = x) then 1 else 0).
Proof.
  case_decide as Hin; [apply occurrences_remove_first|].
  case_decide; [subst|lia]. apply occurrences_0 in Hin. lia.
Qed.

Lemma name_parts_of_occurrences repo_name w :
  occurrences w (name_parts_of repo_name)
  = occurrences w (raw_name_parts repo_name)
    - (if decide (is_noise w) then 1 else 0).
Proof.
  unfold name_parts_of. cbv zeta. rewrite !occurrences_guarded_remove.
  unfold is_noise.
  destruct (decide (w = "GROUP")), (decide (w = "WEBSITE")), (decide _);
    subst; try done; try lia; tauto.
Qed.

Lemma name_parts_of_keeps_others repo_name :
  filter (fun w => ¬ is_noise w) (name_parts_of repo_name)
  = filter (fun w => ¬ is_noise w) (raw_name_parts repo_name).
Proof.
  unfold name_parts_of. cbv zeta.
  repeat case_decide;
    rewrite ?filter_remove_first; try done; unfold is_noise; tauto.
Qed.

Lemma filter_all (P : string → Prop) `{!∀ w, Decision (P w)} l :
  Forall P l → filter P l = l.
Proof.
  induction 1 as [|y l Hy _ IH]; [done|].
  by rewrite filter_cons_True, IH.
Qed.

(** [l.remove(x)] cuts [l] at the first [x]. *)
Lemma remove_first_split x l :
  x ∈ l →
  ∃ before after,
    l = before ++ x :: after ∧ (x ∉ before)
    ∧ remove_first x l = before ++ after.
Proof.
  induction l as [|y l IH]; [by intros ?%elem_of_nil|].
  intros Hin. simpl. destruct (decide (x = y)) as [<-|Hxy].
  - exists [], l. split_and!; [done | apply not_elem_of_nil | done].
  - apply elem_of_cons in Hin as [?|Hin]; [done|].
    destruct (IH Hin) as (before & after & -> & Hbefore & ->).
    exists (y :: before), after. split_and!; [done | | done].
    by apply not_elem_of_cons.
Qed.

Lemma guarded_remove_without_first x l :
  without_first x l (if decide (x ∈ l) then remove_first x l else l).
Proof.
  case_decide as Hin; [right | by left].
  destruct (remove_first_split x l Hin) as (before & after & ? & ? & ?).
  by exists before, after.
Qed.

(** What is cut out is settled by the list. *)
Lemma without_first_unique x l l1 l2 :
  without_first x l l1 → without_first x l l2 → l1 = l2.
Proof.
  assert (∀ before after, (x ∉ before) →
            x ∈ before ++ x :: after) as Hin.
  { intros. apply elem_of_app. right. left. }
  assert (∀ b1 a1 b2 a2,
            b1 ++ x :: a1 = b2 ++ x :: a2 → (x ∉ b1) → (x ∉ b2) →
            b1 ++ a1 = b2 ++ a2) as Hcut.
  { induction b1 as [|y b1 IH]; intros a1 [|z b2] a2 Heq H1 H2;
      simpl in *.
    - by injection Heq as ->.
    - injection Heq as -> _. destruct H2. left.
    - injection Heq as -> _. destruct H1. left.
    - injection Heq as -> Heq.
      apply not_elem_of_cons in H1 as [_ H1].
      apply not_elem_of_cons in H2 as [_ H2].
      f_equal. by apply IH. }
  intros [[H1 ->]|(b1 & a1 & -> & H1 & ->)]
         [[H2 ->]|(b2 & a2 & Heq & H2 & ->)]; try done.
  - destruct H1. rewrite Heq. by apply Hin.
  - destruct H2. by apply Hin.
  - by eapply Hcut.
Qed.

End NoiseWords.

(** C9, as the code has it: of the words of the name, the first GROUP
    is cut out, then the first WEBSITE, each only when it is there, and
    every other word stays in its place; so one occurrence of each of
    the two words goes and the other words are the same in the same
    order; a returned callsign is built from the list that is left; for
    a name with at most one GROUP and at most one WEBSITE word that
    list has neither left and the callsign is built from the other
    words only; and of the two GROUP words of Group-a-Group it is the
    one behind A that stays. *)
Theorem first_noise_words_removed repo_name :
  let raw := raw_name_parts repo_name in
  let name_parts := name_parts_of repo_name in
  (∃ without_group,
     without_first "GROUP" raw without_group
     ∧ without_first "WEBSITE" without_group name_parts)
  ∧ (∀ name_parts',
       (∃ without_group,
          without_first "GROUP" raw without_group
          ∧ without_first "WEBSITE" without_group name_parts') →
       name_parts' = name_parts)
  ∧ (∀ w, occurrences w name_parts
          = occurrences w raw - (if decide (is_noise w) then 1 else 0))
  ∧ filter (fun w => ¬ is_noise w) name_parts
    = filter (fun w => ¬ is_noise w) raw
  ∧ (∀ existing_callsigns c,
       _create_new_phabricator_callsign repo_name existing_callsigns = Ok c →
       ∃ prefix_len, c = candidate_callsign name_parts prefix_len)
  ∧ (occurrences "GROUP" raw ≤ 1 → occurrences "WEBSITE" raw ≤ 1 →
     noise_free name_parts
     ∧ name_parts = filter (fun w => ¬ is_noise w) raw
     ∧ ∀ existing_callsigns c,
         _create_new_phabricator_callsign repo_name existing_callsigns = Ok c →
         ∃ prefix_len,
           c = candidate_callsign (filter (fun w => ¬ is_noise w) raw)
                 prefix_len)
  ∧ name_parts_of "Group-a-Group" = ["A"; "GROUP"]
  ∧ _create_new_phabricator_callsign "Group-a-Group" ∅ = Ok "AG".
Proof.
  intros raw name_parts.
  assert (∃ without_group,
            without_first "GROUP" raw without_group
            ∧ without_first "WEBSITE" without_group name_parts) as Hcut.
  { eexists. split; [apply guarded_remove_without_first|].
    apply guarded_remove_without_first. }
  split; [done|].
  split.
  { destruct Hcut as (mid & HG & HW). intros parts' (mid' & HG' & HW').
    rewrite (without_first_unique _ _ _ _ HG' HG) in HW'.
    exact (without_first_unique _ _ _ _ HW' HW). }
  split; [intros w; apply name_parts_of_occurrences|].
  split; [apply name_parts_of_keeps_others|].
  split.
  { intros existing c (_ & k & _ & _ & -> & _)%allocator_Ok. by exists k. }
  split; [|split; vm_compute; reflexivity].
  intros HG HW.
  assert (noise_free name_parts) as Hfree.
  { split; apply occurrences_0; unfold name_parts;
      rewrite name_parts_of_occurrences; fold raw;
      (case_decide as Hn; [lia | destruct Hn; unfold is_noise; auto]). }
  assert (name_parts = filter (fun w => ¬ is_noise w) raw) as Heq.
  { unfold raw. rewrite <-name_parts_of_keeps_others. fold name_parts.
    symmetry. apply filter_all, Forall_forall.
    intros w Hw [->| ->]; by destruct Hfree. }
  split; [done|]. split; [done|].
  intros existing c (_ & k & _ & _ & -> & _)%allocator_Ok.
  exists k. by fold name_parts; rewrite Heq.
Qed.

Lemma first_noise_words_removed_witness :
  noise_free (name_parts_of "Mobile-Apps-Group-Android").
Proof.
  refine (proj1 (proj1 (proj2 (proj2 (proj2 (proj2 (proj2
            (first_noise_words_removed "Mobile-Apps-Group-Android"))))))
            _ _));
    vm_compute; lia.
Defined.

(** C9 as stated fails: the name Group-Group keeps one GROUP word, and
    the callsign returned for it is the first letter of that word. *)
Lemma second_group_word_kept :
  ¬ noise_free (name_parts_of "Group-Group")
  ∧ name_parts_of "Group-Group" = ["GROUP"]
  ∧ _create_new_phabricator_callsign "Group-Group" ∅ = Ok "G".
Proof.
  split; [|split; vm_compute; reflexivity].
  intros [HG _]. apply HG. vm_compute. left.
Qed.

(** ** _retry and the query *)

Section RetryFacts.
Context (W : World).

Lemma count_events_app p tr1 tr2 :
  count_events p (tr1 ++ tr2) = count_events p tr1 + count_events p tr2.
Proof. unfold count_events. by rewrite filter_app, length_app. Qed.

Lemma queries_app tr1 tr2 : queries (tr1 ++ tr2) = queries tr1 + queries tr2.
Proof. apply count_events_app. Qed.

Lemma queries_retry_events verbose attempts :
  queries (retry_events verbose attempts) = attempts.
Proof.
  induction attempts as [|[|n] IH]; [done..|].
  change (retry_events verbose (S (S n))) with
    (CallQuery :: (if verbose then [PrintRetrying SocketTimeout] else [])
       ++ retry_events verbose (S n)).
  change (CallQuery :: ?l) with ([CallQuery] ++ l).
  rewrite !queries_app, IH. by destruct verbose.
Qed.

Lemma query_eq s :
  query W s = (repository_query W (queries (trace s)),
               State (url_to_callsign_map s) (trace s ++ [CallQuery])).
Proof. reflexivity. Qed.

Lemma retry_loop_cons {A} (cmd : M A) times verbose exceptions i rest s :
  retry_loop cmd times verbose exceptions (i :: rest) s
  = match cmd s with
    | (Ok a, s') => (Ok (Some a), s')
    | (Raise e, s') =>
        if exceptions e then
          if decide (i + 1 = times) then (Raise e, s')
          else retry_loop cmd times verbose exceptions rest
                 (if verbose
                  then State (url_to_callsign_map s')
                         (trace s' ++ [PrintRetrying e])
                  else s')
        else (Raise e, s')
    end.
Proof.
  simpl. unfold try_except, mbind, M_bind, mret, M_ret.
  destruct (cmd s) as [[a|e] s']; [done|].
  destruct (exceptions e); [|done].
  case_decide; [done|]. by destruct verbose.
Qed.

Lemma retry_loop_query times verbose (n : nat) : ∀ (i : nat) s,
  i + n = times → 0 < n →
  let run := retry_loop (query W) times verbose is_socket_timeout
               (seq i n) s in
  let k := queries (trace s) in
  ∃ attempts : nat,
    1 ≤ attempts ≤ n
    ∧ trace run.2 = trace s ++ retry_events verbose attempts
    ∧ url_to_callsign_map run.2 = url_to_callsign_map s
    ∧ (∀ j : nat, j + 1 < attempts →
         repository_query W (k + j) = Raise SocketTimeout)
    ∧ run.1 = match repository_query W (k + attempts - 1) with
              | Ok info => Ok (Some info)
              | Raise e => Raise e
              end
    ∧ (attempts < n →
         repository_query W (k + attempts - 1) ≠ Raise SocketTimeout).
Proof.
  induction n as [|n IH]; intros i s Htimes Hn; [lia|].
  cbv zeta. rewrite <-cons_seq, retry_loop_cons, query_eq.
  set (k := queries (trace s)).
  assert (k + 1 - 1 = k) as Hk by lia.
  destruct (repository_query W k) as [info|e] eqn:Hout.
  { exists 1. rewrite Hk, Hout. simpl.
    split_and!; try done; try lia; intros; lia. }
  destruct (is_socket_timeout e) eqn:Htimeout.
  2:{ exists 1. rewrite Hk, Hout. simpl.
      split_and!; try done; try lia; try (intros; lia).
      intros _ [= ->]. done. }
  apply bool_decide_eq_true in Htimeout as ->.
  case_decide as Hlast.
  { exists 1. rewrite Hk, Hout. simpl.
    split_and!; try done; try lia; intros; lia. }
  match goal with
  | |- context [retry_loop _ _ _ _ _ ?s1] => set (s1' := s1)
  end.
  destruct (IH (S i) s1') as (a & Ha & Htr & Hmap & Hpre & Hres & Hstop);
    [lia.. |].
  assert (queries (trace s1') = k + 1) as Hk1.
  { subst s1'. destruct verbose; simpl; rewrite !queries_app; done. }
  rewrite Hk1 in Hpre, Hres, Hstop.
  exists (S a). split_and!.
  - lia.
  - lia.
  - rewrite Htr. subst s1'. destruct a as [|a]; [lia|].
    destruct verbose; simpl; by rewrite <-?(assoc_L (++)).
  - rewrite Hmap. subst s1'. by destruct verbose.
  - intros j Hj. destruct j as [|j]; [by rewrite Nat.add_0_r|].
    replace (k + S j) with (k + 1 + j) by lia. apply Hpre. lia.
  - replace (k + S a - 1) with (k + 1 + a - 1) by lia. done.
  - intros Hlt. replace (k + S a - 1) with (k + 1 + a - 1) by lia.
    apply Hstop. lia.
Qed.
Lemma log_nil s : log [] s = s.
Proof. destruct s. unfold log. simpl. by rewrite app_nil_r. Qed.

Lemma log_log evs1 evs2 s : log evs2 (log evs1 s) = log (evs1 ++ evs2) s.
Proof. unfold log. simpl. by rewrite (assoc_L (++)). Qed.

(** The loop over the pages of github: its outcome and its prints. *)
Lemma fetch_github_run verbose pages : ∀ git_api_url git_repo_info s,
  fetch_github verbose git_api_url pages git_repo_info s
  = (git_repo_info_of git_api_url pages git_repo_info,
     log (github_prints verbose git_api_url pages) s).
Proof.
  unfold github_prints.
  induction pages as [e|clone_urls|clone_urls next rest IH];
    intros url acc s; simpl; case_bool_decide;
    try (destruct verbose; by rewrite log_nil);
    unfold mbind, M_bind, when, emit, mret, M_ret, raise;
    destruct verbose; csimpl; rewrite ?log_nil; try done.
  - rewrite IH. unfold log. simpl. by rewrite <-(assoc_L (++)).
  - by rewrite IH, log_nil.
Qed.

Lemma queries_github_prints verbose git_api_url pages :
  queries (github_prints verbose git_api_url pages) = 0.
Proof.
  unfold github_prints. destruct verbose; [|done].
  by induction (fetched_urls git_api_url pages).
Qed.

(** The query phase, step by step. *)
Lemma get_repos_run verbose s :
  _get_repos_to_add_and_delete W verbose s
  = let prints := github_prints verbose git_api_url (github W) in
    match kilnauth_token W with
    | Raise e => (Raise e, s)
    | Ok hg_token =>
    match kiln_get_repos W hg_token verbose verbose with
    | Raise e => (Raise e, s)
    | Ok kiln_repo_info =>
    match git_repo_info_of git_api_url (github W) [] with
    | Raise e => (Raise e, log prints s)
    | Ok git_repo_info =>
    match certificate W with
    | None => (Raise KeyError, log prints s)
    | Some _ =>
    match _retry (query W) 3 verbose is_socket_timeout
            (log (prints ++ if verbose then [PrintFetching] else []) s) with
    | (Raise e, s2) => (Raise e, s2)
    | (Ok None, s2) => (Raise TypeError, s2)
    | (Ok (Some info), s2) =>
        let git_repos : gset string :=
          list_to_set (git_repo_of <$> git_repo_info) in
        let kiln_repos : gset string := list_to_set kiln_repo_info in
        (Ok (repos_to_add_and_delete kiln_repos git_repos
               (phabricator_repos_of info)),
         State (repo_to_callsign_map_of info)
           (trace s2 ++
            if verbose
            then [PrintExisting "git" (sorted git_repos);
                  PrintExisting "hg" (sorted kiln_repos);
                  PrintExisting "phabricator"
                    (sorted (phabricator_repos_of info))]
            else []))
    end end end end end.
Proof.
  cbv zeta.
  unfold _get_repos_to_add_and_delete, mbind, M_bind, mret, M_ret, lift,
    raise.
  destruct (kilnauth_token W) as [hg_token|]; [|done].
  destruct (kiln_get_repos W hg_token verbose verbose)
    as [kiln_repo_info|]; [|done].
  rewrite fetch_github_run.
  destruct (git_repo_info_of _ _ _) as [git_repo_info|]; [|done].
  destruct (certificate W); [|done].
  rewrite <-log_log.
  set (sg := log (github_prints _ _ _) s).
  replace (when verbose (emit PrintFetching) sg)
    with (Ok tt, log (if verbose then [PrintFetching] else []) sg)
    by (destruct verbose; [done | by rewrite log_nil]).
  destruct (_retry _ _ _ _ _) as [[[info|]|] sr]; [|done..].
  unfold set_map, when, emit. destruct verbose; simpl.
  - by rewrite <-!(assoc_L (++)).
  - by rewrite app_nil_r.
Qed.

(** The query phase when the fetches before the query work: the calls
    of the query, and what the phase ends with. *)
Lemma get_repos_query verbose s hg_token kiln_repo_info git_repo_info cert :
  kilnauth_token W = Ok hg_token →
  kiln_get_repos W hg_token verbose verbose = Ok kiln_repo_info →
  git_repo_info_of git_api_url (github W) [] = Ok git_repo_info →
  certificate W = Some cert →
  let k := queries (trace s) in
  let git_repos : gset string :=
    list_to_set (git_repo_of <$> git_repo_info) in
  let kiln_repos : gset string := list_to_set kiln_repo_info in
  let before := github_prints verbose git_api_url (github W)
                ++ if verbose then [PrintFetching] else [] in
  ∃ attempts : nat,
    1 ≤ attempts ≤ 3
    ∧ (∀ j : nat, j + 1 < attempts →
         repository_query W (k + j) = Raise SocketTimeout)
    ∧ (attempts < 3 →
         repository_query W (k + attempts - 1) ≠ Raise SocketTimeout)
    ∧ _get_repos_to_add_and_delete W verbose s
      = match repository_query W (k + attempts - 1) with
        | Ok info =>
            (Ok (repos_to_add_and_delete kiln_repos git_repos
                   (phabricator_repos_of info)),
             State (repo_to_callsign_map_of info)
               (trace s ++ before ++ retry_events verbose attempts ++
                if verbose
                then [PrintExisting "git" (sorted git_repos);
                      PrintExisting "hg" (sorted kiln_repos);
                      PrintExisting "phabricator"
                        (sorted (phabricator_repos_of info))]
                else []))
        | Raise e =>
            (Raise e,
             State (url_to_callsign_map s)
               (trace s ++ before ++ retry_events verbose attempts))
        end.
Proof.
  intros Htoken Hkiln Hgit Hcert. cbv zeta.
  rewrite get_repos_run. cbv zeta. rewrite Htoken, Hkiln, Hgit, Hcert.
  set (before := github_prints _ _ _ ++ _).
  assert (queries (trace (log before s)) = queries (trace s)) as Hk.
  { unfold log. simpl. rewrite queries_app. subst before.
    rewrite queries_app, queries_github_prints.
    assert (queries [PrintFetching] = 0) as Hone by reflexivity.
    assert (queries [] = 0) as Hnil by reflexivity.
    destruct verbose; rewrite ?Hone, ?Hnil; lia. }
  destruct (retry_loop_query 3 verbose 3 0 (log before s))
    as (a & Ha & Htr & Hmap & Hpre & Hres & Hstop); [lia.. |].
  rewrite Hk in Hpre, Hres, Hstop. unfold _retry.
  destruct (retry_loop _ _ _ _ _ _) as [r [m2 tr2]]. simpl in *.
  exists a. split_and!; try done; try lia.
  subst m2 tr2.
  destruct (repository_query W _) as [info|e]; subst r;
    by rewrite <-!(assoc_L (++)).
Qed.

End RetryFacts.

(** ** The sets of repositories to add and to delete *)

(** C1: with the actual repositories being those of kiln and of github
    taken together, the repositories to add are exactly the actual ones
    that phabricator does not track, the repositories to delete are
    exactly the tracked ones that are not actual, and both sets are
    empty when phabricator tracks exactly the actual ones. *)
Theorem repos_to_add_and_delete_differences
    (kiln_repos git_repos phabricator_repos : gset string) :
  let actual_repos := kiln_repos ∪ git_repos in
  let r := repos_to_add_and_delete kiln_repos git_repos phabricator_repos in
  r.1 = actual_repos ∖ phabricator_repos
  ∧ r.2 = phabricator_repos ∖ actual_repos
  ∧ (∀ url, url ∈ r.1 ↔ url ∈ actual_repos ∧ url ∉ phabricator_repos)
  ∧ (∀ url, url ∈ r.2 ↔ url ∈ phabricator_repos ∧ url ∉ actual_repos)
  ∧ repos_to_add_and_delete kiln_repos git_repos actual_repos = (∅, ∅).
Proof.
  unfold repos_to_add_and_delete. simpl. split_and!; try done.
  - intros url. apply elem_of_difference.
  - intros url. apply elem_of_difference.
  - f_equal; apply difference_diag_L.
Qed.

(** ** How the driver runs *)

Section Runs.
Context (W : World).

Lemma add_repository_run repo_rootdir repo_clone_url options s :
  add_repository W repo_rootdir repo_clone_url options s
  = match match_prefix prefix_map repo_clone_url with
    | None => (Raise NameError, s)
    | Some (vcs_type, name) =>
        match _create_new_phabricator_callsign name
                (map_img (url_to_callsign_map s)) with
        | Raise e => (Raise e, s)
        | Ok cs =>
            let destdir := os_path_join repo_rootdir [vcs_type; name] in
            let args := CreateArgs name vcs_type cs repo_clone_url
                          true 60 destdir in
            let s1 := log [PrintAdding name repo_clone_url cs vcs_type
                             destdir] s in
            if dry_run options
            then (Ok tt, State (<[repo_clone_url := cs]>
                                  (url_to_callsign_map s)) (trace s1))
            else match repository_create W (trace s1) args with
                 | None =>
                     (Ok tt, State (<[repo_clone_url := cs]>
                                      (url_to_callsign_map s))
                               (trace s1 ++ [CallCreate args]))
                 | Some e => (Raise e, log [CallCreate args] s1)
                 end
        end
    end.
Proof.
  unfold add_repository, mbind, M_bind, mret, M_ret, raise, lift, get_map,
    set_map, emit, when, create, log.
  destruct (match_prefix _ _) as [[vcs_type name]|]; [|done].
  cbn beta iota.
  destruct (_create_new_phabricator_callsign _ _) as [cs|e]; [|done].
  cbn beta iota zeta.
  destruct (dry_run options); simpl; [done|].
  by destruct (repository_create W _ _).
Qed.

Lemma add_loop_cons repo_rootdir options repo rest num_failures s :
  add_loop W repo_rootdir options (repo :: rest) num_failures s
  = match add_repository W repo_rootdir repo options s with
    | (Ok _, s') => add_loop W repo_rootdir options rest (num_failures + 0) s'
    | (Raise e, s') =>
        if caught_in_main e
        then add_loop W repo_rootdir options rest (num_failures + 1)
               (log [ErrUnableToAdd repo e] s')
        else (Raise e, s')
    end.
Proof.
  simpl. unfold try_except, mbind, M_bind, mret, M_ret, emit, log.
  destruct (add_repository _ _ _ _ _) as [[[]|e] s']; [done|].
  by destruct (caught_in_main e).
Qed.

Lemma delete_repository_run repo_clone_url s :
  delete_repository repo_clone_url s
  = match url_to_callsign_map s !! repo_clone_url with
    | None => (Raise KeyError, s)
    | Some cs => (Ok tt, log [PrintDeleted repo_clone_url cs] s)
    end.
Proof.
  unfold delete_repository, mbind, M_bind, get_map.
  by destruct (_ !! _).
Qed.

Lemma delete_loop_cons repo rest s :
  delete_loop (repo :: rest) s
  = match delete_repository repo s with
    | (Ok _, s') => delete_loop rest s'
    | (Raise e, s') => (Raise e, s')
    end.
Proof. reflexivity. Qed.

End Runs.

(** ** Counting the events of a run *)

Section Counting.
Context (p : event → bool).

Lemma count_events_singleton ev :
  count_events p [ev] = if p ev then 1 else 0.
Proof. unfold count_events. rewrite filter_cons. by destruct (p ev). Qed.

Lemma adds_weaken {A} (n n' : nat) (m : M A) :
  adds_at_most p n m → n ≤ n' → adds_at_most p n' m.
Proof. intros Hm Hn s. specialize (Hm s). lia. Qed.

Lemma adds_ret {A} (a : A) : adds_at_most p 0 (mret a).
Proof. intros s. simpl. lia. Qed.

Lemma adds_raise {A} e : adds_at_most p 0 (raise e : M A).
Proof. intros s. simpl. lia. Qed.

Lemma adds_lift {A} (r : result A) : adds_at_most p 0 (lift r).
Proof. intros s. simpl. lia. Qed.

Lemma adds_get_map : adds_at_most p 0 get_map.
Proof. intros s. simpl. lia. Qed.

Lemma adds_set_map m : adds_at_most p 0 (set_map m).
Proof. intros s. simpl. lia. Qed.

Lemma adds_emit ev : p ev = false → adds_at_most p 0 (emit ev).
Proof.
  intros Hev s. unfold emit. simpl.
  rewrite count_events_app, count_events_singleton, Hev. lia.
Qed.

Lemma adds_bind {A B} (n1 n2 : nat) (m : M A) (f : A → M B) :
  adds_at_most p n1 m → (∀ a, adds_at_most p n2 (f a)) →
  adds_at_most p (n1 + n2) (m ≫= f).
Proof.
  intros Hm Hf s. unfold mbind, M_bind. specialize (Hm s).
  destruct (m s) as [[a|e] s']; simpl in *; [|lia].
  specialize (Hf a s'). lia.
Qed.

Lemma adds_when (n : nat) b (m : M unit) :
  adds_at_most p n m → adds_at_most p n (when b m).
Proof.
  intros Hm. destruct b; [done|].
  eapply adds_weaken; [apply adds_ret | lia].
Qed.

Lemma adds_try_except {A} (n1 n2 : nat) (body : M A) classes handler :
  adds_at_most p n1 body → (∀ e, adds_at_most p n2 (handler e)) →
  adds_at_most p (n1 + n2) (try_except body classes handler).
Proof.
  intros Hm Hh s. unfold try_except. specialize (Hm s).
  destruct (body s) as [[a|e] s']; simpl in *; [lia|].
  destruct (classes e); simpl; [|lia]. specialize (Hh e s'). lia.
Qed.

Lemma count_events_fetching urls :
  (∀ url, p (PrintFetchingUrl url) = false) →
  count_events p (PrintFetchingUrl <$> urls) = 0.
Proof.
  intros Hp. induction urls as [|url urls IH]; [done|]. csimpl.
  change (?ev :: ?l) with ([ev] ++ l).
  by rewrite count_events_app, count_events_singleton, Hp, IH.
Qed.

Lemma adds_fetch_github verbose pages : ∀ git_api_url git_repo_info,
  (∀ url, p (PrintFetchingUrl url) = false) →
  adds_at_most p 0 (fetch_github verbose git_api_url pages git_repo_info).
Proof.
  induction pages as [e|clone_urls|clone_urls next rest IH];
    intros url acc Hp; simpl; case_bool_decide; try apply adds_ret;
    apply (adds_bind 0 0); try (apply adds_when, adds_emit, Hp); intros _.
  - apply adds_raise.
  - apply adds_ret.
  - by apply IH.
Qed.

End Counting.

Ltac adds_step :=
  first
    [ apply adds_ret | apply adds_raise | apply adds_lift
    | apply adds_get_map | apply adds_set_map
    | apply adds_emit; reflexivity
    | apply adds_fetch_github; intros; reflexivity
    | apply adds_when
    | eapply adds_bind; [|intros]
    | eapply adds_try_except; [|intros] ].

Section CountingDriver.
Context (W : World).

Lemma adds_retry_query verbose :
  adds_at_most is_query 3 (_retry (query W) 3 verbose is_socket_timeout).
Proof.
  intros s. unfold _retry.
  destruct (retry_loop_query W 3 verbose 3 0 s) as (a & Ha & Htr & _);
    [lia.. |].
  rewrite Htr, count_events_app.
  fold (queries (retry_events verbose a)).
  rewrite queries_retry_events. lia.
Qed.

Lemma adds_get_repos verbose :
  adds_at_most is_query 3 (_get_repos_to_add_and_delete W verbose).
Proof.
  unfold _get_repos_to_add_and_delete.
  eapply adds_weaken.
  - repeat first [apply adds_retry_query | adds_step
                 | match goal with
                   | |- adds_at_most _ _ (match ?x with _ => _ end) =>
                       destruct x
                   end].
  - simpl. lia.
Qed.

Lemma adds_create_query args : adds_at_most is_query 0 (create W args).
Proof.
  intros s. unfold create.
  destruct (repository_create W _ _); simpl;
    rewrite count_events_app, count_events_singleton; simpl; lia.
Qed.

Ltac adds_auto :=
  repeat first
    [ apply adds_retry_query | apply adds_create_query | adds_step
    | match goal with
      | |- adds_at_most _ _ (match ?x with _ => _ end) => destruct x
      | |- adds_at_most _ _ (let (_, _) := ?x in _) => destruct x
      end ].

Lemma adds_add_repository_query repo_rootdir repo options :
  adds_at_most is_query 0 (add_repository W repo_rootdir repo options).
Proof.
  unfold add_repository.
  eapply adds_weaken; [adds_auto | simpl; lia].
Qed.


Lemma adds_add_loop p repo_rootdir options repos :
  (∀ repo,
     adds_at_most p 0 (add_repository W repo_rootdir repo options)) →
  (∀ repo why, p (ErrUnableToAdd repo why) = false) →
  ∀ num_failures,
    adds_at_most p 0 (add_loop W repo_rootdir options repos num_failures).
Proof.
  intros Hadd Herr.
  induction repos as [|repo rest IH]; intros num_failures; simpl.
  - apply adds_ret.
  - eapply adds_weaken.
    + eapply adds_bind; [|intros; apply IH].
      eapply adds_try_except.
      * eapply adds_bind; [apply Hadd | intros; apply adds_ret].
      * intros. eapply adds_bind; [|intros; apply adds_ret].
        apply adds_emit, Herr.
    + simpl. lia.
Qed.

Lemma adds_delete_loop p repos :
  (∀ url cs, p (PrintDeleted url cs) = false) →
  adds_at_most p 0 (delete_loop repos).
Proof.
  intros Hdel. induction repos as [|repo rest IH]; simpl.
  - apply adds_ret.
  - eapply adds_weaken.
    + eapply adds_bind; [|intros; apply IH].
      unfold delete_repository.
      eapply adds_bind; [apply adds_get_map|].
      intros m. destruct (m !! repo); [apply adds_emit, Hdel|].
      apply adds_raise.
    + simpl. lia.
Qed.

Lemma adds_main_query repo_rootdir options :
  adds_at_most is_query 3 (main W repo_rootdir options).
Proof.
  unfold main. eapply adds_weaken.
  - repeat first
      [ apply adds_get_repos
      | apply adds_add_loop;
          [intros; apply adds_add_repository_query | done]
      | apply adds_delete_loop; done
      | adds_step
      | match goal with
        | |- adds_at_most _ _ (let (_, _) := ?x in _) => destruct x
        end ].
  - simpl. lia.
Qed.



Lemma adds_retry_loop {A} p (cmd : M A) times verbose exceptions idxs :
  adds_at_most p 0 cmd → (∀ why, p (PrintRetrying why) = false) →
  adds_at_most p 0 (retry_loop cmd times verbose exceptions idxs).
Proof.
  intros Hcmd Hprint. induction idxs as [|i rest IH]; simpl.
  - apply adds_ret.
  - apply (adds_try_except p 0 0).
    + apply (adds_bind p 0 0); [apply Hcmd | intros; apply adds_ret].
    + intros why. case_decide; [apply adds_raise|].
      apply (adds_bind p 0 0); [|intros; apply IH].
      apply adds_when, adds_emit, Hprint.
Qed.



End CountingDriver.

(** ** The dict and the repositories to delete *)

Set Warnings "-clear-no-such-hyp".

Section Dict.
Context (W : World).

Lemma dom_foldl_insert (info : list phab_repo) (m : gmap string string) :
  dom (foldl (fun m r => <[remoteURI r := callsign r]> m) m info)
  = dom m ∪ phabricator_repos_of info.
Proof.
  unfold phabricator_repos_of.
  revert m; induction info as [|r info IH]; intros m; csimpl.
  - set_solver.
  - rewrite IH, dom_insert_L. set_solver.
Qed.

(** The keys of the dict are the tracked clone-urls. *)
Lemma dom_repo_to_callsign_map_of info :
  dom (repo_to_callsign_map_of info) = phabricator_repos_of info.
Proof.
  unfold repo_to_callsign_map_of.
  rewrite dom_foldl_insert, dom_empty_L. set_solver.
Qed.

Lemma get_repos_Ok verbose s new_repos deleted_repos s' :
  _get_repos_to_add_and_delete W verbose s
  = (Ok (new_repos, deleted_repos), s') →
  ∃ kiln_repo_info git_repo_info phabricator_repo_info,
    (new_repos, deleted_repos)
    = repos_to_add_and_delete (list_to_set kiln_repo_info)
        (list_to_set (git_repo_of <$> git_repo_info))
        (phabricator_repos_of phabricator_repo_info)
    ∧ url_to_callsign_map s'
      = repo_to_callsign_map_of phabricator_repo_info.
Proof.
  unfold _get_repos_to_add_and_delete, mbind, M_bind, mret, M_ret, lift,
    raise.
  destruct (kilnauth_token W) as [hg_token|]; [|done].
  destruct (kiln_get_repos W hg_token verbose verbose)
    as [kiln_repo_info|]; [|done].
  destruct (fetch_github _ _ _ _ s) as [[git_repo_info|] sg]; [|done].
  destruct (certificate W); [|done].
  destruct (when verbose (emit PrintFetching) sg) as [[[]|] sq]; [|done].
  destruct (_retry _ _ _ _ sq) as [[[info|]|] sr]; [|done..].
  intros Hrun. exists kiln_repo_info, git_repo_info, info.
  unfold set_map, when, emit in Hrun. destruct verbose; simpl in Hrun;
    injection Hrun as <- <- <-; done.
Qed.

Lemma add_repository_dom repo_rootdir repo options s :
  dom (url_to_callsign_map s)
  ⊆ dom (url_to_callsign_map (add_repository W repo_rootdir repo options s).2).
Proof.
  rewrite add_repository_run.
  destruct (match_prefix _ _) as [[vcs_type name]|]; [|done].
  destruct (_create_new_phabricator_callsign _ _) as [cs|]; [|done].
  cbv zeta. destruct (dry_run options); simpl.
  - rewrite dom_insert_L. set_solver.
  - destruct (repository_create W _ _); simpl; [done|].
    rewrite dom_insert_L. set_solver.
Qed.

Lemma add_loop_dom repo_rootdir options repos : ∀ num_failures s,
  dom (url_to_callsign_map s)
  ⊆ dom (url_to_callsign_map
           (add_loop W repo_rootdir options repos num_failures s).2).
Proof.
  induction repos as [|repo rest IH]; intros num_failures s; [done|].
  rewrite add_loop_cons.
  pose proof (add_repository_dom repo_rootdir repo options s) as Hadd.
  destruct (add_repository _ _ _ _ _) as [[[]|e] s1]; simpl in Hadd.
  - etrans; [exact Hadd | apply IH].
  - destruct (caught_in_main e); [|done].
    etrans; [exact Hadd | apply (IH _ (log _ s1))].
Qed.

(** With every url a key of the dict, the delete loop prints one line
    for each of them and leaves the dict as it is. *)
Lemma delete_loop_Ok repos : ∀ s,
  Forall (fun url => url ∈ dom (url_to_callsign_map s)) repos →
  ∃ evs, delete_loop repos s = (Ok tt, log evs s)
         ∧ length evs = length repos.
Proof.
  induction repos as [|repo rest IH]; intros s Hkeys.
  - exists []. unfold log. rewrite app_nil_r. by destruct s.
  - apply Forall_cons in Hkeys as [Hrepo Hrest].
    rewrite delete_loop_cons, delete_repository_run.
    apply elem_of_dom in Hrepo as [cs ->].
    destruct (IH (log [PrintDeleted repo cs] s)) as (evs & -> & Hlen);
      [done|].
    exists (PrintDeleted repo cs :: evs). split; [|by simpl; rewrite Hlen].
    unfold log. simpl. by rewrite <-(assoc_L (++)).
Qed.

Lemma main_run repo_rootdir options s :
  main W repo_rootdir options s
  = let s0 := if verbose options
              then log [PrintStart] (log [PrintBlank] s) else s in
    match _get_repos_to_add_and_delete W (verbose options) s0 with
    | (Raise e, s1) => (Raise e, s1)
    | (Ok (new_repos, deleted_repos), s1) =>
        let s2 := if verbose options
                  then log [PrintAddingCount (size new_repos)] s1 else s1 in
        match add_loop W repo_rootdir options (sorted new_repos) 0 s2 with
        | (Raise e, s3) => (Raise e, s3)
        | (Ok num_failures, s3) =>
            let s4 := if verbose options
                      then log [PrintRemovingCount (size deleted_repos)] s3
                      else s3 in
            match delete_loop (sorted deleted_repos) s4 with
            | (Raise e, s5) => (Raise e, s5)
            | (Ok _, s5) =>
                (Ok num_failures,
                 if verbose options then log [PrintDone] s5 else s5)
            end
        end
    end.
Proof.
  unfold main, mbind, M_bind, mret, M_ret, when, emit, log.
  destruct (verbose options); simpl.
  - destruct (_get_repos_to_add_and_delete _ _ _)
      as [[[new_repos deleted_repos]|] s1]; [|done].
    destruct (add_loop _ _ _ _ _ _) as [[n|] s3]; [|done].
    by destruct (delete_loop _ _) as [[[]|] s5].
  - destruct (_get_repos_to_add_and_delete _ _ _)
      as [[[new_repos deleted_repos]|] s1]; [|done].
    destruct (add_loop _ _ _ _ _ _) as [[n|] s3]; [|done].
    by destruct (delete_loop _ _) as [[[]|] s5].
Qed.

End Dict.

Lemma sorted_Permutation (xs : gset string) : sorted xs ≡ₚ elements xs.
Proof. apply merge_sort_Permutation. Qed.

Lemma elem_of_sorted (xs : gset string) url : url ∈ sorted xs ↔ url ∈ xs.
Proof. by rewrite sorted_Permutation, elem_of_elements. Qed.

Lemma length_sorted (xs : gset string) : length (sorted xs) = size xs.
Proof. by rewrite sorted_Permutation. Qed.

(** C10: when the query phase returns, the keys of the dict are the
    tracked clone-urls and every repository to delete is one of them;
    the add loop only adds keys, so the delete loop that comes after it
    finds a callsign for each url, prints one line per url and raises
    nothing; hence [main] returns the count of the add loop whenever
    the query phase and the add loop go through. *)
Theorem deleted_repos_are_keys W :
  (∀ verbose s new_repos deleted_repos s1,
     _get_repos_to_add_and_delete W verbose s
     = (Ok (new_repos, deleted_repos), s1) →
     (∃ phabricator_repo_info,
        dom (url_to_callsign_map s1)
        = phabricator_repos_of phabricator_repo_info
        ∧ deleted_repos ⊆ phabricator_repos_of phabricator_repo_info)
     ∧ ∀ repo_rootdir options repos num_failures s2 s4,
         url_to_callsign_map s2 = url_to_callsign_map s1 →
         url_to_callsign_map s4
         = url_to_callsign_map
             (add_loop W repo_rootdir options repos num_failures s2).2 →
         ∃ evs, delete_loop (sorted deleted_repos) s4 = (Ok tt, log evs s4)
                ∧ length evs = size deleted_repos)
  ∧ (∀ repo_rootdir options s new_repos deleted_repos s1 num_failures s3,
       let s0 := if verbose options
                 then log [PrintStart] (log [PrintBlank] s) else s in
       let s2 := if verbose options
                 then log [PrintAddingCount (size new_repos)] s1 else s1 in
       _get_repos_to_add_and_delete W (verbose options) s0
       = (Ok (new_repos, deleted_repos), s1) →
       add_loop W repo_rootdir options (sorted new_repos) 0 s2
       = (Ok num_failures, s3) →
       (main W repo_rootdir options s).1 = Ok num_failures).
Proof.
  assert (∀ verbose s new_repos deleted_repos s1,
    _get_repos_to_add_and_delete W verbose s
    = (Ok (new_repos, deleted_repos), s1) →
    ∀ repo_rootdir options repos num_failures s2 s4,
      url_to_callsign_map s2 = url_to_callsign_map s1 →
      url_to_callsign_map s4
      = url_to_callsign_map
          (add_loop W repo_rootdir options repos num_failures s2).2 →
      ∃ evs, delete_loop (sorted deleted_repos) s4 = (Ok tt, log evs s4)
             ∧ length evs = size deleted_repos) as Hdel.
  { intros verbose s new_repos deleted_repos s1 Hget
      repo_rootdir options repos num_failures s2 s4 Hs2 Hs4.
    apply get_repos_Ok in Hget as (kiln & git & info & Hsets & Hmap).
    injection Hsets as _ ->.
    rewrite <-length_sorted. apply delete_loop_Ok, Forall_forall.
    intros url Hurl%elem_of_sorted. rewrite Hs4.
    apply (add_loop_dom W repo_rootdir options repos num_failures s2).
    rewrite Hs2, Hmap, dom_repo_to_callsign_map_of.
    by apply elem_of_difference in Hurl as [? _]. }
  split.
  - intros verbose s new_repos deleted_repos s1 Hget.
    split; [|by eapply Hdel].
    apply get_repos_Ok in Hget as (kiln & git & info & Hsets & Hmap).
    injection Hsets as _ ->. exists info.
    rewrite Hmap, dom_repo_to_callsign_map_of. split; [done|].
    intros url Hurl. by apply elem_of_difference in Hurl as [? _].
  - intros repo_rootdir options s new_repos deleted_repos s1 n s3 s0 s2
      Hget Hadd.
    assert (url_to_callsign_map s2 = url_to_callsign_map s1) as Hs2
      by (subst s2; by destruct (verbose options)).
    rewrite main_run. cbv zeta. fold s0. rewrite Hget. fold s2. rewrite Hadd.
    match goal with
    | |- context [delete_loop _ ?s] => set (s4 := s)
    end.
    destruct (Hdel _ _ _ _ _ Hget repo_rootdir options (sorted new_repos) 0
                s2 s4 Hs2) as (evs & -> & _); [|done].
    rewrite Hadd. subst s4. by destruct (verbose options).
Qed.

Lemma deleted_repos_are_keys_witness :
  ∃ phabricator_repo_info,
    dom (url_to_callsign_map
           (_get_repos_to_add_and_delete (github_world [] [old_repo] (fun _ => None))
              false initial_state).2)
    = phabricator_repos_of phabricator_repo_info
    ∧ ({["https://github.com/Khan/old"]} : gset string)
      ⊆ phabricator_repos_of phabricator_repo_info.
Proof.
  refine (proj1 (proj1 (deleted_repos_are_keys
                          (github_world [] [old_repo] (fun _ => None)))
                   false initial_state ∅ {["https://github.com/Khan/old"]}
                   _ _)).
  vm_compute. reflexivity.
Defined.

(** ** Failures of single repositories *)

Section Failures.
Context (W : World).

Lemma allocator_no_word repo_name existing :
  name_parts_of repo_name = [] →
  _create_new_phabricator_callsign repo_name existing = Raise ValueError.
Proof.
  intros Hparts. unfold _create_new_phabricator_callsign. by rewrite Hparts.
Qed.

Lemma allocator_empty_words repo_name existing :
  name_parts_of repo_name ≠ [] →
  Forall (fun w => w = "") (name_parts_of repo_name) →
  _create_new_phabricator_callsign repo_name existing = Raise NameError.
Proof.
  intros Hne Hempty. unfold _create_new_phabricator_callsign.
  destruct (py_max _) as [longest|] eqn:Hmax.
  - apply py_max_Some in Hmax as [(w & -> & Hw)%list_elem_of_fmap _].
    rewrite Forall_forall in Hempty. by rewrite (Hempty w Hw).
  - by destruct (name_parts_of repo_name).
Qed.

(** What [add_repository] does to the count of the stderr lines. *)
Lemma add_repository_failures repo_rootdir repo options s :
  count_events is_failure
    (trace (add_repository W repo_rootdir repo options s).2)
  = count_events is_failure (trace s).
Proof.
  rewrite add_repository_run.
  destruct (match_prefix _ _) as [[vcs_type name]|]; [|done].
  destruct (_create_new_phabricator_callsign _ _) as [cs|]; [|done].
  cbv zeta. destruct (dry_run options); simpl.
  - rewrite count_events_app, count_events_singleton. simpl. lia.
  - destruct (repository_create W _ _); simpl;
      rewrite !count_events_app, !count_events_singleton; simpl; lia.
Qed.

(** The add loop goes on after an APIError or a NameError and counts it;
    it stops at any other exception. *)
Lemma add_loop_counts_failures repo_rootdir options repos :
  ∀ (num_failures : nat) s,
    let run := add_loop W repo_rootdir options repos num_failures s in
    match run.1 with
    | Ok total =>
        count_events is_failure (trace run.2) + num_failures
        = count_events is_failure (trace s) + total
    | Raise e => caught_in_main e = false
    end.
Proof.
  induction repos as [|repo rest IH]; intros n s; [simpl; lia|].
  cbv zeta. rewrite add_loop_cons.
  pose proof (add_repository_failures repo_rootdir repo options s) as Hadd.
  destruct (add_repository _ _ _ _ _) as [[[]|e] s1]; simpl in Hadd.
  - specialize (IH (n + 0) s1). cbv zeta in IH.
    destruct (add_loop _ _ _ _ _ _) as [[total|] s2]; simpl in *; [lia|done].
  - destruct (caught_in_main e) eqn:Hcaught; [|done].
    specialize (IH (n + 1) (log [ErrUnableToAdd repo e] s1)).
    cbv zeta in IH.
    destruct (add_loop _ _ _ _ _ _) as [[total|] s2]; simpl in *; [|done].
    rewrite count_events_app, count_events_singleton in IH. simpl in IH. lia.
Qed.

End Failures.

(** C8, where the code goes wrong: a name made of nothing but GROUP
    has its only word taken out, [max] of no length at all raises
    ValueError and not the NameError of the allocator, [main] does not
    catch it and the run ends with this exception; a name of digits
    keeps one empty word and gets the NameError that is caught. *)
Theorem noise_only_name_not_caught :
  name_parts_of "Group" = []
  ∧ _create_new_phabricator_callsign "Group" ∅ = Raise ValueError
  ∧ caught_in_main ValueError = false
  ∧ (main (github_world ["https://github.com/Khan/Group"] [] (fun _ => None))
       "/repos" quiet initial_state).1 = Raise ValueError
  ∧ name_parts_of "2048" = [""]
  ∧ _create_new_phabricator_callsign "2048" ∅ = Raise NameError
  ∧ (main (github_world ["https://github.com/Khan/2048"] [] (fun _ => None))
       "/repos" quiet initial_state).1 = Ok 1.
Proof. split_and!; vm_compute; reflexivity. Qed.

(** C4, where the code goes wrong: with Group and zebra to add, the
    allocation for Group raises ValueError, the run ends there without
    a count and zebra is never looked at; had the first url been of an
    unknown host, the NameError would have been counted and zebra
    added. *)
Theorem allocation_failure_ends_the_run :
  let run := main group_and_zebra "/repos" quiet initial_state in
  let other := main unknown_and_zebra "/repos" quiet initial_state in
  run.1 = Raise ValueError
  ∧ trace run.2 = [CallQuery]
  ∧ url_to_callsign_map run.2 = ∅
  ∧ other.1 = Ok 1
  ∧ trace other.2
    = [CallQuery;
       ErrUnableToAdd "https://example.org/Group" NameError;
       PrintAdding "zebra" "https://github.com/Khan/zebra" "Z" "git"
         "/repos/git/zebra";
       CallCreate (CreateArgs "zebra" "git" "Z"
                     "https://github.com/Khan/zebra" true 60
                     "/repos/git/zebra")]
  ∧ url_to_callsign_map other.2 = {["https://github.com/Khan/zebra" := "Z"]}.
Proof. split_and!; vm_compute; reflexivity. Qed.

(** ** Dry runs *)

Section DryRun.
Context (W : World).
























End DryRun.



(** ** The order of the add loop *)

Section Order.
Context (W : World).

Lemma sorted_StronglySorted (xs : gset string) :
  StronglySorted String.le (sorted xs).
Proof. apply StronglySorted_merge_sort; apply _. Qed.

Lemma sorted_NoDup (xs : gset string) : NoDup (sorted xs).
Proof. rewrite sorted_Permutation. apply NoDup_elements. Qed.

(** The order does not depend on how the set is gone through. *)
Lemma sorted_any_order (xs : gset string) l :
  l ≡ₚ elements xs → merge_sort String.le l = sorted xs.
Proof.
  intros Hl. apply (StronglySorted_unique String.le).
  - apply StronglySorted_merge_sort; apply _.
  - apply sorted_StronglySorted.
  - by rewrite merge_sort_Permutation, sorted_Permutation.
Qed.

Lemma added_urls_app tr1 tr2 :
  added_urls (tr1 ++ tr2) = added_urls tr1 ++ added_urls tr2.
Proof. apply omap_app. Qed.

Lemma StronglySorted_all_same (l : list string) x :
  (∀ y, y ∈ l → y = x) → StronglySorted String.le l.
Proof.
  induction l as [|y l IH]; intros Hall; constructor.
  - apply IH. intros z Hz. apply Hall. by right.
  - apply Forall_forall. intros z Hz.
    rewrite (Hall y), (Hall z); [done | by right | left].
Qed.

(** The events of [add_repository] are about its repository. *)
Lemma add_repository_events repo_rootdir repo options s :
  let run := add_repository W repo_rootdir repo options s in
  ∃ evs, trace run.2 = trace s ++ evs
         ∧ (∀ url, url ∈ added_urls evs → url = repo)
         ∧ (run.1 = Ok tt → repo ∈ added_urls evs).
Proof.
  cbv zeta. rewrite add_repository_run.
  destruct (match_prefix _ _) as [[vcs_type name]|].
  2:{ exists []. rewrite app_nil_r. split_and!; [done | | done].
      by intros url ?%elem_of_nil. }
  destruct (_create_new_phabricator_callsign _ _) as [cs|].
  2:{ exists []. rewrite app_nil_r. split_and!; [done | | done].
      by intros url ?%elem_of_nil. }
  cbv zeta. destruct (dry_run options); simpl.
  - eexists [_]. split_and!; [done | |]; simpl.
    + by intros url ->%list_elem_of_singleton.
    + intros _. left.
  - destruct (repository_create W _ _); simpl.
    + eexists [_; _]. rewrite <-(assoc_L (++)). split_and!; [done | | done].
      simpl. intros url Hurl.
      apply elem_of_cons in Hurl as [-> | ->%list_elem_of_singleton]; done.
    + eexists [_; _]. rewrite <-(assoc_L (++)). split_and!; [done | |]; simpl.
      * intros url Hurl.
        apply elem_of_cons in Hurl as [-> | ->%list_elem_of_singleton]; done.
      * intros _. left.
Qed.

Lemma add_loop_events repo_rootdir options repos : ∀ num_failures s,
  let run := add_loop W repo_rootdir options repos num_failures s in
  ∃ evs, trace run.2 = trace s ++ evs
         ∧ (StronglySorted String.le repos →
            StronglySorted String.le (added_urls evs))
         ∧ (∀ url, url ∈ added_urls evs → url ∈ repos)
         ∧ (∀ total, run.1 = Ok total →
                     ∀ url, url ∈ repos → url ∈ added_urls evs).
Proof.
  induction repos as [|repo rest IH]; intros n s; cbv zeta.
  { exists []. simpl. rewrite app_nil_r. by split_and!. }
  rewrite add_loop_cons.
  destruct (add_repository_events repo_rootdir repo options s)
    as (evs1 & Htr1 & Hurls1 & Hok1).
  destruct (add_repository _ _ _ _ _) as [[[]|e] s1]; simpl in Htr1, Hok1.
  - destruct (IH (n + 0) s1) as (evs2 & Htr2 & Hsorted2 & Hurls2 & Hok2).
    exists (evs1 ++ evs2). rewrite Htr2, Htr1, added_urls_app.
    split_and!.
    + by rewrite (assoc_L (++)).
    + intros [Hle Hrest]%StronglySorted_cons. apply StronglySorted_app_2.
      * intros url1 url2 ->%Hurls1 Hurl2%Hurls2.
        rewrite Forall_forall in Hle. by apply Hle.
      * by eapply StronglySorted_all_same.
      * by apply Hsorted2.
    + intros url [->%Hurls1|?%Hurls2]%elem_of_app; [left | by right].
    + intros total Htotal url [->|Hurl]%elem_of_cons; apply elem_of_app.
      * left. by apply Hok1.
      * right. by eapply Hok2.
  - destruct (caught_in_main e).
    + destruct (IH (n + 1) (log [ErrUnableToAdd repo e] s1))
        as (evs2 & Htr2 & Hsorted2 & Hurls2 & Hok2).
      assert (∀ url, url ∈ added_urls (evs1 ++ [ErrUnableToAdd repo e]) →
                     url = repo) as Hurls1'.
      { intros url. rewrite added_urls_app. simpl.
        intros [?%Hurls1| ->%list_elem_of_singleton]%elem_of_app; done. }
      exists ((evs1 ++ [ErrUnableToAdd repo e]) ++ evs2).
      rewrite Htr2. simpl. rewrite Htr1, (added_urls_app (_ ++ _)).
      split_and!.
      * by rewrite !(assoc_L (++)).
      * intros [Hle Hrest]%StronglySorted_cons. apply StronglySorted_app_2.
        -- intros url1 url2 ->%Hurls1' Hurl2%Hurls2.
           rewrite Forall_forall in Hle. by apply Hle.
        -- by eapply StronglySorted_all_same.
        -- by apply Hsorted2.
      * intros url [->%Hurls1'|?%Hurls2]%elem_of_app; [left | by right].
      * intros total Htotal url [->|Hurl]%elem_of_cons; apply elem_of_app.
        -- left. rewrite added_urls_app. apply elem_of_app. right. left.
        -- right. by eapply Hok2.
    + exists evs1. simpl. split_and!; try done.
      * intros _. by eapply StronglySorted_all_same.
      * intros url ->%Hurls1. left.
Qed.

Lemma add_repository_dict repo_rootdir repo options s :
  let m := url_to_callsign_map s in
  let m' :=
    url_to_callsign_map (add_repository W repo_rootdir repo options s).2 in
  m' = m
  ∨ ∃ vcs_type name cs,
      match_prefix prefix_map repo = Some (vcs_type, name)
      ∧ _create_new_phabricator_callsign name (map_img m) = Ok cs
      ∧ m' = <[repo := cs]> m.
Proof.
  cbv zeta. rewrite add_repository_run.
  destruct (match_prefix _ _) as [[vcs_type name]|]; [|by left].
  destruct (_create_new_phabricator_callsign _ _) as [cs|] eqn:Hcs;
    [|by left].
  cbv zeta. destruct (dry_run options); simpl.
  - right. by exists vcs_type, name, cs.
  - destruct (repository_create W _ _); simpl; [by left|].
    right. by exists vcs_type, name, cs.
Qed.

Lemma add_loop_dict_steps repo_rootdir options repos : ∀ num_failures s,
  dict_steps repos (url_to_callsign_map s)
    (url_to_callsign_map
       (add_loop W repo_rootdir options repos num_failures s).2).
Proof.
  induction repos as [|repo rest IH]; intros n s; [apply dict_stop|].
  rewrite add_loop_cons.
  pose proof (add_repository_dict repo_rootdir repo options s) as Hadd.
  cbv zeta in Hadd.
  destruct (add_repository _ _ _ _ _) as [[[]|e] s1]; simpl in Hadd.
  - specialize (IH (n + 0) s1).
    destruct Hadd as [<-|(vcs_type & name & cs & Hprefix & Hcs & Hm)].
    + by apply dict_skip.
    + eapply dict_add; [done.. |]. by rewrite <-Hm.
  - assert (dict_steps (repo :: rest) (url_to_callsign_map s)
              (url_to_callsign_map s1)) as Hstop.
    { destruct Hadd as [->|(vcs_type & name & cs & Hprefix & Hcs & ->)].
      - apply dict_stop.
      - eapply dict_add; [done.. |]. apply dict_stop. }
    destruct (caught_in_main e); [|done].
    specialize (IH (n + 1) (log [ErrUnableToAdd repo e] s1)). simpl in IH.
    destruct Hadd as [<-|(vcs_type & name & cs & Hprefix & Hcs & Hm)].
    + by apply dict_skip.
    + eapply dict_add; [done.. |]. by rewrite <-Hm.
Qed.

End Order.

Section DictSteps.

Implicit Types m : gmap string string.

Lemma dict_steps_facts repos m m' :
  dict_steps repos m m' → NoDup repos →
  (∀ url, url ∈ repos → m !! url = None) →
  m ⊆ m'
  ∧ (∀ url, url ∉ repos → m' !! url = m !! url)
  ∧ (∀ url cs, url ∈ repos → m' !! url = Some cs →
       ∃ m0 vcs_type name,
         m ⊆ m0
         ∧ match_prefix prefix_map url = Some (vcs_type, name)
         ∧ _create_new_phabricator_callsign name (map_img m0) = Ok cs).
Proof.
  induction 1 as [repos m|repo rest m m' Hsteps IH
                 |repo rest m m' vcs_type name cs Hprefix Hcs Hsteps IH];
    intros Hnodup Hfresh.
  - split_and!; [done..|]. intros url cs Hurl Hcs.
    rewrite (Hfresh url Hurl) in Hcs. done.
  - apply NoDup_cons in Hnodup as [Hrepo Hnodup].
    destruct IH as (Hsub & Hother & Hin);
      [done | intros; apply Hfresh; by right |].
    split_and!; [done | |].
    + intros url [_ ?]%not_elem_of_cons. by apply Hother.
    + intros url cs [->|Hurl]%elem_of_cons Hcs; [|by eapply Hin].
      rewrite (Hother repo Hrepo), Hfresh in Hcs; [done | left].
  - apply NoDup_cons in Hnodup as [Hrepo Hnodup].
    assert (m ⊆ <[repo:=cs]> m) as Hins.
    { apply insert_subseteq, Hfresh. left. }
    destruct IH as (Hsub & Hother & Hin); [done| |].
    { intros url Hurl. rewrite lookup_insert_ne by (by intros ->).
      apply Hfresh. by right. }
    split_and!.
    + by etrans.
    + intros url [Hne ?]%not_elem_of_cons.
      rewrite Hother by done. by rewrite lookup_insert_ne.
    + intros url cs' [->|Hurl]%elem_of_cons Hcs'.
      * rewrite (Hother repo Hrepo), lookup_insert_eq in Hcs'.
        injection Hcs' as <-. by exists m, vcs_type, name.
      * destruct (Hin url cs' Hurl Hcs') as (m0 & v & n & Hm0 & ? & ?).
        exists m0, v, n. split_and!; [by etrans | done..].
Qed.

(** Of two repositories that both got a callsign, the one that comes
    first in the sorted list was allocated first: the dict of its
    allocation is part of the dict of the other one, which holds its
    callsign. *)
Lemma dict_steps_pair repos m m' :
  dict_steps repos m m' → NoDup repos → StronglySorted String.le repos →
  (∀ url, url ∈ repos → m !! url = None) →
  ∀ url1 url2 cs1 cs2,
    url1 ∈ repos → url2 ∈ repos → String.le url1 url2 → url1 ≠ url2 →
    m' !! url1 = Some cs1 → m' !! url2 = Some cs2 →
    ∃ m1 m2 vcs1 name1 vcs2 name2,
      m1 ⊆ m2 ∧ m2 !! url1 = Some cs1
      ∧ match_prefix prefix_map url1 = Some (vcs1, name1)
      ∧ match_prefix prefix_map url2 = Some (vcs2, name2)
      ∧ _create_new_phabricator_callsign name1 (map_img m1) = Ok cs1
      ∧ _create_new_phabricator_callsign name2 (map_img m2) = Ok cs2.
Proof.
  induction 1 as [repos m|repo rest m m' Hsteps IH
                 |repo rest m m' vcs_type name cs Hprefix Hcs Hsteps IH];
    intros Hnodup Hsorted Hfresh url1 url2 cs1 cs2 Hurl1 Hurl2 Hle Hne
      Hcs1 Hcs2.
  - rewrite (Hfresh url1 Hurl1) in Hcs1. done.
  - apply NoDup_cons in Hnodup as [Hrepo Hnodup].
    apply StronglySorted_cons in Hsorted as [_ Hsorted].
    destruct (dict_steps_facts _ _ _ Hsteps Hnodup) as (_ & Hother & _);
      [intros; apply Hfresh; by right|].
    assert (m' !! repo = None) as Hnone.
    { rewrite (Hother repo Hrepo). apply Hfresh. left. }
    apply elem_of_cons in Hurl1 as [->|Hurl1]; [congruence|].
    apply elem_of_cons in Hurl2 as [->|Hurl2]; [congruence|].
    apply IH; try done. intros; apply Hfresh; by right.
  - apply NoDup_cons in Hnodup as [Hrepo Hnodup].
    apply StronglySorted_cons in Hsorted as [Hfirst Hsorted].
    assert (∀ url, url ∈ rest → <[repo:=cs]> m !! url = None) as Hfresh'.
    { intros url Hurl. rewrite lookup_insert_ne by (by intros ->).
      apply Hfresh. by right. }
    destruct (dict_steps_facts _ _ _ Hsteps Hnodup Hfresh')
      as (Hsub & Hother & Hin).
    apply elem_of_cons in Hurl1 as [->|Hurl1];
      apply elem_of_cons in Hurl2 as [->|Hurl2].
    + done.
    + rewrite (Hother repo Hrepo), lookup_insert_eq in Hcs1.
      injection Hcs1 as <-.
      destruct (Hin url2 cs2 Hurl2 Hcs2) as (m2 & vcs2 & name2 & Hm2 & ? & ?).
      exists m, m2, vcs_type, name, vcs2, name2. split_and!; try done.
      * etrans; [|exact Hm2]. apply insert_subseteq, Hfresh. left.
      * eapply lookup_weaken; [|exact Hm2]. apply lookup_insert_eq.
    + rewrite Forall_forall in Hfirst. specialize (Hfirst url1 Hurl1).
      destruct Hne. by apply (anti_symm String.le).
    + by apply IH.
Qed.

(** The second of two allocations for names with the same words: its
    dict holds the callsign of the first and all the callsigns that
    were in the way of the first, so its prefix is longer. *)
Lemma later_allocation_longer name1 name2 (m1 m2 : gmap string string)
    url1 cs1 cs2 :
  name_parts_of name1 = name_parts_of name2 →
  m1 ⊆ m2 → m2 !! url1 = Some cs1 →
  _create_new_phabricator_callsign name1 (map_img m1) = Ok cs1 →
  _create_new_phabricator_callsign name2 (map_img m2) = Ok cs2 →
  ∃ k1 k2 : nat,
    k1 < k2
    ∧ cs1 = candidate_callsign (name_parts_of name1) k1
    ∧ cs2 = candidate_callsign (name_parts_of name1) k2
    ∧ String.length cs1 < String.length cs2.
Proof.
  intros Hparts Hsub Hcs1
    (longest1 & k1 & Hmax1 & Hk1 & -> & Hfree1 & Hused1)%allocator_Ok
    (longest2 & k2 & Hmax2 & Hk2 & -> & Hfree2 & Hused2)%allocator_Ok.
  rewrite <-Hparts in *. simplify_eq.
  assert (map_img m1 ⊆ (map_img m2 : gset string)) as Himg
    by by apply map_subseteq_img.
  assert (k1 < k2) as Hlt.
  { destruct (Nat.lt_total k1 k2) as [?|[<-|Hgt]]; [done| |].
    - destruct Hfree2. by eapply elem_of_map_img_2.
    - destruct Hfree2. apply Himg, Hused1, Hgt. }
  exists k1, k2. split_and!; [done..|].
  eapply candidate_callsign_length_lt; [|done].
  by apply py_max_Some in Hmax1 as [? _].
Qed.

End DictSteps.

(** * More properties of the script *)

(** ** The words of a name *)

Section Words.
Import PyStr PyStrFacts.

Lemma split_go_join in_sep cur (s : string) :
  join (split_go in_sep cur s) = cur +:+ keep_chars is_AZ s.
Proof.
  revert in_sep cur; induction s as [|c s IH]; intros in_sep cur; simpl.
  - by rewrite !append_empty_r.
  - destruct (is_AZ c).
    + rewrite IH. clear IH. induction cur as [|d cur IHcur]; [done|].
      rewrite !append_cons. by f_equal.
    + destruct in_sep; [apply IH|]. simpl. by rewrite IH.
Qed.

Lemma split_go_not_nil in_sep cur (s : string) : split_go in_sep cur s ≠ [].
Proof.
  revert in_sep cur; induction s as [|c s IH]; intros in_sep cur; simpl;
    [done|].
  destruct (is_AZ c); [apply IH|]. destruct in_sep; [apply IH | done].
Qed.

Lemma raw_name_parts_not_nil repo_name : raw_name_parts repo_name ≠ [].
Proof. apply split_go_not_nil. Qed.

(** Once a separator was seen or a letter was read, only the last piece
    can be empty. *)
Lemma split_go_inner in_sep cur (s : string) :
  in_sep = true ∨ cur ≠ "" →
  ∀ pieces piece, split_go in_sep cur s = pieces ++ [piece] →
                  Forall (fun w => w ≠ "") pieces.
Proof.
  revert in_sep cur; induction s as [|c s IH]; intros in_sep cur Hstate
    pieces piece; simpl.
  - intros Heq. destruct pieces as [|? [|? ?]]; by simplify_eq.
  - destruct (is_AZ c).
    + apply IH. right. by destruct cur.
    + destruct in_sep; [by apply IH; left|].
      destruct Hstate as [?|Hcur]; [done|].
      destruct pieces as [|w pieces]; simpl.
      { intros Heq. injection Heq as _ Heq.
        by apply split_go_not_nil in Heq. }
      intros Heq. injection Heq as <- Heq. constructor; [done|].
      eapply IH; [by left | done].
Qed.

End Words.

(** X1: the pieces of the split hold the capital letters of the string,
    all of them and in their order; there is always at least one piece;
    and no piece but the first and the last is empty. *)
Theorem split_non_AZ_pieces (s : string) :
  PyStr.join (PyStr.split_non_AZ s) = keep_chars PyStr.is_AZ s
  ∧ PyStr.split_non_AZ s ≠ []
  ∧ ∀ first pieces last,
      PyStr.split_non_AZ s = first :: pieces ++ [last] →
      Forall (fun w => w ≠ "") pieces.
Proof.
  split_and!.
  - apply split_go_join.
  - apply split_go_not_nil.
  - unfold PyStr.split_non_AZ. destruct s as [|c s]; simpl.
    { intros first pieces last Heq. destruct pieces; by simplify_eq. }
    destruct (PyStr.is_AZ c).
    + intros first pieces last Heq.
      assert (Forall (fun w => w ≠ "") (first :: pieces)) as Hall.
      { eapply split_go_inner; [|exact Heq]. by right. }
      by apply Forall_cons in Hall as [_ ?].
    + intros first pieces last Heq. injection Heq as _ Heq.
      eapply split_go_inner; [by left | done].
Qed.

Lemma split_non_AZ_pieces_witness :
  Forall (fun w => w ≠ "") ["MOBILE"; "APPS"].
Proof.
  refine (proj2 (proj2 (split_non_AZ_pieces "-MOBILE--APPS/"))
            "" ["MOBILE"; "APPS"] "" _).
  vm_compute. reflexivity.
Defined.

(** ** How the allocator fails *)

Section AllocatorFailures.
Import PyStr PyStrFacts.

Lemma spec_maxLen_Some words :
  words ≠ [] → py_max (String.length <$> words) = Some (spec_maxLen words).
Proof.
  destruct (py_max _) as [longest|] eqn:Hmax.
  - by rewrite (spec_maxLen_py_max _ _ Hmax).
  - by destruct words.
Qed.

Lemma allocator_NameError repo_name existing :
  _create_new_phabricator_callsign repo_name existing = Raise NameError ↔
  name_parts_of repo_name ≠ []
  ∧ ∀ k : nat, k < spec_maxLen (name_parts_of repo_name) →
               candidate_callsign (name_parts_of repo_name) k ∈ existing.
Proof.
  unfold _create_new_phabricator_callsign.
  destruct (decide (name_parts_of repo_name = [])) as [Hnil|Hne].
  { rewrite Hnil. simpl. split; [done | by intros [? _]]. }
  rewrite (spec_maxLen_Some _ Hne).
  destruct (callsign_loop _ _ _) as [c|] eqn:Hloop.
  - split; [done|]. intros [_ Hused].
    apply callsign_loop_Some in Hloop as (k & Hk & -> & Hfree & _).
    destruct Hfree. apply Hused. lia.
  - split; [|done]. intros _. split; [done|]. intros k Hk.
    eapply callsign_loop_None; [done | lia].
Qed.

Lemma allocator_ValueError repo_name existing :
  _create_new_phabricator_callsign repo_name existing = Raise ValueError ↔
  name_parts_of repo_name = [].
Proof.
  unfold _create_new_phabricator_callsign.
  destruct (decide (name_parts_of repo_name = [])) as [Hnil|Hne].
  { by rewrite Hnil. }
  rewrite (spec_maxLen_Some _ Hne).
  by destruct (callsign_loop _ _ _).
Qed.

Lemma remove_first_nil x l : remove_first x l = [] → x ∈ l → l = [x].
Proof.
  destruct l as [|y l]; simpl; [by intros _ ?%elem_of_nil|].
  case_decide; [intros -> _; by subst | intros; discriminate].
Qed.

Lemma remove_first_singleton x y l :
  remove_first x l = [y] → x ∈ l → l = [x; y] ∨ l = [y; x].
Proof.
  destruct l as [|z l]; simpl; [by intros _ ?%elem_of_nil|].
  case_decide as Hxz.
  - intros -> _. subst. by left.
  - intros [= <- Hrest] [?|Hin]%elem_of_cons; [done|].
    right. by rewrite (remove_first_nil _ _ Hrest Hin).
Qed.

Lemma name_parts_of_nil repo_name :
  name_parts_of repo_name = [] ↔ raw_name_parts repo_name ∈ noise_only_parts.
Proof.
  unfold name_parts_of, noise_only_parts. cbv zeta.
  pose proof (raw_name_parts_not_nil repo_name) as Hraw.
  set (raw := raw_name_parts repo_name) in *. split.
  - intros Hnil.
    destruct (decide ("GROUP" ∈ raw)) as [HG|HG].
    + destruct (decide ("WEBSITE" ∈ remove_first "GROUP" raw)) as [HW|HW].
      * apply remove_first_nil in Hnil; [|done].
        apply remove_first_singleton in Hnil; [|done].
        destruct Hnil as [Hr|Hr]; rewrite Hr; set_solver.
      * apply remove_first_nil in Hnil; [|done]. rewrite Hnil. set_solver.
    + destruct (decide ("WEBSITE" ∈ raw)) as [HW|HW]; [|done].
      apply remove_first_nil in Hnil; [|done]. rewrite Hnil. set_solver.
  - intros Hin. repeat (apply elem_of_cons in Hin as [->|Hin]);
      [done.. | by apply elem_of_nil in Hin].
Qed.

Lemma take_all n (w : string) : String.length w ≤ n → take n w = w.
Proof.
  revert w; induction n as [|n IH]; intros [|c w]; simpl; try done;
    [lia|].
  intros Hle. rewrite IH; [done | lia].
Qed.

Lemma spec_maxLen_ge words w :
  w ∈ words → String.length w ≤ spec_maxLen words.
Proof.
  unfold spec_maxLen.
  induction words as [|w' words IH]; [by intros ?%elem_of_nil|].
  csimpl. intros [->|Hw]%elem_of_cons; [lia|]. specialize (IH Hw). lia.
Qed.

Lemma candidate_callsign_last words :
  0 < spec_maxLen words →
  candidate_callsign words (spec_maxLen words - 1) = join words.
Proof.
  intros Hpos. unfold candidate_callsign. f_equal.
  replace (spec_maxLen words - 1 + 1) with (spec_maxLen words) by lia.
  pose proof (spec_maxLen_ge words) as Hle.
  generalize dependent (spec_maxLen words). intros n _ Hle.
  induction words as [|w words IH]; [done|]. csimpl. f_equal.
  - apply take_all, Hle. left.
  - apply IH. intros w' Hw'. apply Hle. by right.
Qed.

(** A repository name in capitals, or without its digits, has the same
    words. *)
Lemma upper_char_idemp c : upper_char (upper_char c) = upper_char c.
Proof. by destruct c as [[] [] [] [] [] [] [] []]. Qed.

Lemma upper_idemp (s : string) : upper (upper s) = upper s.
Proof.
  induction s as [|c s IH]; simpl; [done|].
  by rewrite upper_char_idemp, IH.
Qed.

Lemma is_digit_upper_char c : is_digit (upper_char c) = is_digit c.
Proof. by destruct c as [[] [] [] [] [] [] [] []]. Qed.

Lemma upper_strip_digits (s : string) :
  upper (strip_digits s) = strip_digits (upper s).
Proof.
  induction s as [|c s IH]; simpl; [done|].
  rewrite is_digit_upper_char. destruct (is_digit c); simpl; by rewrite IH.
Qed.

Lemma strip_digits_idemp (s : string) :
  strip_digits (strip_digits s) = strip_digits s.
Proof.
  induction s as [|c s IH]; simpl; [done|].
  destruct (is_digit c) eqn:Hc; simpl; [done|]. by rewrite Hc, IH.
Qed.

Lemma allocator_Raise repo_name existing e :
  _create_new_phabricator_callsign repo_name existing = Raise e →
  e = ValueError ∨ e = NameError.
Proof.
  unfold _create_new_phabricator_callsign.
  destruct (py_max _); [|intros [= <-]; by left].
  destruct (callsign_loop _ _ _); [done|]. intros [= <-]. by right.
Qed.

End AllocatorFailures.

(** X2: the allocator fails in two ways only.  It raises ValueError
    exactly when the words of the name are GROUP, WEBSITE or the two of
    them, whatever the callsigns in use; it raises NameError exactly
    when words are left and every candidate, up to the length of the
    longest word, is in use. *)
Theorem allocator_failure_cases repo_name existing_callsigns :
  let r := _create_new_phabricator_callsign repo_name existing_callsigns in
  (∀ e, r = Raise e → e = ValueError ∨ e = NameError)
  ∧ (r = Raise ValueError ↔ raw_name_parts repo_name ∈ noise_only_parts)
  ∧ (r = Raise NameError ↔
     name_parts_of repo_name ≠ []
     ∧ ∀ k : nat, k < spec_maxLen (name_parts_of repo_name) →
         candidate_callsign (name_parts_of repo_name) k
         ∈ existing_callsigns).
Proof.
  intros r. split_and!.
  - apply allocator_Raise.
  - subst r. by rewrite allocator_ValueError, name_parts_of_nil.
  - apply allocator_NameError.
Qed.

Lemma allocator_failure_cases_witness :
  _create_new_phabricator_callsign "Group/website" {["G"]} = Raise ValueError.
Proof.
  apply (proj1 (proj2 (allocator_failure_cases "Group/website" {["G"]}))).
  vm_compute. set_solver.
Defined.

(** X3: for a name with a word of one letter at least: when the initials
    of the words are not in use, they are the callsign; the allocator
    raises NameError only when the words joined in full are in use; and
    when they are not in use, a callsign is returned. *)
Theorem allocator_initials_and_whole_name repo_name existing_callsigns :
  let name_parts := name_parts_of repo_name in
  let r := _create_new_phabricator_callsign repo_name existing_callsigns in
  0 < spec_maxLen name_parts →
  ((candidate_callsign name_parts 0 ∉ existing_callsigns) →
   r = Ok (PyStr.join (PyStr.take 1 <$> name_parts)))
  ∧ (r = Raise NameError → PyStr.join name_parts ∈ existing_callsigns)
  ∧ ((PyStr.join name_parts ∉ existing_callsigns) → ∃ cs, r = Ok cs).
Proof.
  cbv zeta. intros Hpos.
  assert (name_parts_of repo_name ≠ []) as Hne.
  { intros Hnil. rewrite Hnil in Hpos. by apply Nat.lt_irrefl in Hpos. }
  assert (_create_new_phabricator_callsign repo_name existing_callsigns
          = Raise NameError →
          PyStr.join (name_parts_of repo_name) ∈ existing_callsigns)
    as Hwhole.
  { intros [_ Hused]%allocator_NameError.
    rewrite <-candidate_callsign_last by done. apply Hused. lia. }
  split_and!; [|done|].
  - intros Hfree. apply allocator_Ok.
    exists (spec_maxLen (name_parts_of repo_name)), 0.
    split_and!; [by apply spec_maxLen_Some | done.. | intros; lia].
  - intros Hfree.
    destruct (_create_new_phabricator_callsign _ _) as [cs|e] eqn:Hr;
      [by exists cs|].
    destruct (allocator_Raise _ _ _ Hr) as [-> | ->].
    + by apply allocator_ValueError in Hr.
    + destruct Hfree. by apply Hwhole.
Qed.

Lemma allocator_initials_and_whole_name_witness :
  ∃ cs, _create_new_phabricator_callsign "foo-website" {["F"]} = Ok cs.
Proof.
  refine (proj2 (proj2 (allocator_initials_and_whole_name "foo-website"
                          {["F"]} _)) _).
  - vm_compute. lia.
  - vm_compute. set_solver.
Defined.

(** X4: the allocator does not look at the case of the letters nor at
    the digits of a name: the name in capitals and the name without its
    digits get the callsign of the name itself. *)
Theorem allocator_ignores_case_and_digits repo_name existing_callsigns :
  _create_new_phabricator_callsign (PyStr.upper repo_name) existing_callsigns
  = _create_new_phabricator_callsign repo_name existing_callsigns
  ∧ _create_new_phabricator_callsign (PyStr.strip_digits repo_name)
      existing_callsigns
    = _create_new_phabricator_callsign repo_name existing_callsigns.
Proof.
  unfold _create_new_phabricator_callsign, name_parts_of, raw_name_parts.
  cbv zeta.
  by rewrite upper_idemp, upper_strip_digits, strip_digits_idemp.
Qed.

(** ** _retry with any command *)

Section RetryAny.
Context {A : Type} (cmd : M A) (times : nat) (verbose : bool)
        (exceptions : exn → bool).

Lemma retry_loop_not_None (n : nat) : ∀ (i : nat) s s',
  i + n = times → 0 < n →
  retry_loop cmd times verbose exceptions (seq i n) s ≠ (Ok None, s').
Proof.
  induction n as [|n IH]; intros i s s' Htimes Hn; [lia|].
  rewrite <-cons_seq, retry_loop_cons.
  destruct (cmd s) as [[a|e] s1]; [done|].
  destruct (exceptions e); [|done].
  case_decide as Hlast; [done|]. apply IH; lia.
Qed.

End RetryAny.

(** X5: [_retry] with any command: with [times] 0 the command is not
    run and the result is None; otherwise the result is never None, a
    command that returns at its first call is not run again, and an
    exception that is not one of [exceptions] is raised at once, in
    the state in which the command left. *)
Theorem retry_any_command {A} (cmd : M A) (times : nat) verbose exceptions s :
  _retry cmd 0 verbose exceptions s = (Ok None, s)
  ∧ (0 < times →
     (∀ s', _retry cmd times verbose exceptions s ≠ (Ok None, s'))
     ∧ (∀ a s', cmd s = (Ok a, s') →
                _retry cmd times verbose exceptions s = (Ok (Some a), s'))
     ∧ (∀ e s', cmd s = (Raise e, s') → exceptions e = false →
                _retry cmd times verbose exceptions s = (Raise e, s'))).
Proof.
  split; [done|]. intros Hpos. unfold _retry.
  destruct times as [|n]; [lia|]. split_and!.
  - intros s'. apply retry_loop_not_None; lia.
  - intros a s' Hcmd. rewrite <-cons_seq, retry_loop_cons. by rewrite Hcmd.
  - intros e s' Hcmd He. rewrite <-cons_seq, retry_loop_cons.
    by rewrite Hcmd, He.
Qed.

Lemma retry_any_command_witness :
  _retry (query (flaky_world [])) 1 true (fun _ => false) initial_state
  = (Raise SocketTimeout, log [CallQuery] initial_state).
Proof.
  refine (proj2 (proj2 (proj2 (retry_any_command (query (flaky_world [])) 1
                                 true (fun _ => false) initial_state) _))
            SocketTimeout _ _ _).
  - lia.
  - reflexivity.
  - reflexivity.
Defined.

(** ** The kiln token *)

Section KilnToken.
Import PyStr PyStrFacts.

Lemma token_in_lines_app prefix lines1 lines2 :
  token_in_lines prefix (lines1 ++ lines2)
  = match token_in_lines prefix lines1 with
    | Some token => Some token
    | None => token_in_lines prefix lines2
    end.
Proof.
  induction lines1 as [|line lines1 IH]; simpl; [done|].
  by destruct (startswith line prefix).
Qed.

Lemma token_in_files_flat prefix files :
  token_in_files prefix files
  = match token_in_lines prefix (lines_of_files files) with
    | Some token => Ok (Some token)
    | None => if existsb file_fails files then Raise IOError else Ok None
    end.
Proof.
  induction files as [|f files IH]; simpl; [done|].
  rewrite token_in_lines_app.
  destruct (token_in_lines prefix (file_lines f)); [done|].
  destruct (file_fails f); [done|]. by rewrite IH.
Qed.

Lemma lines_of_files_app files1 files2 :
  lines_of_files (files1 ++ files2)
  = lines_of_files files1
    ++ if existsb file_fails files1 then [] else lines_of_files files2.
Proof.
  induction files1 as [|f files1 IH]; simpl; [done|].
  destruct (file_fails f); simpl; [by rewrite !app_nil_r|].
  by rewrite IH, (assoc_L (++)).
Qed.

(** The three loops read the lines one after the other. *)
Lemma token_in_walk_flat prefix walk :
  token_in_walk prefix walk
  = match token_in_lines prefix (lines_of_walk walk) with
    | Some token => Ok (Some token)
    | None => if walk_fails walk then Raise IOError else Ok None
    end.
Proof.
  unfold lines_of_walk, walk_fails.
  induction walk as [|filenames walk IH]; simpl; [done|].
  rewrite token_in_files_flat, lines_of_files_app, token_in_lines_app,
    existsb_app.
  destruct (token_in_lines prefix (lines_of_files filenames)); [done|].
  destruct (existsb file_fails filenames); [done|]. by rewrite IH.
Qed.

Lemma lines_of_files_readable files :
  existsb file_fails files = false →
  lines_of_files files = concat (file_lines <$> files).
Proof.
  induction files as [|f files IH]; simpl; [done|].
  intros [-> Hrest]%orb_false_iff. by rewrite IH.
Qed.

Lemma token_in_lines_None prefix lines :
  token_in_lines prefix lines = None ↔
  Forall (fun line => startswith line prefix = false) lines.
Proof.
  induction lines as [|line lines IH]; simpl; [done|].
  rewrite Forall_cons, <-IH.
  destruct (startswith line prefix); naive_solver.
Qed.

Lemma token_in_lines_first prefix before line after :
  Forall (fun l => startswith l prefix = false) before →
  startswith line prefix = true →
  token_in_lines prefix (before ++ line :: after)
  = Some (strip (drop (String.length prefix) line)).
Proof.
  intros Hbefore Hline. rewrite token_in_lines_app.
  apply token_in_lines_None in Hbefore as ->. simpl. by rewrite Hline.
Qed.

Lemma lstrip_idemp (s : string) : lstrip (lstrip s) = lstrip s.
Proof.
  induction s as [|c s IH]; simpl; [done|].
  destruct (is_space c) eqn:Hc; [done|]. simpl. by rewrite Hc.
Qed.

Lemma rstrip_lstrip (s : string) : rstrip (lstrip s) = lstrip (rstrip s).
Proof.
  induction s as [|c s IH]; simpl; [done|].
  destruct (is_space c) eqn:Hc.
  - rewrite IH. destruct (rstrip s) as [|d r]; [done|].
    simpl. by rewrite Hc.
  - simpl. destruct (rstrip s) as [|d r]; simpl; by rewrite Hc.
Qed.

Lemma rstrip_idemp (s : string) : rstrip (rstrip s) = rstrip s.
Proof.
  induction s as [|c s IH]; simpl; [done|].
  destruct (rstrip s) as [|d r] eqn:Hr.
  - destruct (is_space c) eqn:Hc; simpl; [done|]. by rewrite Hc.
  - change (rstrip (String c (String d r)))
      with (match rstrip (String d r) with
            | EmptyString => if is_space c then EmptyString
                             else String c EmptyString
            | r' => String c r'
            end).
    by rewrite IH.
Qed.

Lemma rstrip_spaces (t : string) :
  all_chars is_space t = true → rstrip t = "".
Proof.
  induction t as [|d t IH]; simpl; [done|].
  intros [Hd Ht]%andb_true_iff. by rewrite (IH Ht), Hd.
Qed.

Lemma rstrip_spaces_r (s t : string) :
  all_chars is_space t = true → rstrip (s +:+ t) = rstrip s.
Proof.
  intros Ht. induction s as [|c s IH].
  - change ("" +:+ t) with t. by rewrite rstrip_spaces.
  - rewrite append_cons. simpl. by rewrite IH.
Qed.

Lemma prefix_append (p s : string) : String.prefix p (p +:+ s) = true.
Proof.
  induction p as [|c p IH]; [by destruct s|].
  rewrite append_cons. simpl. by destruct (ascii_dec c c).
Qed.

Lemma drop_append (p s : string) : drop (String.length p) (p +:+ s) = s.
Proof. induction p as [|c p IH]; [done|]. by rewrite append_cons. Qed.

End KilnToken.

(** X6: the token lookup raises nothing but KeyError and IOError:
    KeyError exactly when every file under the cookie directory is read
    to its end and no line starts with the fbToken prefix of the
    domain, which is so for a directory that does not exist; IOError
    exactly when the reading of a file fails and no line read until
    then starts with the prefix.  When no reading fails the lines read
    are all the lines of all the files. *)
Theorem find_kilnauth_token_KeyError hgcookies domain :
  let no_token :=
    Forall (fun line => PyStr.startswith line (fbToken_prefix domain) = false)
      (lines_of_walk hgcookies) in
  (∀ e, _find_kilnauth_token hgcookies domain = Raise e →
        e = KeyError ∨ e = IOError)
  ∧ (_find_kilnauth_token hgcookies domain = Raise KeyError ↔
     no_token ∧ walk_fails hgcookies = false)
  ∧ (_find_kilnauth_token hgcookies domain = Raise IOError ↔
     no_token ∧ walk_fails hgcookies = true)
  ∧ (walk_fails hgcookies = false →
     lines_of_walk hgcookies = concat (file_lines <$> concat hgcookies))
  ∧ _find_kilnauth_token [] domain = Raise KeyError.
Proof.
  cbv zeta. unfold _find_kilnauth_token. cbv zeta.
  rewrite <-token_in_lines_None, token_in_walk_flat.
  split_and!; [| | | |done].
  - intros e. destruct (token_in_lines _ _); [done|].
    destruct (walk_fails hgcookies); intros [= <-]; auto.
  - destruct (token_in_lines _ _); [naive_solver|].
    destruct (walk_fails hgcookies); naive_solver.
  - destruct (token_in_lines _ _); [naive_solver|].
    destruct (walk_fails hgcookies); naive_solver.
  - apply lines_of_files_readable.
Qed.

Lemma find_kilnauth_token_KeyError_witness :
  lines_of_walk [[readable ["# HTTP Cookie File"]]; []]
  = ["# HTTP Cookie File"].
Proof.
  apply (proj1 (proj2 (proj2 (proj2
           (find_kilnauth_token_KeyError
              [[readable ["# HTTP Cookie File"]]; []]
              "khanacademy.kilnhg.com"))))).
  reflexivity.
Defined.

(** X7: the token is read off the first line, in the order of the walk,
    that starts with the prefix: the lines before it and after it do
    not count, and the token is the rest of that line without the white
    space at its two ends.  A line made of the prefix, a token without
    white space at its ends and a newline gives back the token. *)
Theorem find_kilnauth_token_first_line hgcookies domain before line after :
  lines_of_walk hgcookies = before ++ line :: after →
  Forall (fun l => PyStr.startswith l (fbToken_prefix domain) = false)
    before →
  (PyStr.startswith line (fbToken_prefix domain) = true →
   _find_kilnauth_token hgcookies domain
   = Ok (strip (PyStr.drop (String.length (fbToken_prefix domain)) line)))
  ∧ ∀ token,
      line = fbToken_prefix domain +:+ token +:+ newline →
      lstrip token = token → rstrip token = token →
      _find_kilnauth_token hgcookies domain = Ok token.
Proof.
  intros Hlines Hbefore.
  assert (PyStr.startswith line (fbToken_prefix domain) = true →
          _find_kilnauth_token hgcookies domain
          = Ok (strip (PyStr.drop (String.length (fbToken_prefix domain))
                         line))) as Hfirst.
  { intros Hline. unfold _find_kilnauth_token. cbv zeta.
    by rewrite token_in_walk_flat, Hlines,
      (token_in_lines_first _ _ _ _ Hbefore Hline). }
  split; [done|]. intros token -> Hl Hr.
  rewrite Hfirst by apply prefix_append.
  rewrite drop_append. unfold strip.
  by rewrite rstrip_spaces_r, Hr, Hl.
Qed.

Lemma find_kilnauth_token_first_line_witness :
  _find_kilnauth_token
    [[readable
        ["# HTTP Cookie File";
         fbToken_prefix "khanacademy.kilnhg.com" +:+ "abc123" +:+ newline;
         fbToken_prefix "khanacademy.kilnhg.com" +:+ "other" +:+ newline]]]
    "khanacademy.kilnhg.com"
  = Ok "abc123".
Proof.
  refine (proj2 (find_kilnauth_token_first_line _ "khanacademy.kilnhg.com"
                   ["# HTTP Cookie File"] _
                   [fbToken_prefix "khanacademy.kilnhg.com" +:+ "other"
                    +:+ newline] _ _) "abc123" _ _ _).
  - reflexivity.
  - vm_compute. repeat constructor.
  - reflexivity.
  - reflexivity.
  - reflexivity.
Defined.

(** X8: a token that is returned has no white space at its ends. *)
Theorem find_kilnauth_token_stripped hgcookies domain token :
  _find_kilnauth_token hgcookies domain = Ok token →
  lstrip token = token ∧ rstrip token = token.
Proof.
  unfold _find_kilnauth_token. cbv zeta. rewrite token_in_walk_flat.
  destruct (token_in_lines _ _) as [t|] eqn:Hlines;
    [|by destruct (walk_fails hgcookies)].
  intros [= <-].
  induction (lines_of_walk hgcookies) as [|line lines IH]; [done|].
  simpl in Hlines. destruct (PyStr.startswith line _); [|by apply IH].
  injection Hlines as <-. unfold strip. split.
  - apply lstrip_idemp.
  - by rewrite rstrip_lstrip, rstrip_idemp.
Qed.

Lemma find_kilnauth_token_stripped_witness :
  lstrip "abc123" = "abc123" ∧ rstrip "abc123" = "abc123".
Proof.
  apply (find_kilnauth_token_stripped
           [[readable [fbToken_prefix "khanacademy.kilnhg.com"
                       +:+ "  abc123 " +:+ newline]]]
           "khanacademy.kilnhg.com").
  reflexivity.
Defined.

(** ** Clone-urls, names and paths *)

Section Urls.
Import PyStr PyStrFacts.

Lemma drop_append_ge (p s : string) (n : nat) :
  drop (String.length p + n) (p +:+ s) = drop n s.
Proof. induction p as [|c p IH]; [done|]. by rewrite append_cons. Qed.

Lemma take_append (p s : string) : take (String.length p) (p +:+ s) = p.
Proof.
  induction p as [|c p IH]; [done|]. rewrite append_cons. simpl.
  by rewrite IH.
Qed.

Lemma take_drop (n : nat) (s : string) : take n s +:+ drop n s = s.
Proof.
  revert s; induction n as [|n IH]; intros [|c s]; simpl; try done.
  by rewrite append_cons, IH.
Qed.

Lemma take_take (n m : nat) (s : string) :
  n ≤ m → take n (take m s) = take n s.
Proof.
  revert m s; induction n as [|n IH]; intros [|m] [|c s] Hle; simpl;
    try done; [lia|].
  rewrite IH; [done | lia].
Qed.

Lemma prefix_take (p s : string) :
  String.prefix p s = true → take (String.length p) s = p.
Proof.
  revert s; induction p as [|c p IH]; intros [|d s]; simpl; try done.
  destruct (ascii_dec c d) as [->|]; [|done]. intros Hp. by rewrite IH.
Qed.

Lemma endswith_append (u p : string) : endswith (u +:+ p) p = true.
Proof.
  unfold endswith. rewrite length_append.
  replace (String.length u + String.length p - String.length p)
    with (String.length u + 0) by lia.
  rewrite drop_append_ge. simpl. rewrite String.eqb_refl.
  apply andb_true_iff. split; [|done]. apply Nat.leb_le. lia.
Qed.

Lemma drop_last_append (u p : string) :
  drop_last (String.length p) (u +:+ p) = u.
Proof.
  unfold drop_last. rewrite length_append.
  replace (String.length u + String.length p - String.length p)
    with (String.length u) by lia.
  apply take_append.
Qed.

Lemma endswith_split (u p : string) :
  endswith u p = true → drop_last (String.length p) u +:+ p = u.
Proof.
  unfold endswith, drop_last.
  intros [_ Heq%String.eqb_eq]%andb_true_iff.
  remember (String.length u - String.length p) as n eqn:Hn. clear Hn.
  rewrite <-Heq. apply take_drop.
Qed.

(** A url cannot start with the prefix of github and with the one of
    kiln. *)
Lemma prefixes_exclusive (url : string) :
  startswith url "https://github.com/Khan/" = true →
  startswith url "https://khanacademy.kilnhg.com/Code/" = true → False.
Proof.
  unfold startswith. intros H1%prefix_take H2%prefix_take.
  apply (f_equal (take 9)) in H1, H2.
  rewrite take_take in H1, H2 by (simpl; lia).
  rewrite H1 in H2. discriminate.
Qed.

Lemma endswith_slash_letter (x : string) c :
  c ≠ "/"%char → endswith (x +:+ String c "") "/" = false.
Proof.
  intros Hc. unfold endswith. rewrite length_append. simpl.
  replace (String.length x + 1 - 1) with (String.length x + 0) by lia.
  rewrite drop_append_ge. simpl. apply andb_false_iff. right.
  destruct (Ascii.eqb_spec c "/"); [done|]. done.
Qed.

End Urls.

(** X9: a github clone_url loses one trailing [.git] and nothing else:
    a url with [.git] added gives back the url, a url that does not end
    with [.git] stays, and in all cases the result is the url or the
    url without its last four characters [.git]. *)
Theorem git_repo_of_suffix (clone_url : string) :
  git_repo_of (clone_url +:+ ".git") = clone_url
  ∧ (PyStr.endswith clone_url ".git" = false →
     git_repo_of clone_url = clone_url)
  ∧ (git_repo_of clone_url = clone_url
     ∨ git_repo_of clone_url +:+ ".git" = clone_url).
Proof.
  unfold git_repo_of. split_and!.
  - by rewrite endswith_append, drop_last_append.
  - by intros ->.
  - destruct (PyStr.endswith clone_url ".git") eqn:Hends; [right | by left].
    by apply endswith_split.
Qed.

Lemma git_repo_of_suffix_witness :
  git_repo_of "https://github.com/Khan/zebra" = "https://github.com/Khan/zebra".
Proof.
  apply (proj1 (proj2 (git_repo_of_suffix "https://github.com/Khan/zebra"))).
  reflexivity.
Defined.

(** X10: whatever the order in which the two prefixes are tried, the
    same kind and name are found, since no url starts with both; and
    none is found exactly when the url starts with neither. *)
Theorem match_prefix_any_order (repo_clone_url : string) :
  match_prefix (reverse prefix_map) repo_clone_url
  = match_prefix prefix_map repo_clone_url
  ∧ (match_prefix prefix_map repo_clone_url = None ↔
     PyStr.startswith repo_clone_url "https://github.com/Khan/" = false
     ∧ PyStr.startswith repo_clone_url
         "https://khanacademy.kilnhg.com/Code/" = false).
Proof.
  pose proof (prefixes_exclusive repo_clone_url) as Hex.
  unfold prefix_map. simpl.
  destruct (PyStr.startswith repo_clone_url "https://github.com/Khan/"),
    (PyStr.startswith repo_clone_url "https://khanacademy.kilnhg.com/Code/");
    simpl; try (by destruct Hex);
    (split; [done|]); split; try done; by intros [? ?].
Qed.

Lemma match_prefix_any_order_witness :
  match_prefix prefix_map "https://example.org/zebra" = None.
Proof.
  apply (proj2 (match_prefix_any_order "https://example.org/zebra")).
  split; reflexivity.
Defined.

Section Names.
Import PyStr PyStrFacts.

Lemma match_prefix_github (name : string) :
  match_prefix prefix_map ("https://github.com/Khan/" +:+ name)
  = Some ("git", if endswith name ".git"
                 then drop_last (String.length ".git") name else name).
Proof.
  unfold prefix_map, match_prefix, startswith.
  rewrite prefix_append, drop_append. done.
Qed.

Lemma match_prefix_kiln (name : string) :
  match_prefix prefix_map ("https://khanacademy.kilnhg.com/Code/" +:+ name)
  = Some ("hg", if endswith name ".git"
                then drop_last (String.length ".git") name else name).
Proof.
  unfold prefix_map, match_prefix.
  destruct (startswith _ "https://github.com/Khan/") eqn:Hgit.
  { destruct (prefixes_exclusive _ Hgit). apply prefix_append. }
  unfold startswith. rewrite prefix_append, drop_append. done.
Qed.

End Names.

(** X11: the name of a repository is what follows the prefix of its
    host, less one trailing [.git]: for a name that does not end with
    [.git], the github url of the name gives kind git and the name, the
    kiln url gives kind hg and the name, and so does the github
    clone_url with [.git] once it went through the clean-up of the
    fetch. *)
Theorem match_prefix_name (name : string) :
  PyStr.endswith name ".git" = false →
  match_prefix prefix_map ("https://github.com/Khan/" +:+ name)
  = Some ("git", name)
  ∧ match_prefix prefix_map ("https://khanacademy.kilnhg.com/Code/" +:+ name)
    = Some ("hg", name)
  ∧ match_prefix prefix_map
      (git_repo_of ("https://github.com/Khan/" +:+ name +:+ ".git"))
    = Some ("git", name)
  ∧ match_prefix prefix_map ("https://github.com/Khan/" +:+ name +:+ ".git")
    = Some ("git", name).
Proof.
  intros Hname. split_and!.
  - by rewrite match_prefix_github, Hname.
  - by rewrite match_prefix_kiln, Hname.
  - unfold git_repo_of.
    change ("https://github.com/Khan/" +:+ name +:+ ".git")
      with (("https://github.com/Khan/" +:+ name) +:+ ".git").
    rewrite endswith_append, drop_last_append.
    by rewrite match_prefix_github, Hname.
  - by rewrite match_prefix_github, endswith_append, drop_last_append.
Qed.

Lemma match_prefix_name_witness :
  match_prefix prefix_map
    ("https://khanacademy.kilnhg.com/Code/" +:+ "Mobile-Apps/Group/android")
  = Some ("hg", "Mobile-Apps/Group/android").
Proof.
  apply (proj1 (proj2 (match_prefix_name "Mobile-Apps/Group/android"
                         eq_refl))).
Defined.

(** ** The directory of the clone *)

Section DestDir.
Import PyStr PyStrFacts.

Lemma os_path_join_one (a b : string) :
  os_path_join a [b]
  = if startswith b "/" then b
    else if bool_decide (a = "") || endswith a "/" then a +:+ b
         else a +:+ "/" +:+ b.
Proof. reflexivity. Qed.

Lemma os_path_join_two (a b c : string) :
  os_path_join a [b; c] = os_path_join (os_path_join a [b]) [c].
Proof. reflexivity. Qed.

Lemma append_not_empty (x y : string) : y ≠ "" → x +:+ y ≠ "".
Proof.
  intros Hy Heq. apply (f_equal String.length) in Heq.
  rewrite length_append in Heq. destruct y; [done|]. simpl in Heq. lia.
Qed.

Lemma append_assoc (x y z : string) : (x +:+ y) +:+ z = x +:+ y +:+ z.
Proof. induction x as [|c x IH]; [done|]. by rewrite !append_cons, IH. Qed.

(** A path that ends with git or with hg is not empty and does not end
    with a slash. *)
Lemma vcs_path_open (x vcs_type : string) :
  vcs_type = "git" ∨ vcs_type = "hg" →
  bool_decide (x +:+ vcs_type = "") || endswith (x +:+ vcs_type) "/" = false.
Proof.
  intros Hvcs. apply orb_false_iff. split.
  - apply bool_decide_eq_false, append_not_empty. by destruct Hvcs as [->| ->].
  - destruct Hvcs as [->| ->].
    + replace (x +:+ "git") with ((x +:+ "gi") +:+ "t")
        by (by rewrite append_assoc).
      by apply endswith_slash_letter.
    + replace (x +:+ "hg") with ((x +:+ "h") +:+ "g")
        by (by rewrite append_assoc).
      by apply endswith_slash_letter.
Qed.

End DestDir.

(** X12: the directory of the clone, for the kinds git and hg.  Below a
    root directory that is not empty and does not end with a slash, a
    name that does not start with a slash is placed at root/kind/name;
    below an empty root it is placed at kind/name; and a name that
    starts with a slash is its own directory, whatever the root. *)
Theorem os_path_join_destdir (repo_rootdir vcs_type name : string) :
  vcs_type = "git" ∨ vcs_type = "hg" →
  (PyStr.startswith name "/" = true →
   os_path_join repo_rootdir [vcs_type; name] = name)
  ∧ (PyStr.startswith name "/" = false →
     (repo_rootdir ≠ "" → PyStr.endswith repo_rootdir "/" = false →
      os_path_join repo_rootdir [vcs_type; name]
      = (repo_rootdir +:+ "/" +:+ vcs_type) +:+ "/" +:+ name)
     ∧ (PyStr.endswith repo_rootdir "/" = true →
        os_path_join repo_rootdir [vcs_type; name]
        = (repo_rootdir +:+ vcs_type) +:+ "/" +:+ name)
     ∧ os_path_join "" [vcs_type; name] = vcs_type +:+ "/" +:+ name).
Proof.
  intros Hvcs.
  assert (PyStr.startswith vcs_type "/" = false) as Hrel
    by (by destruct Hvcs as [->| ->]).
  rewrite !os_path_join_two, !(os_path_join_one _ vcs_type), Hrel.
  split.
  - intros Hname. by rewrite os_path_join_one, Hname.
  - intros Hname. split_and!.
    + intros Hroot Hslash.
      rewrite (bool_decide_eq_false_2 _ Hroot), Hslash. cbn [orb].
      rewrite os_path_join_one, Hname.
      rewrite <-(append_assoc repo_rootdir "/" vcs_type).
      by rewrite (vcs_path_open (repo_rootdir +:+ "/") vcs_type Hvcs).
    + intros Hslash. rewrite Hslash, orb_true_r.
      by rewrite os_path_join_one, Hname, (vcs_path_open _ _ Hvcs).
    + rewrite bool_decide_eq_true_2 by done. cbn [orb].
      rewrite os_path_join_one, Hname.
      pose proof (vcs_path_open "" vcs_type Hvcs) as Hopen.
      change ("" +:+ vcs_type) with vcs_type in *. by rewrite Hopen.
Qed.

Lemma os_path_join_destdir_witness :
  os_path_join "/repos" ["git"; "/etc/zebra"] = "/etc/zebra".
Proof.
  apply (proj1 (os_path_join_destdir "/repos" "git" "/etc/zebra"
                  (or_introl eq_refl))).
  reflexivity.
Defined.

(** ** One repository *)

(** X13: what a call of [add_repository] can do.  When it raises, the
    dict is as before; with a url of an unknown host, or when the
    allocation fails, nothing at all has happened; when it returns, the
    dict has got the one entry of the url, with a callsign that no
    entry had before. *)
Theorem add_repository_outcomes W repo_rootdir repo_clone_url options s :
  let run := add_repository W repo_rootdir repo_clone_url options s in
  let m := url_to_callsign_map s in
  (∀ e, run.1 = Raise e → url_to_callsign_map run.2 = m)
  ∧ (match_prefix prefix_map repo_clone_url = None →
     run = (Raise NameError, s))
  ∧ (∀ vcs_type name e,
       match_prefix prefix_map repo_clone_url = Some (vcs_type, name) →
       _create_new_phabricator_callsign name (map_img m) = Raise e →
       run = (Raise e, s))
  ∧ (run.1 = Ok tt →
     ∃ vcs_type name cs,
       match_prefix prefix_map repo_clone_url = Some (vcs_type, name)
       ∧ _create_new_phabricator_callsign name (map_img m) = Ok cs
       ∧ url_to_callsign_map run.2 = <[repo_clone_url := cs]> m
       ∧ ∀ url, m !! url ≠ Some cs).
Proof.
  cbv zeta. rewrite add_repository_run. split_and!.
  - intros e.
    destruct (match_prefix _ _) as [[vcs_type name]|]; [|done].
    destruct (_create_new_phabricator_callsign _ _) as [cs|]; [|done].
    cbv zeta. destruct (dry_run options); [done|].
    by destruct (repository_create W _ _).
  - by intros ->.
  - intros vcs_type name e -> Halloc. by rewrite Halloc.
  - destruct (match_prefix _ _) as [[vcs_type name]|]; [|done].
    destruct (_create_new_phabricator_callsign _ _) as [cs|] eqn:Halloc;
      [|done].
    assert (∀ url, url_to_callsign_map s !! url ≠ Some cs) as Hfresh.
    { apply allocator_Ok in Halloc as (_ & _ & _ & _ & _ & Hfree & _).
      intros url Hurl. destruct Hfree. by eapply elem_of_map_img_2. }
    cbv zeta. destruct (dry_run options).
    + intros _. by exists vcs_type, name, cs.
    + destruct (repository_create W _ _); [done|].
      intros _. by exists vcs_type, name, cs.
Qed.

Lemma add_repository_outcomes_witness :
  add_repository (github_world [] [] (fun _ => None)) "/repos"
    "https://example.org/zebra" quiet initial_state
  = (Raise NameError, initial_state).
Proof.
  apply (proj1 (proj2 (add_repository_outcomes _ _ _ _ _))).
  reflexivity.
Defined.

(** ** The delete loop *)

Section DeleteLoop.

Lemma delete_loop_run repos : ∀ s,
  let run := delete_loop repos s in
  url_to_callsign_map run.2 = url_to_callsign_map s
  ∧ ((∀ url, url ∈ repos → is_Some (url_to_callsign_map s !! url)) →
     run = (Ok tt, log (deleted_lines (url_to_callsign_map s) repos) s))
  ∧ (∀ before url after,
       repos = before ++ url :: after →
       (∀ url', url' ∈ before → is_Some (url_to_callsign_map s !! url')) →
       url_to_callsign_map s !! url = None →
       run = (Raise KeyError,
              log (deleted_lines (url_to_callsign_map s) before) s)).
Proof.
  induction repos as [|repo rest IH]; intros s; cbv zeta.
  { split_and!; [done | |].
    - intros _. unfold log. simpl. rewrite app_nil_r. by destruct s.
    - intros before url after Heq. by destruct before. }
  rewrite delete_loop_cons, delete_repository_run.
  destruct (url_to_callsign_map s !! repo) as [cs|] eqn:Hrepo.
  - destruct (IH (log [PrintDeleted repo cs] s)) as (Hmap & Hall & Hmiss).
    simpl in Hmap, Hall, Hmiss. split_and!.
    + done.
    + intros Hkeys. rewrite Hall; [|intros; apply Hkeys; by right].
      unfold log, deleted_lines. simpl. rewrite Hrepo. simpl.
      by rewrite <-(assoc_L (++)).
    + intros before url after Heq Hkeys Hurl.
      destruct before as [|b before]; simplify_eq/=.
      rewrite (Hmiss before url after eq_refl);
        [|intros; apply Hkeys; by right | done].
      unfold log, deleted_lines. simpl. rewrite Hrepo. simpl.
      by rewrite <-(assoc_L (++)).
  - split_and!; [done | |].
    + intros Hkeys. destruct (Hkeys repo) as [? Hsome]; [left|]. congruence.
    + intros before url after Heq Hkeys Hurl.
      destruct before as [|b before]; simplify_eq/=.
      * unfold log. simpl. rewrite app_nil_r. by destruct s.
      * destruct (Hkeys b) as [? Hsome]; [left|]. congruence.
Qed.

End DeleteLoop.

(** X14: the delete loop only reports.  It never changes the dict; when
    every url is a key it prints, in order, one line per url with the
    callsign of the dict and returns; otherwise it raises KeyError at
    the first url that is not a key, after the lines of the urls before
    it. *)
Theorem delete_loop_reports repos s :
  let run := delete_loop repos s in
  let m := url_to_callsign_map s in
  url_to_callsign_map run.2 = m
  ∧ ((∀ url, url ∈ repos → is_Some (m !! url)) →
     run = (Ok tt, log (deleted_lines m repos) s)
     ∧ length (deleted_lines m repos) = length repos)
  ∧ (∀ before url after,
       repos = before ++ url :: after →
       (∀ url', url' ∈ before → is_Some (m !! url')) →
       m !! url = None →
       run = (Raise KeyError, log (deleted_lines m before) s)).
Proof.
  cbv zeta. destruct (delete_loop_run repos s) as (Hmap & Hall & Hmiss).
  split_and!; [done | | done].
  intros Hkeys. split; [by apply Hall|].
  unfold deleted_lines. clear -Hkeys.
  induction repos as [|repo rest IH]; [done|]. simpl.
  destruct (Hkeys repo) as [cs ->]; [left|]. simpl. f_equal.
  apply IH. intros; apply Hkeys; by right.
Qed.

Lemma delete_loop_reports_witness :
  delete_loop ["https://github.com/Khan/old"; "https://github.com/Khan/gone"]
    (State {["https://github.com/Khan/old" := "O"]} [])
  = (Raise KeyError,
     State {["https://github.com/Khan/old" := "O"]}
       [PrintDeleted "https://github.com/Khan/old" "O"]).
Proof.
  refine (proj2 (proj2 (delete_loop_reports _ _))
            ["https://github.com/Khan/old"] "https://github.com/Khan/gone"
            [] _ _ _).
  - reflexivity.
  - intros url' ->%list_elem_of_singleton. by eexists.
  - reflexivity.
Defined.

(** ** The sets and the dict of the reconciliation *)

(** X15: the repositories to add and the ones to delete have nothing in
    common; no repository to add is tracked and every repository to
    delete is; and once the ones are tracked and the others are not,
    nothing is left to add or to delete. *)
Theorem repos_to_add_and_delete_converges
    (kiln_repos git_repos phabricator_repos : gset string) :
  let r := repos_to_add_and_delete kiln_repos git_repos phabricator_repos in
  r.1 ## r.2
  ∧ r.1 ## phabricator_repos
  ∧ r.2 ⊆ phabricator_repos
  ∧ repos_to_add_and_delete kiln_repos git_repos
      ((phabricator_repos ∪ r.1) ∖ r.2) = (∅, ∅).
Proof.
  unfold repos_to_add_and_delete. simpl. split_and!; [set_solver.. |].
  f_equal; apply set_eq; intros url;
    rewrite !elem_of_difference, !elem_of_union, !elem_of_difference,
      !elem_of_union, elem_of_empty;
    destruct (decide (url ∈ kiln_repos)), (decide (url ∈ git_repos)),
      (decide (url ∈ phabricator_repos)); tauto.
Qed.

Section DictOf.

Lemma repo_to_callsign_map_of_snoc info r :
  repo_to_callsign_map_of (info ++ [r])
  = <[remoteURI r := callsign r]> (repo_to_callsign_map_of info).
Proof. unfold repo_to_callsign_map_of. by rewrite foldl_app. Qed.

End DictOf.

(** X16: in the dict built from the answer of the query, a clone-url
    has the callsign of the last record with this url, and no entry
    when there is no such record. *)
Theorem repo_to_callsign_map_of_last info url :
  repo_to_callsign_map_of info !! url
  = callsign <$> last (filter (fun r => remoteURI r = url) info).
Proof.
  induction info as [|r info IH] using rev_ind; [done|].
  rewrite repo_to_callsign_map_of_snoc, filter_app.
  destruct (decide (remoteURI r = url)) as [Heq|Hne].
  - rewrite filter_cons_True, filter_nil, last_snoc by done.
    rewrite Heq. apply lookup_insert_eq.
  - rewrite filter_cons_False, filter_nil, app_nil_r by done.
    by rewrite lookup_insert_ne.
Qed.

(** X17: an add loop over repositories that are no keys of the dict
    leaves every entry of the dict as it is, and the keys it adds are
    among these repositories: a pass does not touch the callsign of a
    repository that is tracked. *)
Theorem add_loop_keeps_tracked W repo_rootdir options
    (new_repos : gset string) num_failures s :
  (∀ url, url ∈ new_repos → url_to_callsign_map s !! url = None) →
  let run :=
    add_loop W repo_rootdir options (sorted new_repos) num_failures s in
  url_to_callsign_map s ⊆ url_to_callsign_map run.2
  ∧ (∀ url cs, url_to_callsign_map s !! url = Some cs →
               url_to_callsign_map run.2 !! url = Some cs)
  ∧ dom (url_to_callsign_map run.2)
    ⊆ dom (url_to_callsign_map s) ∪ new_repos.
Proof.
  intros Hfresh run.
  destruct (dict_steps_facts _ _ _
              (add_loop_dict_steps W repo_rootdir options (sorted new_repos)
                 num_failures s) (sorted_NoDup _))
    as (Hsub & Hother & _).
  { intros url Hurl. by apply Hfresh, elem_of_sorted. }
  split_and!; [done | |].
  - intros url cs Hcs. by eapply lookup_weaken.
  - intros url [cs Hcs]%elem_of_dom. apply elem_of_union.
    destruct (decide (url ∈ new_repos)) as [?|Hnew]; [by right|left].
    apply elem_of_dom. exists cs. rewrite <-Hother; [done|].
    by rewrite elem_of_sorted.
Qed.

Lemma add_loop_keeps_tracked_witness :
  url_to_callsign_map
    (add_loop (github_world [] [] (fun _ => None)) "/repos" quiet
       (sorted {["https://github.com/Khan/old-website"]}) 0
       (State {["https://github.com/Khan/old" := "O"]} [])).2
  !! "https://github.com/Khan/old" = Some "O".
Proof.
  refine (proj1 (proj2 (add_loop_keeps_tracked
                          (github_world [] [] (fun _ => None)) "/repos" quiet
                          {["https://github.com/Khan/old-website"]} 0
                          (State {["https://github.com/Khan/old" := "O"]} [])
                          _)) "https://github.com/Khan/old" "O" _).
  - intros url ->%elem_of_singleton. reflexivity.
  - reflexivity.
Defined.

(** ** The dict over a whole pass *)

Section PassDict.
Context (W : World).

Lemma unique_callsigns_insert (m : gmap string string) url cs :
  unique_callsigns m → (∀ url', m !! url' ≠ Some cs) →
  unique_callsigns (<[url := cs]> m).
Proof.
  intros Hm Hfresh url1 url2 c H1 H2.
  destruct (decide (url1 = url)) as [->|Hne1],
    (decide (url2 = url)) as [->|Hne2]; [done | | |].
  - rewrite lookup_insert_eq in H1. rewrite lookup_insert_ne in H2 by done.
    simplify_eq. by destruct (Hfresh url2).
  - rewrite lookup_insert_eq in H2. rewrite lookup_insert_ne in H1 by done.
    simplify_eq. by destruct (Hfresh url1).
  - rewrite lookup_insert_ne in H1, H2 by done. by eapply Hm.
Qed.

Lemma dict_steps_unique repos (m m' : gmap string string) :
  dict_steps repos m m' → unique_callsigns m → unique_callsigns m'.
Proof.
  induction 1 as [repos m|repo rest m m' Hsteps IH
                 |repo rest m m' vcs_type name cs Hprefix Hcs Hsteps IH];
    intros Hm; [done | by apply IH |].
  apply IH, unique_callsigns_insert; [done|].
  apply allocator_Ok in Hcs as (_ & _ & _ & _ & _ & Hfree & _).
  intros url Hurl. destruct Hfree. by eapply elem_of_map_img_2.
Qed.

(** The dict after the query phase is the one before it, or the one
    built from an answer of the query. *)
Lemma get_repos_dict verbose s :
  let m := url_to_callsign_map (_get_repos_to_add_and_delete W verbose s).2 in
  m = url_to_callsign_map s
  ∨ ∃ (i : nat) info,
      repository_query W i = Ok info ∧ m = repo_to_callsign_map_of info.
Proof.
  cbv zeta.
  unfold _get_repos_to_add_and_delete, mbind, M_bind, mret, M_ret, lift,
    raise.
  destruct (kilnauth_token W) as [hg_token|]; [|by left].
  destruct (kiln_get_repos W hg_token verbose verbose)
    as [kiln_repo_info|]; [|by left].
  rewrite fetch_github_run.
  destruct (git_repo_info_of _ _ _) as [git_repo_info|]; [|by left].
  destruct (certificate W); [|by left].
  set (sg := log (github_prints _ _ _) s).
  assert (url_to_callsign_map (when verbose (emit PrintFetching) sg).2
          = url_to_callsign_map s
          ∧ ∃ s1, when verbose (emit PrintFetching) sg = (Ok tt, s1))
    as [Hmap1 [s1 Hs1]].
  { destruct verbose; simpl; eauto. }
  rewrite Hs1 in *. simpl in Hmap1. unfold _retry.
  destruct (retry_loop_query W 3 verbose 3 0 s1)
    as (a & Ha & _ & Hmap2 & _ & Hres & _); [lia.. |].
  destruct (retry_loop _ _ _ _ _ s1) as [[[info|]|e] s2]; simpl in *.
  - right. exists (queries (trace s1) + a - 1), info.
    destruct (repository_query W _); [|done].
    split; [congruence|]. by destruct verbose.
  - left. congruence.
  - left. congruence.
Qed.

(** The dict at the end of [main] comes, by steps of the add loop, from
    the dict at its start or from the dict built from an answer of the
    query. *)
Lemma main_dict repo_rootdir options s :
  ∃ m1 repos,
    (m1 = url_to_callsign_map s
     ∨ ∃ (i : nat) info,
         repository_query W i = Ok info ∧ m1 = repo_to_callsign_map_of info)
    ∧ dict_steps repos m1
        (url_to_callsign_map (main W repo_rootdir options s).2).
Proof.
  rewrite main_run. cbv zeta.
  set (s0 := if verbose options then _ else s).
  assert (url_to_callsign_map s0 = url_to_callsign_map s) as Hs0
    by (subst s0; by destruct (verbose options)).
  pose proof (get_repos_dict (verbose options) s0) as Hget.
  cbv zeta in Hget. rewrite Hs0 in Hget.
  destruct (_get_repos_to_add_and_delete _ _ _)
    as [[[new_repos deleted_repos]|e] s1]; simpl in Hget.
  2:{ exists (url_to_callsign_map s1), []. split; [done | apply dict_stop]. }
  match goal with
  | |- context [add_loop _ _ _ _ _ ?s2] => set (s2' := s2)
  end.
  assert (url_to_callsign_map s2' = url_to_callsign_map s1) as Hs2
    by (subst s2'; by destruct (verbose options)).
  pose proof (add_loop_dict_steps W repo_rootdir options (sorted new_repos)
                0 s2') as Hsteps.
  rewrite Hs2 in Hsteps.
  exists (url_to_callsign_map s1), (sorted new_repos). split; [done|].
  destruct (add_loop _ _ _ _ _ _) as [[n|e] s3]; [|done]. simpl in Hsteps.
  match goal with
  | |- context [delete_loop _ ?s4] => set (s4' := s4)
  end.
  assert (url_to_callsign_map s4' = url_to_callsign_map s3) as Hs4
    by (subst s4'; by destruct (verbose options)).
  destruct (delete_loop_run (sorted deleted_repos) s4') as (Hdel & _).
  cbv zeta in Hdel.
  destruct (delete_loop _ _) as [[[]|e] s5]; simpl in *.
  - destruct (verbose options); simpl; by rewrite Hdel, Hs4.
  - by rewrite Hdel, Hs4.
Qed.

End PassDict.

(** X18: a pass keeps the callsigns of the dict apart.  An add loop that
    starts with a dict in which no two repositories have the same
    callsign ends with such a dict; and so does a whole run of [main]
    when, in addition, no answer of the query gives the same callsign
    to two repositories. *)
Theorem pass_keeps_callsigns_unique W repo_rootdir options :
  (∀ repos num_failures s,
     unique_callsigns (url_to_callsign_map s) →
     unique_callsigns
       (url_to_callsign_map
          (add_loop W repo_rootdir options repos num_failures s).2))
  ∧ ((∀ (i : nat) info,
        repository_query W i = Ok info →
        unique_callsigns (repo_to_callsign_map_of info)) →
     ∀ s, unique_callsigns (url_to_callsign_map s) →
          unique_callsigns
            (url_to_callsign_map (main W repo_rootdir options s).2)).
Proof.
  split.
  - intros repos n s Hs. eapply dict_steps_unique; [|done].
    apply add_loop_dict_steps.
  - intros Hquery s Hs.
    destruct (main_dict W repo_rootdir options s)
      as (m1 & repos & Hm1 & Hsteps).
    eapply dict_steps_unique; [done|].
    destruct Hm1 as [->|(i & info & Hinfo & ->)]; [done|].
    by eapply Hquery.
Qed.

Lemma pass_keeps_callsigns_unique_witness :
  unique_callsigns
    (url_to_callsign_map (main foo_twice "/repos" quiet initial_state).2).
Proof.
  refine (proj2 (pass_keeps_callsigns_unique foo_twice "/repos" quiet)
            _ initial_state _).
  - intros i info [= <-]. intros url1 url2 cs H1. by simpl in H1.
  - intros url1 url2 cs H1. by simpl in H1.
Defined.

(** ** Events of a kind over a whole pass *)

Section PassEvents.
Context (W : World) (p : event → bool).
Hypothesis Hp : ∀ ev, is_add_event ev = false → p ev = false.

Ltac adds_only :=
  repeat first
    [ apply adds_ret | apply adds_raise | apply adds_lift
    | apply adds_get_map | apply adds_set_map
    | apply adds_emit, Hp; reflexivity
    | apply adds_fetch_github; intros; apply Hp; reflexivity
    | apply adds_when
    | eapply adds_bind; [|intros]
    | eapply adds_try_except; [|intros]
    | match goal with
      | |- adds_at_most _ _ (match ?x with _ => _ end) => destruct x
      | |- adds_at_most _ _ (let (_, _) := ?x in _) => destruct x
      end ].

Lemma adds_query_only : adds_at_most p 0 (query W).
Proof.
  intros s. unfold query. simpl.
  rewrite count_events_app, count_events_singleton, Hp; [lia | done].
Qed.

Lemma adds_get_repos_only verbose :
  adds_at_most p 0 (_get_repos_to_add_and_delete W verbose).
Proof.
  unfold _get_repos_to_add_and_delete, _retry.
  eapply adds_weaken.
  - repeat first
      [ apply adds_retry_loop;
          [apply adds_query_only | intros; apply Hp; reflexivity]
      | progress adds_only ].
  - simpl. lia.
Qed.

Lemma adds_main_only repo_rootdir options :
  (∀ repo, adds_at_most p 0 (add_repository W repo_rootdir repo options)) →
  adds_at_most p 0 (main W repo_rootdir options).
Proof.
  intros Hadd. unfold main. eapply adds_weaken.
  - repeat first
      [ apply adds_get_repos_only
      | apply adds_add_loop; [done | intros; apply Hp; reflexivity]
      | apply adds_delete_loop; intros; apply Hp; reflexivity
      | progress adds_only ].
  - simpl. lia.
Qed.

End PassEvents.

Section Creates.
Context (W : World).
Import PyStr.

Lemma count_events_0 p tr ev :
  count_events p tr = 0 → ev ∈ tr → p ev = false.
Proof.
  intros Hcount Hev. destruct (p ev) eqn:Hpev; [|done].
  apply list_elem_of_split in Hev as (tr1 & tr2 & ->).
  change (ev :: tr2) with ([ev] ++ tr2) in Hcount.
  rewrite !count_events_app, count_events_singleton, Hpev in Hcount. lia.
Qed.

Lemma adds_add_repository_bad repo_rootdir repo options :
  adds_at_most (is_bad_create repo_rootdir) 0
    (add_repository W repo_rootdir repo options).
Proof.
  intros s. rewrite add_repository_run.
  destruct (match_prefix _ _) as [[vcs_type name]|] eqn:Hprefix;
    [|simpl; lia].
  destruct (_create_new_phabricator_callsign _ _) as [cs|] eqn:Halloc;
    [|simpl; lia].
  assert (well_formed_create repo_rootdir
            (CreateArgs name vcs_type cs repo
               true 60 (os_path_join repo_rootdir [vcs_type; name])) = true)
    as Hwf.
  { unfold well_formed_create. simpl.
    apply allocator_Ok in Halloc as (longest & k & Hmax & Hk & -> & _).
    rewrite !bool_decide_eq_true_2 by done. simpl.
    apply andb_true_iff. split.
    - apply candidate_callsign_capitals, name_parts_of_capitals.
    - apply negb_true_iff, String.eqb_neq.
      eapply candidate_callsign_nonempty; [|done].
      by apply py_max_Some in Hmax as [? _]. }
  cbv zeta. destruct (dry_run options).
  - cbn [snd trace log]. rewrite count_events_app, count_events_singleton.
    cbn [is_bad_create]. lia.
  - destruct (repository_create W _ _); cbn [snd trace log];
      rewrite !count_events_app, !count_events_singleton;
      cbn [is_bad_create]; rewrite Hwf; cbn [negb]; lia.
Qed.

End Creates.

(** X19: every call of create that a run of [main] makes is for a
    clone-url with a known prefix, with the kind and the name that
    follow from the url, the local path made of the root directory, the
    kind and the name, tracking on, a pull frequency of 60, and a
    callsign that is not empty and holds capital letters only. *)
Theorem creates_are_well_formed W repo_rootdir options args :
  CallCreate args ∈ trace (main W repo_rootdir options initial_state).2 →
  match_prefix prefix_map (arg_uri args) = Some (arg_vcs args, arg_name args)
  ∧ arg_localPath args
    = os_path_join repo_rootdir [arg_vcs args; arg_name args]
  ∧ arg_tracking args = true
  ∧ arg_pullFrequency args = 60
  ∧ capitals (arg_callsign args)
  ∧ arg_callsign args ≠ "".
Proof.
  intros Hin.
  pose proof (adds_main_only W (is_bad_create repo_rootdir)) as Hmain.
  specialize (Hmain (fun ev => ltac:(by destruct ev)) repo_rootdir options
                (fun repo => adds_add_repository_bad W _ _ _) initial_state).
  change (count_events _ (trace initial_state)) with 0 in Hmain.
  assert (count_events (is_bad_create repo_rootdir)
            (trace (main W repo_rootdir options initial_state).2) = 0)
    as Hcount by lia.
  apply (count_events_0 _ _ _ Hcount) in Hin. simpl in Hin.
  apply negb_false_iff in Hin. unfold well_formed_create in Hin.
  repeat (apply andb_true_iff in Hin as [Hin ?]).
  split_and!.
  - by eapply bool_decide_eq_true_1.
  - by eapply bool_decide_eq_true_1.
  - done.
  - by apply Nat.eqb_eq.
  - done.
  - by apply String.eqb_neq, negb_true_iff.
Qed.

Lemma creates_are_well_formed_witness :
  capitals "Z".
Proof.
  refine (proj1 (proj2 (proj2 (proj2 (proj2
            (creates_are_well_formed unknown_and_zebra "/repos" quiet
               (CreateArgs "zebra" "git" "Z" "https://github.com/Khan/zebra"
                  true 60 "/repos/git/zebra") _)))))).
  vm_compute. do 3 right. left.
Defined.

(** ** The count that [main] returns *)

Section ReturnedCount.
Context (W : World).

Lemma adds_get_repos_failure verbose :
  adds_at_most is_failure 0 (_get_repos_to_add_and_delete W verbose).
Proof.
  unfold _get_repos_to_add_and_delete, _retry.
  eapply adds_weaken.
  - repeat first
      [ apply adds_retry_loop; [apply adds_query_only; by intros [] | done]
      | adds_step
      | match goal with
        | |- adds_at_most _ _ (match ?x with _ => _ end) => destruct x
        end ].
  - simpl. lia.
Qed.

Lemma delete_loop_count p repos : ∀ s,
  (∀ url cs, p (PrintDeleted url cs) = false) →
  count_events p (trace (delete_loop repos s).2) = count_events p (trace s).
Proof.
  induction repos as [|repo rest IH]; intros s Hp; [done|].
  rewrite delete_loop_cons, delete_repository_run.
  destruct (url_to_callsign_map s !! repo) as [cs|]; [|done].
  specialize (IH (log [PrintDeleted repo cs] s) Hp).
  destruct (delete_loop rest _) as [[[]|e] s']; simpl in *;
    rewrite IH, count_events_app, count_events_singleton, Hp; lia.
Qed.

End ReturnedCount.

(** X20: the number that a run of [main] returns is the number of
    lines it has written on stderr. *)
Theorem main_returns_failure_count W repo_rootdir options num_failures :
  let run := main W repo_rootdir options initial_state in
  run.1 = Ok num_failures →
  count_events is_failure (trace run.2) = num_failures.
Proof.
  cbv zeta. rewrite main_run. cbv zeta.
  set (s0 := if verbose options then _ else initial_state).
  assert (count_events is_failure (trace s0) = 0) as Hs0
    by (subst s0; by destruct (verbose options)).
  pose proof (adds_get_repos_failure W (verbose options) s0) as Hget.
  destruct (_get_repos_to_add_and_delete _ _ _)
    as [[[new_repos deleted_repos]|e] s1]; [|done]. simpl in Hget.
  match goal with
  | |- context [add_loop _ _ _ _ _ ?s2] => set (s2' := s2)
  end.
  assert (count_events is_failure (trace s2') = 0) as Hs2.
  { subst s2'. destruct (verbose options); simpl; [|lia].
    rewrite count_events_app, count_events_singleton. simpl. lia. }
  pose proof (add_loop_counts_failures W repo_rootdir options
                (sorted new_repos) 0 s2') as Hadd.
  cbv zeta in Hadd.
  destruct (add_loop _ _ _ _ _ _) as [[n|e] s3]; [|done]. simpl in Hadd.
  match goal with
  | |- context [delete_loop _ ?s4] => set (s4' := s4)
  end.
  assert (count_events is_failure (trace s4') = n) as Hs4.
  { subst s4'. destruct (verbose options); simpl; [|lia].
    rewrite count_events_app, count_events_singleton. simpl. lia. }
  pose proof (delete_loop_count is_failure (sorted deleted_repos) s4'
                (fun _ _ => eq_refl)) as Hdel.
  destruct (delete_loop _ _) as [[[]|e] s5]; [|done]. simpl in Hdel.
  simpl. intros [= <-].
  destruct (verbose options); simpl; [|lia].
  rewrite count_events_app, count_events_singleton. simpl. lia.
Qed.

Lemma main_returns_failure_count_witness :
  count_events is_failure
    (trace (main unknown_and_zebra "/repos" quiet initial_state).2) = 1.
Proof.
  apply (main_returns_failure_count unknown_and_zebra "/repos" quiet 1).
  vm_compute. reflexivity.
Defined.

(** X21: without a certificate the query phase ends with an exception,
    leaves the dict as it found it and adds nothing to the trace but
    the lines of the fetches of github, none without [verbose]; when
    the fetches went through, the exception is KeyError; and a run of
    [main] then calls neither the query nor create. *)
Theorem no_certificate_no_call W :
  certificate W = None →
  (∀ verbose s,
     let run := _get_repos_to_add_and_delete W verbose s in
     (∃ e, run.1 = Raise e)
     ∧ url_to_callsign_map run.2 = url_to_callsign_map s
     ∧ (∃ urls, trace run.2 = trace s ++ (PrintFetchingUrl <$> urls)
                ∧ (verbose = false → urls = []))
     ∧ (∀ hg_token kiln_repo_info git_repo_info,
          kilnauth_token W = Ok hg_token →
          kiln_get_repos W hg_token verbose verbose = Ok kiln_repo_info →
          git_repo_info_of git_api_url (github W) [] = Ok git_repo_info →
          run.1 = Raise KeyError
          ∧ run.2 = log (github_prints verbose git_api_url (github W)) s))
  ∧ (∀ repo_rootdir options,
       let run := main W repo_rootdir options initial_state in
       (∃ e, run.1 = Raise e)
       ∧ count_events is_query (trace run.2) = 0
       ∧ count_events is_create (trace run.2) = 0).
Proof.
  intros Hcert.
  assert (∀ verbose s,
    let run := _get_repos_to_add_and_delete W verbose s in
    (∃ e, run.1 = Raise e)
    ∧ url_to_callsign_map run.2 = url_to_callsign_map s
    ∧ (∃ urls, trace run.2 = trace s ++ (PrintFetchingUrl <$> urls)
               ∧ (verbose = false → urls = []))
    ∧ (∀ hg_token kiln_repo_info git_repo_info,
         kilnauth_token W = Ok hg_token →
         kiln_get_repos W hg_token verbose verbose = Ok kiln_repo_info →
         git_repo_info_of git_api_url (github W) [] = Ok git_repo_info →
         run.1 = Raise KeyError
         ∧ run.2 = log (github_prints verbose git_api_url (github W)) s))
    as Hget.
  { intros verbose s. cbv zeta. rewrite get_repos_run. cbv zeta.
    rewrite Hcert.
    assert (∃ urls,
              github_prints verbose git_api_url (github W)
              = PrintFetchingUrl <$> urls
              ∧ (verbose = false → urls = [])) as (urls & Hurls & Hquiet).
    { unfold github_prints. destruct verbose; [by eexists | by exists []]. }
    destruct (kilnauth_token W) as [hg_token|e1] eqn:H1.
    2:{ split_and!; [by eexists | done | | intros; congruence].
        exists []. by rewrite app_nil_r. }
    destruct (kiln_get_repos W hg_token verbose verbose)
      as [kiln_repo_info|e2] eqn:H2.
    2:{ split_and!; [by eexists | done | | intros; congruence].
        exists []. by rewrite app_nil_r. }
    destruct (git_repo_info_of _ _ _) as [git_repo_info|e3] eqn:H3.
    2:{ split_and!; [by eexists | done | | intros; congruence].
        exists urls. simpl. by rewrite Hurls. }
    split_and!; [by eexists | done | | done].
    exists urls. simpl. by rewrite Hurls. }
  split; [done|]. intros repo_rootdir options. cbv zeta.
  rewrite main_run. cbv zeta.
  set (s0 := if verbose options then _ else initial_state).
  destruct (Hget (verbose options) s0) as ([e He] & _ & (urls & Htr & _) & _).
  destruct (_get_repos_to_add_and_delete _ _ _) as [[r|e'] s1];
    simpl in *; [done|].
  split_and!; [by eexists | |];
    rewrite Htr, count_events_app, count_events_fetching by done;
    subst s0; by destruct (verbose options).
Qed.

Lemma no_certificate_no_call_witness :
  (_get_repos_to_add_and_delete uncertified_world true initial_state).1
  = Raise KeyError.
Proof.
  refine (proj1 (proj2 (proj2 (proj2
            (proj1 (no_certificate_no_call uncertified_world _)
               true initial_state))) "token" [] _ _ _ _));
    reflexivity.
Defined.

(** ** A pass with nothing to do *)

Section QuietPass.
Context (W : World).

Lemma adds_retry_loop_quiet {A} p (cmd : M A) times exceptions idxs :
  adds_at_most p 0 cmd →
  adds_at_most p 0 (retry_loop cmd times false exceptions idxs).
Proof.
  intros Hcmd. induction idxs as [|i rest IH]; simpl.
  - apply adds_ret.
  - apply (adds_try_except p 0 0).
    + apply (adds_bind p 0 0); [apply Hcmd | intros; apply adds_ret].
    + intros why. case_decide; [apply adds_raise|].
      apply (adds_bind p 0 0); [apply adds_ret | intros; apply IH].
Qed.

Lemma adds_query_output : adds_at_most is_output 0 (query W).
Proof.
  intros s. unfold query. simpl.
  rewrite count_events_app, count_events_singleton. simpl. lia.
Qed.

Lemma adds_fetch_github_quiet p pages : ∀ git_api_url git_repo_info,
  adds_at_most p 0 (fetch_github false git_api_url pages git_repo_info).
Proof.
  intros url acc s. rewrite fetch_github_run. simpl. rewrite app_nil_r. lia.
Qed.

(** Without [verbose] the query phase writes no line. *)
Lemma adds_get_repos_quiet :
  adds_at_most is_output 0 (_get_repos_to_add_and_delete W false).
Proof.
  unfold _get_repos_to_add_and_delete, _retry, when.
  eapply adds_weaken.
  - repeat first
      [ apply adds_retry_loop_quiet, adds_query_output
      | apply adds_fetch_github_quiet
      | apply adds_ret | apply adds_raise | apply adds_lift
      | apply adds_set_map
      | eapply adds_bind; [|intros]
      | match goal with
        | |- adds_at_most _ _ (match ?x with _ => _ end) => destruct x
        end ].
  - simpl. lia.
Qed.

End QuietPass.

(** X22: a run without [verbose] in which the query phase finds nothing
    to add and nothing to delete returns 0 in the state in which the
    query phase ended, and the query phase has written no line: the
    run is silent. *)
Theorem quiet_pass_without_changes W repo_rootdir options s s1 :
  verbose options = false →
  _get_repos_to_add_and_delete W false s = (Ok (∅, ∅), s1) →
  main W repo_rootdir options s = (Ok 0, s1)
  ∧ count_events is_output (trace s1) ≤ count_events is_output (trace s).
Proof.
  intros Hquiet Hget. split.
  - rewrite main_run, Hquiet. cbv zeta. by rewrite Hget.
  - pose proof (adds_get_repos_quiet W s) as Hadds.
    rewrite Hget in Hadds. simpl in Hadds. lia.
Qed.

Lemma quiet_pass_without_changes_witness :
  main (github_world ["https://github.com/Khan/old.git"] [old_repo]
          (fun _ => None)) "/repos" quiet initial_state
  = (Ok 0, State {["https://github.com/Khan/old" := "O"]} [CallQuery]).
Proof.
  refine (proj1 (quiet_pass_without_changes _ "/repos" quiet initial_state
                   _ _ _)).
  - reflexivity.
  - vm_compute. reflexivity.
Defined.

(** ** The add loop and the allocator, once more *)

Section LoopBounds.
Context (W : World).

Lemma add_loop_total repo_rootdir options repos : ∀ (num_failures : nat) s,
  ∀ total : nat,
    (add_loop W repo_rootdir options repos num_failures s).1 = Ok total →
    num_failures ≤ total ≤ num_failures + length repos.
Proof.
  induction repos as [|repo rest IH]; intros n s total.
  { simpl. intros [= <-]. lia. }
  rewrite add_loop_cons.
  destruct (add_repository _ _ _ _ _) as [[[]|e] s1].
  - intros Htotal%IH. simpl. lia.
  - destruct (caught_in_main e); [|done]. intros Htotal%IH. simpl. lia.
Qed.

End LoopBounds.

(** X23: the add loop never lets an APIError or a NameError out, and
    the count it returns has grown by at most the number of
    repositories it went through. *)
Theorem add_loop_bounds W repo_rootdir options repos (num_failures : nat) s :
  let run := add_loop W repo_rootdir options repos num_failures s in
  (∀ e, run.1 = Raise e → e ≠ APIError ∧ e ≠ NameError)
  ∧ (∀ total : nat, run.1 = Ok total →
       num_failures ≤ total ≤ num_failures + length repos).
Proof.
  cbv zeta. split.
  - intros e He.
    pose proof (add_loop_counts_failures W repo_rootdir options repos
                  num_failures s) as Hcount.
    cbv zeta in Hcount. rewrite He in Hcount.
    split; intros ->; done.
  - apply add_loop_total.
Qed.

Lemma add_loop_bounds_witness :
  0 ≤ 1 ≤ 0 + length ["https://example.org/Group";
                      "https://github.com/Khan/zebra"].
Proof.
  apply (proj2 (add_loop_bounds unknown_and_zebra "/repos" quiet
                  ["https://example.org/Group";
                   "https://github.com/Khan/zebra"] 0 initial_state) 1).
  vm_compute. reflexivity.
Defined.

Section MoreInUse.

Lemma candidate_callsign_length_le name_parts (j k : nat) :
  j ≤ k →
  String.length (candidate_callsign name_parts j)
  ≤ String.length (candidate_callsign name_parts k).
Proof.
  intros Hjk. rewrite !candidate_callsign_length.
  induction name_parts as [|w ws IH]; csimpl; lia.
Qed.

End MoreInUse.

(** X24: more callsigns in use never give a shorter callsign.  When the
    allocator returns a callsign with a set in use, it returns one with
    every smaller set, the callsign of the smaller set is not longer,
    and it is the same one when the callsign of the smaller set is not
    in the larger set. *)
Theorem allocator_monotone repo_name (existing larger : gset string) cs' :
  existing ⊆ larger →
  _create_new_phabricator_callsign repo_name larger = Ok cs' →
  ∃ cs,
    _create_new_phabricator_callsign repo_name existing = Ok cs
    ∧ String.length cs ≤ String.length cs'
    ∧ (cs ∉ larger → cs = cs').
Proof.
  intros Hsub (longest & k' & Hmax & Hk' & -> & Hfree' & Hused')%allocator_Ok.
  destruct (_create_new_phabricator_callsign repo_name existing)
    as [cs|e] eqn:Halloc.
  - exists cs. split; [done|].
    apply allocator_Ok in Halloc as (? & k & ? & Hk & -> & Hfree & Hused).
    simplify_eq.
    assert (k ≤ k') as Hle.
    { destruct (decide (k ≤ k')) as [?|Hgt]; [done|].
      destruct Hfree'. apply Hsub, Hused. lia. }
    split; [by apply candidate_callsign_length_le|].
    intros Hnot. destruct (decide (k = k')) as [->|Hne]; [done|].
    destruct Hnot. apply Hused'. lia.
  - exfalso. unfold _create_new_phabricator_callsign in Halloc.
    rewrite Hmax in Halloc.
    destruct (callsign_loop _ _ _) as [c|] eqn:Hloop; [done|].
    destruct Hfree'. apply Hsub.
    eapply callsign_loop_None; [done | lia].
Qed.

Lemma allocator_monotone_witness :
  ∃ cs,
    _create_new_phabricator_callsign "foo-website" ∅ = Ok cs
    ∧ String.length cs ≤ String.length "FO"
    ∧ (cs ∉ ({["F"]} : gset string) → cs = "FO").
Proof.
  apply (allocator_monotone "foo-website" ∅ {["F"]} "FO").
  - set_solver.
  - vm_compute. reflexivity.
Defined.

(** ** Verbose and quiet runs *)

Section Verbose.
Context (W : World).
Hypothesis Hcreate : create_ignores_prints W.
Hypothesis Hkiln : kiln_ignores_verbose W.

Lemma calls_of_app tr1 tr2 :
  calls_of (tr1 ++ tr2) = calls_of tr1 ++ calls_of tr2.
Proof. apply filter_app. Qed.

Lemma calls_of_singleton ev :
  calls_of [ev] = if is_query ev || is_create ev then [ev] else [].
Proof.
  unfold calls_of. rewrite filter_cons.
  by destruct (is_query ev || is_create ev).
Qed.

Lemma queries_calls_of tr : queries (calls_of tr) = queries tr.
Proof.
  induction tr as [|ev tr IH]; [done|].
  change (ev :: tr) with ([ev] ++ tr).
  rewrite calls_of_app, !queries_app, IH, calls_of_singleton.
  by destruct ev.
Qed.

Lemma agrees_ret {A} (a : A) : agrees (mret a) (mret a).
Proof. by intros s1 s2 H. Qed.

Lemma agrees_raise {A} e : agrees (raise e : M A) (raise e).
Proof. by intros s1 s2 H. Qed.

Lemma agrees_lift {A} (r : result A) : agrees (lift r) (lift r).
Proof. by intros s1 s2 H. Qed.

Lemma agrees_get_map : agrees get_map get_map.
Proof. intros s1 s2 [Hmap Htr]. simpl. by rewrite Hmap. Qed.

Lemma agrees_set_map m : agrees (set_map m) (set_map m).
Proof. by intros s1 s2 [Hmap Htr]. Qed.

Lemma agrees_emit ev : agrees (emit ev) (emit ev).
Proof.
  intros s1 s2 [Hmap Htr]. unfold emit, same_calls. simpl.
  by rewrite !calls_of_app, Htr.
Qed.

(** A line that only one of the two runs prints. *)
Lemma agrees_emit_l ev : is_output ev = true → agrees (emit ev) (mret tt).
Proof.
  intros Hev s1 s2 [Hmap Htr]. unfold emit, same_calls. simpl.
  rewrite calls_of_app, calls_of_singleton.
  unfold is_output in Hev. apply negb_true_iff in Hev as ->.
  by rewrite app_nil_r.
Qed.

Lemma agrees_seq_l (m1 m2 : M unit) :
  agrees m1 (mret tt) → agrees m2 (mret tt) → agrees (m1 ;; m2) (mret tt).
Proof.
  intros H1 H2 s1 s2 Hs. unfold mbind, M_bind.
  destruct (H1 s1 s2 Hs) as [Hr Hs']. simpl in Hr, Hs'.
  destruct (m1 s1) as [[[]|e] s1']; simpl in *; [|done].
  by apply H2.
Qed.

Lemma agrees_bind {A B} (m1 m2 : M A) (f1 f2 : A → M B) :
  agrees m1 m2 → (∀ a, agrees (f1 a) (f2 a)) →
  agrees (m1 ≫= f1) (m2 ≫= f2).
Proof.
  intros Hm Hf s1 s2 Hs. unfold mbind, M_bind.
  destruct (Hm s1 s2 Hs) as [Hr Hs'].
  destruct (m1 s1) as [[a1|e1] s1'], (m2 s2) as [[a2|e2] s2'];
    simpl in *; simplify_eq; [by apply Hf | done].
Qed.

Lemma agrees_when b (m1 m2 : M unit) :
  agrees m1 m2 → agrees (when b m1) (when b m2).
Proof. intros Hm. destruct b; [done | apply agrees_ret]. Qed.

Lemma agrees_try_except {A} (body1 body2 : M A) classes handler1 handler2 :
  agrees body1 body2 → (∀ e, agrees (handler1 e) (handler2 e)) →
  agrees (try_except body1 classes handler1)
    (try_except body2 classes handler2).
Proof.
  intros Hm Hh s1 s2 Hs. unfold try_except.
  destruct (Hm s1 s2 Hs) as [Hr Hs'].
  destruct (body1 s1) as [[a1|e1] s1'], (body2 s2) as [[a2|e2] s2'];
    simpl in *; simplify_eq; [done|].
  destruct (classes e2); [by apply Hh | done].
Qed.

Lemma agrees_query : agrees (query W) (query W).
Proof.
  intros s1 s2 [Hmap Htr]. unfold query, same_calls. simpl.
  rewrite <-(queries_calls_of (trace s1)), Htr, queries_calls_of.
  by rewrite !calls_of_app, Htr.
Qed.

Lemma agrees_create args : agrees (create W args) (create W args).
Proof.
  intros s1 s2 [Hmap Htr]. unfold create, same_calls.
  rewrite (Hcreate _ _ args Htr).
  destruct (repository_create W _ _); simpl;
    by rewrite !calls_of_app, Htr.
Qed.

Ltac agrees_step :=
  first
    [ apply agrees_ret | apply agrees_raise | apply agrees_lift
    | apply agrees_get_map | apply agrees_set_map
    | apply agrees_query | apply agrees_create
    | apply agrees_emit
    | apply agrees_emit_l; reflexivity
    | apply agrees_seq_l
    | apply agrees_when
    | apply agrees_bind; [|intros]
    | apply agrees_try_except; [|intros]
    | match goal with
      | |- agrees (match ?x with _ => _ end) _ => destruct x
      | |- agrees (let (_, _) := ?x in _) _ => destruct x
      end ].

Lemma agrees_retry_loop times exceptions idxs :
  agrees (retry_loop (query W) times true exceptions idxs)
         (retry_loop (query W) times false exceptions idxs).
Proof.
  induction idxs as [|i rest IH]; simpl; [apply agrees_ret|].
  unfold when. repeat first [apply IH | agrees_step].
Qed.

Lemma agrees_fetch_github pages : ∀ git_api_url git_repo_info,
  agrees (fetch_github true git_api_url pages git_repo_info)
         (fetch_github false git_api_url pages git_repo_info).
Proof.
  induction pages as [e|clone_urls|clone_urls next rest IH];
    intros url acc; simpl; case_bool_decide; unfold when;
    repeat first [apply IH | agrees_step].
Qed.

Lemma agrees_get_repos :
  agrees (_get_repos_to_add_and_delete W true)
         (_get_repos_to_add_and_delete W false).
Proof.
  unfold _get_repos_to_add_and_delete, _retry, when.
  apply agrees_bind; [apply agrees_lift|]. intros hg_token.
  rewrite Hkiln.
  repeat first [apply agrees_retry_loop | apply agrees_fetch_github
               | agrees_step].
Qed.

Lemma agrees_add_loop repo_rootdir dry repos : ∀ num_failures,
  agrees
    (add_loop W repo_rootdir (with_dry_run true dry) repos num_failures)
    (add_loop W repo_rootdir (with_dry_run false dry) repos num_failures).
Proof.
  induction repos as [|repo rest IH]; intros n; simpl.
  - apply agrees_ret.
  - unfold add_repository. simpl. repeat first [apply IH | agrees_step].
Qed.

Lemma agrees_delete_loop repos : agrees (delete_loop repos) (delete_loop repos).
Proof.
  induction repos as [|repo rest IH]; simpl; [apply agrees_ret|].
  unfold delete_repository. repeat first [apply IH | agrees_step].
Qed.

Lemma agrees_main repo_rootdir dry :
  agrees (main W repo_rootdir (with_dry_run true dry))
         (main W repo_rootdir (with_dry_run false dry)).
Proof.
  unfold main, when. simpl.
  repeat first [ apply agrees_get_repos | apply agrees_add_loop
               | apply agrees_delete_loop | agrees_step ].
Qed.

End Verbose.

(** X25: with a kiln fetch whose outcome does not depend on the flags
    that [verbose] is passed for, and a registry whose answer to a
    create does not depend on what the script has printed, [verbose]
    changes nothing but the lines that are printed: the run returns the
    same count or raises the same exception, ends with the same dict
    and has made the same calls of the API in the same order. *)
Theorem verbose_only_prints W repo_rootdir dry :
  kiln_ignores_verbose W →
  create_ignores_prints W →
  let loud := main W repo_rootdir (with_dry_run true dry) initial_state in
  let quiet := main W repo_rootdir (with_dry_run false dry) initial_state in
  loud.1 = quiet.1
  ∧ url_to_callsign_map loud.2 = url_to_callsign_map quiet.2
  ∧ calls_of (trace loud.2) = calls_of (trace quiet.2).
Proof.
  intros Hkiln Hcreate.
  destruct (agrees_main W Hcreate Hkiln repo_rootdir dry initial_state
              initial_state) as (Hr & Hmap & Htr); done.
Qed.

Lemma verbose_only_prints_witness :
  (main foo_twice "/repos" (with_dry_run true false) initial_state).1
  = (main foo_twice "/repos" (with_dry_run false false) initial_state).1.
Proof.
  refine (proj1 (verbose_only_prints foo_twice "/repos" false _ _)).
  - intros hg_token. reflexivity.
  - intros tr tr' args _. reflexivity.
Defined.

(** ** The dict and the registry *)

Section Accepted.
Context (W : World).

(** Without [dry_run], [add_repository] changes the dict only with a
    create that the registry has accepted as the last event. *)
Lemma add_repository_accepted repo_rootdir repo options s :
  dry_run options = false →
  let run := add_repository W repo_rootdir repo options s in
  url_to_callsign_map run.2 = url_to_callsign_map s
  ∨ ∃ cs tr1 args,
      url_to_callsign_map run.2 = <[repo := cs]> (url_to_callsign_map s)
      ∧ trace run.2 = tr1 ++ [CallCreate args]
      ∧ arg_uri args = repo ∧ arg_callsign args = cs
      ∧ repository_create W tr1 args = None.
Proof.
  intros Hdry. cbv zeta. rewrite add_repository_run, Hdry.
  destruct (match_prefix _ _) as [[vcs_type name]|]; [|by left].
  destruct (_create_new_phabricator_callsign _ _) as [cs|]; [|by left].
  cbv zeta. destruct (repository_create W _ _) eqn:Hrc; [by left|].
  right. eexists cs, _, _. simpl. split_and!; [done | done | done | done |].
  exact Hrc.
Qed.

Lemma add_loop_accepted repo_rootdir options repos :
  dry_run options = false →
  ∀ num_failures s,
    NoDup repos →
    (∀ url, url ∈ repos → url_to_callsign_map s !! url = None) →
    let run := add_loop W repo_rootdir options repos num_failures s in
    ∀ url cs,
      url ∈ repos → url_to_callsign_map run.2 !! url = Some cs →
      ∃ tr1 tr2 args,
        trace run.2 = tr1 ++ CallCreate args :: tr2
        ∧ arg_uri args = url ∧ arg_callsign args = cs
        ∧ repository_create W tr1 args = None.
Proof.
  intros Hdry. induction repos as [|repo rest IH];
    intros n s Hnodup Hfresh; cbv zeta.
  { by intros url cs ?%elem_of_nil. }
  apply NoDup_cons in Hnodup as [Hrepo Hnodup].
  rewrite add_loop_cons.
  pose proof (add_repository_accepted repo_rootdir repo options s Hdry)
    as Hadd. cbv zeta in Hadd.
  (* the state from which the rest of the loop runs, if it does *)
  assert (∀ n' s',
    (url_to_callsign_map s' = url_to_callsign_map s
     ∨ ∃ cs0 tr1 tr2 args,
         url_to_callsign_map s' = <[repo := cs0]> (url_to_callsign_map s)
         ∧ trace s' = tr1 ++ CallCreate args :: tr2
         ∧ arg_uri args = repo ∧ arg_callsign args = cs0
         ∧ repository_create W tr1 args = None) →
    ∀ url cs,
      url ∈ repo :: rest →
      url_to_callsign_map
        (add_loop W repo_rootdir options rest n' s').2 !! url = Some cs →
      ∃ tr1 tr2 args,
        trace (add_loop W repo_rootdir options rest n' s').2
        = tr1 ++ CallCreate args :: tr2
        ∧ arg_uri args = url ∧ arg_callsign args = cs
        ∧ repository_create W tr1 args = None) as Hrest.
  { intros n' s' Hs' url cs Hurl Hcs.
    assert (∀ url', url' ∈ rest → url_to_callsign_map s' !! url' = None)
      as Hfresh'.
    { intros url' Hurl'.
      destruct Hs' as [->|(cs0 & _ & _ & _ & -> & _)].
      - apply Hfresh. by right.
      - rewrite lookup_insert_ne by (by intros ->). apply Hfresh. by right. }
    apply elem_of_cons in Hurl as [->|Hurl]; [|by eapply IH].
    destruct (dict_steps_facts _ _ _
                (add_loop_dict_steps W repo_rootdir options rest n' s')
                Hnodup Hfresh') as (_ & Hother & _).
    rewrite (Hother repo Hrepo) in Hcs.
    destruct Hs' as [Hmap|(cs0 & tr1 & tr2 & args & Hmap & Htr & ? & ? & ?)].
    - rewrite Hmap, Hfresh in Hcs; [done | left].
    - rewrite Hmap, lookup_insert_eq in Hcs. injection Hcs as <-.
      destruct (add_loop_events W repo_rootdir options rest n' s')
        as (evs & Hevs & _).
      exists tr1, (tr2 ++ evs), args. rewrite Hevs, Htr.
      by rewrite <-(assoc_L (++)). }
  destruct (add_repository _ _ _ _ _) as [[[]|e] s1]; simpl in Hadd.
  - apply Hrest.
    destruct Hadd as [?|(cs0 & tr1 & args & ? & ? & ? & ? & ?)]; [by left|].
    right. by exists cs0, tr1, [], args.
  - destruct (caught_in_main e).
    + apply Hrest.
      destruct Hadd as [?|(cs0 & tr1 & args & ? & Htr & ? & ? & ?)];
        [by left|].
      right. exists cs0, tr1, [ErrUnableToAdd repo e], args.
      simpl. rewrite Htr. by rewrite <-(assoc_L (++)).
    + simpl. intros url cs Hurl Hcs.
      destruct Hadd as [Hmap|(cs0 & tr1 & args & Hmap & Htr & ? & ? & ?)].
      * rewrite Hmap, Hfresh in Hcs; done.
      * destruct (decide (url = repo)) as [->|Hne].
        -- rewrite Hmap, lookup_insert_eq in Hcs. injection Hcs as <-.
           by exists tr1, [], args.
        -- rewrite Hmap, lookup_insert_ne, Hfresh in Hcs; done.
Qed.

End Accepted.

(** X26: without [dry_run], the dict gets an entry only for a create
    that the registry has accepted: for every repository that an add
    loop over fresh repositories has put into the dict, the trace holds
    a call of create with this clone-url and this callsign, to which
    the registry answered without an exception. *)
Theorem dict_entries_were_created W repo_rootdir options
    (new_repos : gset string) num_failures s :
  dry_run options = false →
  (∀ url, url ∈ new_repos → url_to_callsign_map s !! url = None) →
  let run :=
    add_loop W repo_rootdir options (sorted new_repos) num_failures s in
  ∀ url cs,
    url ∈ new_repos → url_to_callsign_map run.2 !! url = Some cs →
    ∃ tr1 tr2 args,
      trace run.2 = tr1 ++ CallCreate args :: tr2
      ∧ arg_uri args = url ∧ arg_callsign args = cs
      ∧ repository_create W tr1 args = None.
Proof.
  intros Hdry Hfresh run url cs Hurl Hcs.
  eapply (add_loop_accepted W repo_rootdir options (sorted new_repos) Hdry
            num_failures s); [apply sorted_NoDup | | | done].
  - intros url' Hurl'. by apply Hfresh, elem_of_sorted.
  - by apply elem_of_sorted.
Qed.

Lemma dict_entries_were_created_witness :
  ∃ tr1 tr2 args,
    trace (add_loop foo_twice "/repos" quiet
             (sorted {["https://github.com/Khan/foo-group"]}) 0
             initial_state).2
    = tr1 ++ CallCreate args :: tr2
    ∧ arg_uri args = "https://github.com/Khan/foo-group"
    ∧ arg_callsign args = "F"
    ∧ repository_create foo_twice tr1 args = None.
Proof.
  refine (dict_entries_were_created foo_twice "/repos" quiet
            {["https://github.com/Khan/foo-group"]} 0 initial_state _ _
            "https://github.com/Khan/foo-group" "F" _ _).
  - reflexivity.
  - intros url _. reflexivity.
  - set_solver.
  - vm_compute. reflexivity.
Defined.
(** * The pass as a whole *)

(** ** What a part of the pass leaves out of the trace *)

Section AddsNone.
Context (W : World) (p : event → bool).

Lemma filter_snoc_false ev tr :
  p ev = false → filter p (tr ++ [ev]) = filter p tr.
Proof.
  intros Hev.
  rewrite filter_app, filter_cons_False, filter_nil, app_nil_r; [done|].
  rewrite Hev. auto.
Qed.

Lemma none_ret {A} (a : A) : adds_none p (mret a).
Proof. by intros s. Qed.

Lemma none_raise {A} e : adds_none p (raise e : M A).
Proof. by intros s. Qed.

Lemma none_lift {A} (r : result A) : adds_none p (lift r).
Proof. by intros s. Qed.

Lemma none_get_map : adds_none p get_map.
Proof. by intros s. Qed.

Lemma none_set_map m : adds_none p (set_map m).
Proof. by intros s. Qed.

Lemma none_emit ev : p ev = false → adds_none p (emit ev).
Proof. intros Hev s. by apply filter_snoc_false. Qed.

Lemma none_bind {A B} (m : M A) (f : A → M B) :
  adds_none p m → (∀ a, adds_none p (f a)) → adds_none p (m ≫= f).
Proof.
  intros Hm Hf s. unfold mbind, M_bind. specialize (Hm s).
  destruct (m s) as [[a|e] s']; simpl in *; [|done]. by rewrite Hf.
Qed.

Lemma none_when b (m : M unit) : adds_none p m → adds_none p (when b m).
Proof. intros Hm. destruct b; [done | apply none_ret]. Qed.

Lemma none_try_except {A} (body : M A) classes handler :
  adds_none p body → (∀ e, adds_none p (handler e)) →
  adds_none p (try_except body classes handler).
Proof.
  intros Hm Hh s. unfold try_except. specialize (Hm s).
  destruct (body s) as [[a|e] s']; simpl in *; [done|].
  destruct (classes e); [|done]. by rewrite Hh.
Qed.

Lemma none_log evs s :
  Forall (fun ev => p ev = false) evs →
  filter p (trace (log evs s)) = filter p (trace s).
Proof.
  intros Hevs. unfold log. simpl. rewrite filter_app.
  assert (filter p evs = []) as ->; [|by rewrite app_nil_r].
  induction Hevs as [|ev evs Hev _ IH]; [done|].
  rewrite filter_cons_False, IH; [done|]. rewrite Hev. auto.
Qed.

Lemma none_fetch_github verbose pages git_api_url git_repo_info :
  (∀ url, p (PrintFetchingUrl url) = false) →
  adds_none p (fetch_github verbose git_api_url pages git_repo_info).
Proof.
  intros Hp s. rewrite fetch_github_run. simpl.
  apply none_log. unfold github_prints. destruct verbose; [|done].
  apply Forall_fmap, Forall_forall. intros url _. apply Hp.
Qed.

Lemma none_query : p CallQuery = false → adds_none p (query W).
Proof. intros Hp s. by apply filter_snoc_false. Qed.

Lemma none_create args :
  p (CallCreate args) = false → adds_none p (create W args).
Proof.
  intros Hp s. unfold create.
  destruct (repository_create W _ _); by apply filter_snoc_false.
Qed.

Lemma none_retry_loop {A} (cmd : M A) times verbose exceptions idxs :
  adds_none p cmd → (∀ why, p (PrintRetrying why) = false) →
  adds_none p (retry_loop cmd times verbose exceptions idxs).
Proof.
  intros Hcmd Hp. induction idxs as [|i rest IH]; simpl.
  - apply none_ret.
  - apply none_try_except.
    + apply none_bind; [done | intros; apply none_ret].
    + intros why. case_decide; [apply none_raise|].
      apply none_bind; [|done]. apply none_when, none_emit, Hp.
Qed.

Lemma none_get_repos verbose :
  p CallQuery = false →
  (∀ url, p (PrintFetchingUrl url) = false) →
  p PrintFetching = false →
  (∀ why, p (PrintRetrying why) = false) →
  (∀ kind lst, p (PrintExisting kind lst) = false) →
  adds_none p (_get_repos_to_add_and_delete W verbose).
Proof.
  intros Hquery Hurl Hfetching Hretrying Hexisting.
  unfold _get_repos_to_add_and_delete, _retry.
  repeat first
    [ apply none_ret | apply none_raise | apply none_lift
    | apply none_set_map
    | by apply none_fetch_github
    | apply none_retry_loop; [by apply none_query | done]
    | by apply none_emit
    | apply none_when
    | apply none_bind; [|intros]
    | match goal with
      | |- adds_none _ (match ?x with _ => _ end) => destruct x
      end ].
Qed.

Lemma none_add_repository repo_rootdir repo options :
  (∀ name url cs vcs destdir,
     p (PrintAdding name url cs vcs destdir) = false) →
  (∀ args, p (CallCreate args) = false) →
  adds_none p (add_repository W repo_rootdir repo options).
Proof.
  intros Hadding Hcreate. unfold add_repository.
  repeat first
    [ apply none_ret | apply none_raise | apply none_lift
    | apply none_get_map | apply none_set_map
    | by apply none_create
    | by apply none_emit
    | apply none_when
    | apply none_bind; [|intros]
    | match goal with
      | |- adds_none _ (match ?x with _ => _ end) => destruct x
      | |- adds_none _ (let (_, _) := ?x in _) => destruct x
      end ].
Qed.

Lemma none_add_loop repo_rootdir options repos :
  (∀ repo, adds_none p (add_repository W repo_rootdir repo options)) →
  (∀ repo why, p (ErrUnableToAdd repo why) = false) →
  ∀ num_failures,
    adds_none p (add_loop W repo_rootdir options repos num_failures).
Proof.
  intros Hadd Herr.
  induction repos as [|repo rest IH]; intros num_failures; simpl.
  - apply none_ret.
  - apply none_bind; [|intros; apply IH].
    apply none_try_except.
    + apply none_bind; [apply Hadd | intros; apply none_ret].
    + intros. apply none_bind; [|intros; apply none_ret].
      apply none_emit, Herr.
Qed.

Lemma none_delete_loop repos :
  (∀ url cs, p (PrintDeleted url cs) = false) →
  adds_none p (delete_loop repos).
Proof.
  intros Hdel. induction repos as [|repo rest IH]; simpl.
  - apply none_ret.
  - apply none_bind; [|intros; apply IH].
    unfold delete_repository. apply none_bind; [apply none_get_map|].
    intros m. destruct (m !! repo); [apply none_emit, Hdel|].
    apply none_raise.
Qed.

End AddsNone.

(** ** The calls of the query in a pass *)

Section QueryPhase.
Context (W : World).

Lemma queries_filter tr1 tr2 :
  filter is_query tr1 = filter is_query tr2 → queries tr1 = queries tr2.
Proof. unfold queries, count_events. by intros ->. Qed.

Lemma queries_snoc tr ev :
  queries (tr ++ [ev]) = queries tr + if is_query ev then 1 else 0.
Proof.
  unfold queries. by rewrite count_events_app, count_events_singleton.
Qed.

Lemma queries_pass_start options s :
  queries (trace (pass_start options s)) = queries (trace s).
Proof.
  unfold pass_start. destruct (verbose options); [|done].
  simpl. rewrite !queries_snoc. simpl. lia.
Qed.

(** The calls of the query in the query phase, whatever comes before
    them. *)
Lemma get_repos_attempts verbose s :
  let run := _get_repos_to_add_and_delete W verbose s in
  let k := queries (trace s) in
  ∃ attempts : nat,
    queries (trace run.2) = k + attempts
    ∧ attempts ≤ 3
    ∧ (∀ j : nat, j + 1 < attempts →
         repository_query W (k + j) = Raise SocketTimeout)
    ∧ (0 < attempts < 3 →
         repository_query W (k + attempts - 1) ≠ Raise SocketTimeout)
    ∧ (∀ e, 0 < attempts →
         repository_query W (k + attempts - 1) = Raise e →
         run.1 = Raise e).
Proof.
  cbv zeta.
  assert (∀ r s',
            queries (trace s') = queries (trace s) →
            _get_repos_to_add_and_delete W verbose s = (r, s') →
            ∃ attempts : nat,
              queries (trace (_get_repos_to_add_and_delete W verbose s).2)
              = queries (trace s) + attempts
              ∧ attempts ≤ 3
              ∧ (∀ j : nat, j + 1 < attempts →
                   repository_query W (queries (trace s) + j)
                   = Raise SocketTimeout)
              ∧ (0 < attempts < 3 →
                   repository_query W (queries (trace s) + attempts - 1)
                   ≠ Raise SocketTimeout)
              ∧ (∀ e, 0 < attempts →
                   repository_query W (queries (trace s) + attempts - 1)
                   = Raise e →
                   (_get_repos_to_add_and_delete W verbose s).1 = Raise e))
    as Hnone.
  { intros r s' Hs' ->. exists 0. simpl. split_and!; try lia. }
  assert (queries (trace (log (github_prints verbose git_api_url (github W))
                            s)) = queries (trace s)) as Hprints.
  { simpl. rewrite queries_app, queries_github_prints. lia. }
  destruct (kilnauth_token W) as [hg_token|e1] eqn:H1.
  2:{ eapply Hnone; [|by rewrite get_repos_run; cbv zeta; rewrite H1].
      done. }
  destruct (kiln_get_repos W hg_token verbose verbose)
    as [kiln_repo_info|e2] eqn:H2.
  2:{ eapply Hnone; [|by rewrite get_repos_run; cbv zeta; rewrite H1, H2].
      done. }
  destruct (git_repo_info_of git_api_url (github W) [])
    as [git_repo_info|e3] eqn:H3.
  2:{ eapply Hnone;
        [|by rewrite get_repos_run; cbv zeta; rewrite H1, H2, H3].
      done. }
  destruct (certificate W) as [cert|] eqn:H4.
  2:{ eapply Hnone;
        [|by rewrite get_repos_run; cbv zeta; rewrite H1, H2, H3, H4].
      done. }
  clear Hnone.
  destruct (get_repos_query W verbose s _ _ _ _ H1 H2 H3 H4)
    as (a & Ha & Hpre & Hstop & Hrun).
  cbv zeta in Hrun. rewrite Hrun. exists a.
  set (before := github_prints verbose git_api_url (github W)
                 ++ (if verbose then [PrintFetching] else [])) in *.
  assert (queries before = 0) as Hbefore.
  { subst before. rewrite queries_app, queries_github_prints.
    by destruct verbose. }
  destruct (repository_query W (queries (trace s) + a - 1)) as [info|e];
    simpl; split_and!; try done; try lia; try (intros; apply Hstop; lia).
  - match goal with
    | |- context [retry_events verbose a ++ ?l] => set (after := l)
    end.
    assert (queries after = 0) as Hafter
      by (subst after; by destruct verbose).
    rewrite !queries_app, Hbefore, Hafter, queries_retry_events. lia.
  - rewrite !queries_app, Hbefore, queries_retry_events. lia.
  - by intros e' _ [= ->].
Qed.

Lemma main_get_Raise repo_rootdir options s e :
  (_get_repos_to_add_and_delete W (verbose options)
     (pass_start options s)).1 = Raise e →
  (main W repo_rootdir options s).1 = Raise e.
Proof.
  rewrite main_run. cbv zeta. fold (pass_start options s).
  destruct (_get_repos_to_add_and_delete _ _ _)
    as [[[new_repos deleted_repos]|e'] s1]; simpl; intros H;
    [discriminate H | by injection H as ->].
Qed.

(** All the calls of the query in a pass are calls of the query phase. *)
Lemma main_queries repo_rootdir options s :
  queries (trace (main W repo_rootdir options s).2)
  = queries (trace (_get_repos_to_add_and_delete W (verbose options)
                      (pass_start options s)).2).
Proof.
  rewrite main_run. cbv zeta. fold (pass_start options s).
  destruct (_get_repos_to_add_and_delete _ _ _)
    as [[[new_repos deleted_repos]|e] s1]; [|done]. simpl.
  match goal with
  | |- context [add_loop _ _ _ _ _ ?s2] => set (s2' := s2)
  end.
  assert (queries (trace s2') = queries (trace s1)) as Hs2.
  { subst s2'. destruct (verbose options); [|done].
    simpl. rewrite queries_snoc. simpl. lia. }
  pose proof (none_add_loop W is_query repo_rootdir options
                (sorted new_repos)
                (fun repo => none_add_repository W is_query repo_rootdir
                               repo options (fun _ _ _ _ _ => eq_refl)
                               (fun _ => eq_refl))
                (fun _ _ => eq_refl) 0 s2') as Hadd.
  apply queries_filter in Hadd.
  destruct (add_loop _ _ _ _ _ _) as [[n|e] s3]; simpl in *;
    [|by rewrite Hadd, Hs2].
  match goal with
  | |- context [delete_loop _ ?s4] => set (s4' := s4)
  end.
  assert (queries (trace s4') = queries (trace s3)) as Hs4.
  { subst s4'. destruct (verbose options); [|done].
    simpl. rewrite queries_snoc. simpl. lia. }
  pose proof (none_delete_loop is_query (sorted deleted_repos)
                (fun _ _ => eq_refl) s4') as Hdel.
  apply queries_filter in Hdel.
  destruct (delete_loop _ _) as [[[]|e] s5]; simpl in *.
  - destruct (verbose options); simpl; rewrite ?queries_snoc; simpl;
      rewrite Hdel, Hs4, Hadd, Hs2; lia.
  - by rewrite Hdel, Hs4, Hadd, Hs2.
Qed.

End QueryPhase.

(** C5: in a pass the query for the tracked repositories is called at
    most 3 times, one call after the other; every call but the last one
    ended in a socket timeout; fewer than 3 calls are made only when
    the last one did not time out; and an exception of the last call,
    be it a timeout at the third call or any other exception at any
    call, is the exception that the pass ends with: a call that raises
    anything but a socket timeout is the last one.  When the fetches
    before the query go through, the query phase makes at least one
    call; between the first call and the last one the trace holds
    nothing but the calls and, with verbose, the lines that announce a
    retry; an exception of the last call leaves the dict as it was, and
    a list returned by the last call is the one from which the sets and
    the dict are built. *)
Theorem query_retried W :
  (∀ repo_rootdir options s,
     let run := main W repo_rootdir options s in
     let k := queries (trace s) in
     let attempts := queries (trace run.2) - k in
     attempts ≤ 3
     ∧ (∀ i : nat, i + 1 < attempts →
          repository_query W (k + i) = Raise SocketTimeout)
     ∧ (0 < attempts < 3 →
          repository_query W (k + attempts - 1) ≠ Raise SocketTimeout)
     ∧ (∀ e, 0 < attempts →
          repository_query W (k + attempts - 1) = Raise e →
          run.1 = Raise e)
     ∧ (∀ (i : nat) e, i < attempts →
          repository_query W (k + i) = Raise e → e ≠ SocketTimeout →
          i + 1 = attempts ∧ run.1 = Raise e)
     ∧ (attempts = 3 →
          repository_query W (k + 2) = Raise SocketTimeout →
          run.1 = Raise SocketTimeout))
  ∧ (∀ verbose s hg_token kiln_repo_info git_repo_info cert,
       kilnauth_token W = Ok hg_token →
       kiln_get_repos W hg_token verbose verbose = Ok kiln_repo_info →
       git_repo_info_of git_api_url (github W) [] = Ok git_repo_info →
       certificate W = Some cert →
       let run := _get_repos_to_add_and_delete W verbose s in
       let k := queries (trace s) in
       let attempts := queries (trace run.2) - k in
       1 ≤ attempts ≤ 3
       ∧ (∀ i : nat, i + 1 < attempts →
            repository_query W (k + i) = Raise SocketTimeout)
       ∧ (attempts < 3 →
            repository_query W (k + attempts - 1) ≠ Raise SocketTimeout)
       ∧ (∃ before after,
            trace run.2
            = trace s ++ before ++ retry_events verbose attempts ++ after
            ∧ queries before = 0 ∧ queries after = 0)
       ∧ (∀ e, repository_query W (k + attempts - 1) = Raise e →
            run.1 = Raise e
            ∧ url_to_callsign_map run.2 = url_to_callsign_map s)
       ∧ (∀ info, repository_query W (k + attempts - 1) = Ok info →
            run.1 = Ok (repos_to_add_and_delete
                          (list_to_set kiln_repo_info)
                          (list_to_set (git_repo_of <$> git_repo_info))
                          (phabricator_repos_of info))
            ∧ url_to_callsign_map run.2 = repo_to_callsign_map_of info)).
Proof.
  split.
  - intros repo_rootdir options s. cbv zeta.
    destruct (get_repos_attempts W (verbose options) (pass_start options s))
      as (a & Hq & Ha & Hpre & Hstop & Hraise).
    rewrite queries_pass_start in Hq, Hpre, Hstop, Hraise.
    rewrite main_queries, Hq.
    replace (queries (trace s) + a - queries (trace s)) with a by lia.
    assert (∀ e, 0 < a →
              repository_query W (queries (trace s) + a - 1) = Raise e →
              (main W repo_rootdir options s).1 = Raise e) as Hlast.
    { intros e Hpos He. by apply main_get_Raise, Hraise. }
    split_and!; [done..| |].
    + intros i e Hi He Hother.
      assert (i + 1 = a) as <-.
      { destruct (decide (i + 1 = a)) as [|Hne]; [done|].
        rewrite Hpre in He by lia. by injection He as <-. }
      split; [done|]. apply Hlast; [lia|].
      replace (queries (trace s) + (i + 1) - 1)
        with (queries (trace s) + i) by lia.
      done.
    + intros -> Htimeout. apply Hlast; [lia|].
      replace (queries (trace s) + 3 - 1)
        with (queries (trace s) + 2) by lia.
      done.
  - intros verbose s hg_token kiln_repo_info git_repo_info cert
      H1 H2 H3 H4. cbv zeta.
    destruct (get_repos_query W verbose s _ _ _ _ H1 H2 H3 H4)
      as (a & Ha & Hpre & Hstop & Hrun).
    cbv zeta in Hrun. rewrite Hrun.
    set (before := github_prints verbose git_api_url (github W)
                   ++ (if verbose then [PrintFetching] else [])) in *.
    assert (queries before = 0) as Hbefore.
    { subst before. rewrite queries_app, queries_github_prints.
      by destruct verbose. }
    destruct (repository_query W (queries (trace s) + a - 1))
      as [info|e] eqn:Hlast; simpl.
    + match goal with
      | |- context [retry_events verbose a ++ ?l] => set (after := l)
      end.
      assert (queries after = 0) as Hafter
        by (subst after; by destruct verbose).
      replace (queries (trace s ++ before ++ retry_events verbose a
                        ++ after) - queries (trace s)) with a
        by (rewrite !queries_app, Hbefore, Hafter, queries_retry_events;
            lia).
      rewrite Hlast.
      split_and!; try done; try lia.
      * by exists before, after.
      * by intros info' [= ->].
    + replace (queries (trace s ++ before ++ retry_events verbose a)
               - queries (trace s)) with a
        by (rewrite !queries_app, Hbefore, queries_retry_events; lia).
      rewrite Hlast.
      split_and!; try done; try lia.
      * exists before, []. by rewrite app_nil_r.
      * by intros e' [= ->].
Qed.

Lemma query_retried_witness :
  repository_query (flaky_world []) (queries (trace initial_state) + 0)
  = Raise SocketTimeout.
Proof.
  refine (proj1 (proj2
            (proj2 (query_retried (flaky_world [])) false initial_state
               "token" [] [] "certificate"
               eq_refl eq_refl eq_refl eq_refl)) 0 _).
  vm_compute. lia.
Defined.

(** ** The order of the add loop *)

Section PassOrder.
Context (W : World).

Lemma added_urls_filter tr :
  added_urls (filter has_added_url tr) = added_urls tr.
Proof.
  induction tr as [|ev tr IH]; [done|].
  unfold added_urls in *.
  destruct (add_event_url ev) as [url|] eqn:Hev.
  - rewrite filter_cons_True
      by (unfold has_added_url; rewrite Hev; simpl; auto).
    csimpl. by rewrite Hev, IH.
  - rewrite filter_cons_False
      by (unfold has_added_url; rewrite Hev; simpl; auto).
    csimpl. by rewrite Hev.
Qed.

Lemma added_urls_eq tr1 tr2 :
  filter has_added_url tr1 = filter has_added_url tr2 →
  added_urls tr1 = added_urls tr2.
Proof. intros H. by rewrite <-(added_urls_filter tr1), H, added_urls_filter. Qed.

Lemma added_urls_print s ev (b : bool) :
  add_event_url ev = None →
  added_urls (trace (if b then log [ev] s else s)) = added_urls (trace s).
Proof.
  intros Hev. destruct b; [|done]. simpl.
  rewrite added_urls_app. simpl. rewrite Hev. by rewrite app_nil_r.
Qed.

Lemma added_urls_pass_start options s :
  added_urls (trace (pass_start options s)) = added_urls (trace s).
Proof.
  unfold pass_start. destruct (verbose options); [|done]. simpl.
  rewrite !added_urls_app. simpl. by rewrite !app_nil_r.
Qed.

Lemma get_repos_added_urls verbose s :
  added_urls (trace (_get_repos_to_add_and_delete W verbose s).2)
  = added_urls (trace s).
Proof. by apply added_urls_eq, none_get_repos. Qed.

Lemma delete_loop_added_urls repos s :
  added_urls (trace (delete_loop repos s).2) = added_urls (trace s).
Proof. by apply added_urls_eq, none_delete_loop. Qed.

(** The events of the add loop in a pass, and the dict that it leaves. *)
Lemma main_add_loop repo_rootdir options s new_repos deleted_repos s1 :
  _get_repos_to_add_and_delete W (verbose options) (pass_start options s)
  = (Ok (new_repos, deleted_repos), s1) →
  let run := main W repo_rootdir options s in
  ∃ urls,
    added_urls (trace run.2) = added_urls (trace s) ++ urls
    ∧ StronglySorted String.le urls
    ∧ (∀ url, url ∈ urls → url ∈ new_repos)
    ∧ (∀ num_failures, run.1 = Ok num_failures →
         ∀ url, url ∈ new_repos → url ∈ urls)
    ∧ dict_steps (sorted new_repos) (url_to_callsign_map s1)
        (url_to_callsign_map run.2).
Proof.
  intros Hget. cbv zeta.
  pose proof (get_repos_added_urls (verbose options) (pass_start options s))
    as Hs1.
  rewrite added_urls_pass_start in Hs1.
  rewrite main_run. cbv zeta. fold (pass_start options s).
  rewrite Hget in *. simpl in Hs1.
  match goal with
  | |- context [add_loop _ _ _ _ _ ?s2] => set (s2' := s2)
  end.
  assert (added_urls (trace s2') = added_urls (trace s)) as Hs2
    by (subst s2'; by rewrite added_urls_print).
  assert (url_to_callsign_map s2' = url_to_callsign_map s1) as Hm2
    by (subst s2'; by destruct (verbose options)).
  destruct (add_loop_events W repo_rootdir options (sorted new_repos) 0 s2')
    as (evs & Htr & Hsorted & Hin & Hall).
  pose proof (add_loop_dict_steps W repo_rootdir options (sorted new_repos)
                0 s2') as Hsteps.
  rewrite Hm2 in Hsteps.
  exists (added_urls evs).
  assert (StronglySorted String.le (added_urls evs)) as Hsorted'
    by apply Hsorted, sorted_StronglySorted.
  assert (∀ url, url ∈ added_urls evs → url ∈ new_repos) as Hin'
    by (intros url Hurl; by apply elem_of_sorted, Hin).
  destruct (add_loop _ _ _ _ _ _) as [[n|e] s3]; simpl in *.
  2:{ split_and!; try done. by rewrite Htr, added_urls_app, Hs2. }
  match goal with
  | |- context [delete_loop _ ?s4] => set (s4' := s4)
  end.
  assert (added_urls (trace s4') = added_urls (trace s3)) as Hs4
    by (subst s4'; by rewrite added_urls_print).
  assert (url_to_callsign_map s4' = url_to_callsign_map s3) as Hm4
    by (subst s4'; by destruct (verbose options)).
  pose proof (delete_loop_added_urls (sorted deleted_repos) s4') as Hs5.
  destruct (delete_loop_run (sorted deleted_repos) s4') as (Hm5 & _).
  cbv zeta in Hm5.
  assert (∀ url, url ∈ new_repos → url ∈ added_urls evs) as Hall'.
  { intros url Hurl. eapply Hall; [done|]. by apply elem_of_sorted. }
  destruct (delete_loop _ _) as [[[]|e] s5]; simpl in *.
  - split_and!; try done.
    + rewrite added_urls_print by done.
      by rewrite Hs5, Hs4, Htr, added_urls_app, Hs2.
    + destruct (verbose options); simpl; by rewrite Hm5, Hm4.
  - split_and!; try done.
    + by rewrite Hs5, Hs4, Htr, added_urls_app, Hs2.
    + by rewrite Hm5, Hm4.
Qed.

Lemma get_repos_new_untracked verbose s new_repos deleted_repos s1 :
  _get_repos_to_add_and_delete W verbose s
  = (Ok (new_repos, deleted_repos), s1) →
  ∀ url, url ∈ new_repos → url_to_callsign_map s1 !! url = None.
Proof.
  intros Hget url Hurl.
  apply get_repos_Ok in Hget as (kiln & git & info & Hsets & Hmap).
  injection Hsets as -> _.
  apply not_elem_of_dom. rewrite Hmap, dom_repo_to_callsign_map_of.
  by apply elem_of_difference in Hurl as [_ ?].
Qed.

End PassOrder.

(** C6: a pass goes through the clone-urls to add in lexicographic
    order: the urls that the events of the add loop are about come in
    this order in the trace of [main], they are urls of [new_repos],
    and they are all of them when [main] returns; of two urls to add
    whose names give the same words and that both have a callsign in
    the dict that [main] ends with, the one that sorts first has the
    candidate of the smaller prefix length, which is the shorter
    callsign; when the query phase raises, [main] ends there; the
    order does not depend on the order in which the set hands out its
    elements; and of foo-website and foo-group, listed in this order by
    github, the second is added first and gets F, the first gets FO. *)
Theorem add_loop_in_sorted_order W repo_rootdir options s :
  let run := main W repo_rootdir options s in
  let get := _get_repos_to_add_and_delete W (verbose options)
               (pass_start options s) in
  (∃ urls,
     added_urls (trace run.2) = added_urls (trace s) ++ urls
     ∧ StronglySorted String.le urls
     ∧ ∀ new_repos deleted_repos,
         get.1 = Ok (new_repos, deleted_repos) →
         (∀ url, url ∈ urls → url ∈ new_repos)
         ∧ (∀ num_failures, run.1 = Ok num_failures →
              ∀ url, url ∈ new_repos → url ∈ urls))
  ∧ (∀ new_repos deleted_repos,
       get.1 = Ok (new_repos, deleted_repos) →
       ∀ url1 url2 vcs1 vcs2 name1 name2 cs1 cs2,
         url1 ∈ new_repos → url2 ∈ new_repos →
         String.le url1 url2 → url1 ≠ url2 →
         match_prefix prefix_map url1 = Some (vcs1, name1) →
         match_prefix prefix_map url2 = Some (vcs2, name2) →
         name_parts_of name1 = name_parts_of name2 →
         url_to_callsign_map run.2 !! url1 = Some cs1 →
         url_to_callsign_map run.2 !! url2 = Some cs2 →
         ∃ k1 k2 : nat,
           k1 < k2
           ∧ cs1 = candidate_callsign (name_parts_of name1) k1
           ∧ cs2 = candidate_callsign (name_parts_of name1) k2
           ∧ String.length cs1 < String.length cs2)
  ∧ (∀ e, get.1 = Raise e → run = (Raise e, get.2))
  ∧ (∀ (new_repos : gset string) l,
       l ≡ₚ elements new_repos →
       merge_sort String.le l = sorted new_repos)
  ∧ (let m := url_to_callsign_map
                (main foo_twice "/repos" quiet initial_state).2 in
     m !! "https://github.com/Khan/foo-group" = Some "F"
     ∧ m !! "https://github.com/Khan/foo-website" = Some "FO").
Proof.
  intros run get. split_and!; [| | | |split; vm_compute; reflexivity].
  - destruct get as [[[new_repos deleted_repos]|e] s1] eqn:Hget.
    + destruct (main_add_loop W repo_rootdir options s _ _ _ Hget)
        as (urls & Htr & Hsorted & Hin & Hall & _).
      exists urls. split_and!; [done..|].
      by intros new_repos' deleted_repos' [= <- <-].
    + exists []. subst run. rewrite main_run. cbv zeta.
      fold (pass_start options s). fold get. rewrite Hget. simpl.
      pose proof (get_repos_added_urls W (verbose options)
                    (pass_start options s)) as Hs1.
      fold get in Hs1. rewrite Hget, added_urls_pass_start in Hs1.
      simpl in Hs1. rewrite app_nil_r.
      split_and!; [done | constructor | done].
  - intros new_repos deleted_repos Hget url1 url2 vcs1 vcs2 name1 name2
      cs1 cs2 Hurl1 Hurl2 Hle Hne Hprefix1 Hprefix2 Hparts Hcs1 Hcs2.
    destruct get as [r s1] eqn:Hrun. simpl in Hget. subst r.
    destruct (main_add_loop W repo_rootdir options s _ _ _ Hrun)
      as (_ & _ & _ & _ & _ & Hsteps).
    destruct (dict_steps_pair _ _ _ Hsteps (sorted_NoDup _)
                (sorted_StronglySorted _))
      with (url1 := url1) (url2 := url2) (cs1 := cs1) (cs2 := cs2)
      as (m1 & m2 & v1 & n1 & v2 & n2 & Hsub & Hm2 & Hp1 & Hp2 & Ha1 & Ha2);
      try done; try (by apply elem_of_sorted).
    { intros url Hurl%elem_of_sorted.
      by eapply get_repos_new_untracked. }
    simplify_eq. by eapply later_allocation_longer.
  - intros e Hget. subst run. rewrite main_run. cbv zeta.
    fold (pass_start options s). fold get.
    destruct get as [[[]|e'] s1]; simpl in *; congruence.
  - intros new_repos l. apply sorted_any_order.
Qed.

Lemma add_loop_in_sorted_order_witness :
  ∃ k1 k2 : nat,
    k1 < k2
    ∧ "F" = candidate_callsign (name_parts_of "foo-group") k1
    ∧ "FO" = candidate_callsign (name_parts_of "foo-group") k2
    ∧ String.length "F" < String.length "FO".
Proof.
  refine (proj1 (proj2
            (add_loop_in_sorted_order foo_twice "/repos" quiet
               initial_state))
            _ _ _
            "https://github.com/Khan/foo-group"
            "https://github.com/Khan/foo-website"
            "git" "git" "foo-group" "foo-website" "F" "FO"
            _ _ _ _ _ _ _ _ _).
  - vm_compute. reflexivity.
  - vm_compute. reflexivity.
  - vm_compute. reflexivity.
  - vm_compute. exact I.
  - discriminate.
  - vm_compute. reflexivity.
  - vm_compute. reflexivity.
  - vm_compute. reflexivity.
  - vm_compute. reflexivity.
  - vm_compute. reflexivity.
Defined.
